(** * findCommentsInRaws: a shallow embedding of the comment scanner

    The scanner of [src/utils/findCommentsInRaws.js] walks a raw CSS string
    once, keeps a stack of the structures it is inside (string, parens, url
    function, comment) and pushes one record per comment it closes.

    Conventions of the embedding:
    - a JavaScript string is the list of its UTF-16 code units, each an [N];
    - indices are JavaScript numbers that only ever hold integers: [Z];
    - a JavaScript object is a record of optional properties, [None] standing
      for an absent (or [undefined]) property;
    - the array [modesEntered] is kept with its last element first, so that
      [push] is a cons and [pop] drops the head;
    - a [TypeError] raised by reading a property of [undefined] or [null]
      aborts the call: the scanner ends in a [completion], normal or
      abrupt. *)

From Stdlib Require Import String Ascii ZArith NArith List Bool Lia Sorted.
Import ListNotations.
Open Scope Z_scope.

(** ** Strings *)

Definition str := list N.

(** A string literal of the development, as code units. *)
Definition js (s : string) : str := map N_of_ascii (list_ascii_of_string s).

Fixpoint str_eqb (a b : str) : bool :=
  match a, b with
  | [], [] => true
  | x :: a', y :: b' => N.eqb x y && str_eqb a' b'
  | _, _ => false
  end.

Definition len (s : str) : Z := Z.of_nat (length s).

(** [s[i]]: [undefined] outside of the string. *)
Definition charAt (s : str) (i : Z) : option N :=
  if i <? 0 then None else nth_error s (Z.to_nat i).

(** [s.substring(a, b)]: both ends are clamped to [0 .. s.length] and swapped
    when they come in the wrong order. *)
Definition clamp (s : str) (z : Z) : Z := Z.max 0 (Z.min z (len s)).

Definition substring (s : str) (a b : Z) : str :=
  let a' := clamp s a in
  let b' := clamp s b in
  let from := Z.min a' b' in
  let to := Z.max a' b' in
  firstn (Z.to_nat (to - from)) (skipn (Z.to_nat from) s).

(** [s.substring(a)]. *)
Definition substring_from (s : str) (a : Z) : str := substring s a (len s).

(** ** Character classes of the regular expressions *)

Module Cls.

Definition chr (s : string) : N :=
  match s with
  | String a _ => N_of_ascii a
  | EmptyString => 0%N
  end.

Definition just (c : N) : N -> bool := N.eqb c.

Definition between (lo hi c : N) : bool := ((lo <=? c) && (c <=? hi))%N.

(** [\n], [\r], U+2028 and U+2029. *)
Definition line_terminator (c : N) : bool :=
  (c =? 10)%N || (c =? 13)%N || (c =? 8232)%N || (c =? 8233)%N.

(** [\s]: the white space and line terminator code units of ECMAScript. *)
Definition space (c : N) : bool :=
  between 9 13 c || (c =? 32)%N || (c =? 160)%N || (c =? 5760)%N
  || between 8192 8202 c || (c =? 8232)%N || (c =? 8233)%N || (c =? 8239)%N
  || (c =? 8287)%N || (c =? 12288)%N || (c =? 65279)%N.

(** [\S]. *)
Definition non_space (c : N) : bool := negb (space c).

(** [.] (no [s] flag). *)
Definition dot (c : N) : bool := negb (line_terminator c).

(** [[\s\S]]. *)
Definition any (_ : N) : bool := true.

(** [[a-zA-Z0-9_-]]. *)
Definition ident (c : N) : bool :=
  between (chr "a") (chr "z") c || between (chr "A") (chr "Z") c
  || between (chr "0") (chr "9") c || just (chr "_") c || just (chr "-") c.

(** The class of line 68: [:], white space, [,], [.], both parentheses, both
    braces, the star, [+], [/] and [%]. *)
Definition delimiter (c : N) : bool :=
  just (chr ":") c || space c || just (chr ",") c || just (chr ".") c
  || just (chr "(") c || just (chr ")") c || just (chr "{") c
  || just (chr "}") c || just (chr "*") c || just (chr "+") c
  || just (chr "/") c || just (chr "%") c.

(** [[!#]]. *)
Definition bang_or_hash (c : N) : bool := just (chr "!") c || just (chr "#") c.

End Cls.

(** ** A backtracking matcher for the regular expressions of the source

    The five regular expressions of the scanner use literals, classes,
    sequence, alternation, capture groups, the anchors [^] and [$] (without
    the [m] flag) and quantifiers applied to a single class.  The matcher
    follows the ECMAScript semantics for them: alternatives are tried left to
    right, a greedy quantifier tries the longest run first, a lazy one the
    shortest, and the first complete match wins. *)

Module Regex.

Inductive regex : Type :=
| Bol                          (* ^ *)
| Eol                          (* $ *)
| Chr (p : N -> bool)          (* one code unit of a class *)
| Seq (r1 r2 : regex)
| Alt (r1 r2 : regex)
| Star (p : N -> bool)         (* p*  *)
| StarLazy (p : N -> bool)     (* p*? *)
| Plus (p : N -> bool)         (* p+  *)
| Opt (p : N -> bool)          (* p{0,1} *)
| Group (n : nat) (r : regex). (* the n-th capture group *)

(** Captures: the latest binding of a group comes first. *)
Definition captures := list (nat * str).

Fixpoint capture (cs : captures) (n : nat) : option str :=
  match cs with
  | [] => None
  | (k, v) :: cs' => if Nat.eqb k n then Some v else capture cs' n
  end.

(** A continuation receives the position reached, what is left of the input
    and the captures so far. *)
Definition cont := nat -> str -> captures -> option captures.

Fixpoint star (p : N -> bool) (k : cont) (pos : nat) (s : str) (cs : captures)
  : option captures :=
  match s with
  | c :: s' =>
      if p c then
        match star p k (S pos) s' cs with
        | Some r => Some r
        | None => k pos s cs
        end
      else k pos s cs
  | [] => k pos s cs
  end.

Fixpoint star_lazy (p : N -> bool) (k : cont) (pos : nat) (s : str)
  (cs : captures) : option captures :=
  match k pos s cs with
  | Some r => Some r
  | None =>
      match s with
      | c :: s' => if p c then star_lazy p k (S pos) s' cs else None
      | [] => None
      end
  end.

Definition one (p : N -> bool) (k : cont) (pos : nat) (s : str)
  (cs : captures) : option captures :=
  match s with
  | c :: s' => if p c then k (S pos) s' cs else None
  | [] => None
  end.

Fixpoint run (r : regex) (k : cont) (pos : nat) (s : str) (cs : captures)
  : option captures :=
  match r with
  | Bol => if Nat.eqb pos 0 then k pos s cs else None
  | Eol => match s with [] => k pos s cs | _ :: _ => None end
  | Chr p => one p k pos s cs
  | Seq r1 r2 => run r1 (run r2 k) pos s cs
  | Alt r1 r2 =>
      match run r1 k pos s cs with
      | Some r => Some r
      | None => run r2 k pos s cs
      end
  | Star p => star p k pos s cs
  | StarLazy p => star_lazy p k pos s cs
  | Plus p => one p (star p k) pos s cs
  | Opt p =>
      match one p k pos s cs with
      | Some r => Some r
      | None => k pos s cs
      end
  | Group n r' =>
      run r' (fun pos' s' cs' => k pos' s' ((n, firstn (pos' - pos) s) :: cs'))
        pos s cs
  end.

Definition accept : cont := fun _ _ cs => Some cs.

(** The first start position, from [pos] on, at which [r] matches. *)
Fixpoint match_from (r : regex) (pos : nat) (s : str)
  : option (nat * captures) :=
  match run r accept pos s [] with
  | Some cs => Some (pos, cs)
  | None =>
      match s with
      | [] => None
      | _ :: s' => match_from r (S pos) s'
      end
  end.

(** [r.exec(s)] for a regular expression without flags: the captures of the
    first match, or [null]. *)
Definition exec (r : regex) (s : str) : option captures :=
  option_map snd (match_from r 0 s).

(** [s.search(r)]: the index of the first match, or [-1]. *)
Definition search (s : str) (r : regex) : Z :=
  match match_from r 0 s with
  | Some (pos, _) => Z.of_nat pos
  | None => -1
  end.

Definition lit (s : string) : regex := Chr (Cls.just (Cls.chr s)).

End Regex.

Import Regex.

(** The pattern of [functionName] (line 68): the start of the text, or a line
    feed, or a carriage return, or a white space followed by [-], or one
    delimiter; then group 1, a greedy run of [[a-zA-Z0-9_-]]; then the end of
    the text. *)
Definition re_functionName : regex :=
  Seq (Alt Bol
        (Alt (Chr (Cls.just 10))
          (Alt (Chr (Cls.just 13))
            (Alt (Seq (Chr Cls.space) (lit "-"))
                 (Chr Cls.delimiter)))))
      (Seq (Group 1 (Star Cls.ident)) Eol).

(** The pattern of [inlineAfter] (lines 95 and 109): a line feed, a greedy
    run of white space, the end of the text. *)
Definition re_lineStart : regex :=
  Seq (Chr (Cls.just 10)) (Seq (Star Cls.space) Eol).

(** The pattern of a CSS comment (line 122), anchored at both ends: group 1
    is [/], one or more stars and at most one of [!] and [#]; group 2 a greedy
    run of white space; group 3 a lazy run of any code units; group 4 a lazy
    run of white space; group 5 one or more stars and [/]. *)
Definition re_cssComment : regex :=
  Seq Bol
    (Seq (Group 1 (Seq (lit "/") (Seq (Plus (Cls.just (Cls.chr "*")))
                                      (Opt Cls.bang_or_hash))))
      (Seq (Group 2 (Star Cls.space))
        (Seq (Group 3 (StarLazy Cls.any))
          (Seq (Group 4 (StarLazy Cls.space))
            (Seq (Group 5 (Seq (Plus (Cls.just (Cls.chr "*"))) (lit "/")))
                 Eol))))).

(** The pattern of [inlineBefore] (line 132), anchored at the start: a lazy
    run of white space, one or more code units that are not white space, a
    lazy run of white space, a line feed. *)
Definition re_codeAfter : regex :=
  Seq Bol
    (Seq (StarLazy Cls.space)
      (Seq (Plus Cls.non_space)
        (Seq (StarLazy Cls.space) (Chr (Cls.just 10))))).

(** The pattern of a double-slash comment (line 147), anchored at both ends:
    group 1 is one or more [/]; group 2 a greedy run of white space; group 3
    a lazy run of code units other than line terminators; group 4 a lazy run
    of white space. *)
Definition re_doubleSlashComment : regex :=
  Seq Bol
    (Seq (Group 1 (Plus (Cls.just (Cls.chr "/"))))
      (Seq (Group 2 (Star Cls.space))
        (Seq (Group 3 (StarLazy Cls.dot))
          (Seq (Group 4 (StarLazy Cls.space)) Eol)))).

(** ** The data of the scanner *)

(** The [mode] of an entry of [modesEntered]: "normal", "string", "url",
    "parens" or "comment". *)
Inductive Mode : Type :=
| mode_normal | mode_string | mode_url | mode_parens | mode_comment.

Definition Mode_eqb (a b : Mode) : bool :=
  match a, b with
  | mode_normal, mode_normal | mode_string, mode_string | mode_url, mode_url
  | mode_parens, mode_parens | mode_comment, mode_comment => true
  | _, _ => false
  end.

(** An entry of [modesEntered]; [character] is [null] for the bottom entry. *)
Record frame : Type := { mode : Mode; character : option str }.

(** The [type] of a comment: "css" or "double-slash". *)
Inductive CommentType : Type := css | double_slash.

Module Raws.
Record t : Type := {
  startToken : option str;
  left : option str;
  text : str;
  right : option str;
  endToken : option str
}.
End Raws.

(** The comment object; [{}] is [empty]. *)
Record Comment : Type := {
  type : option CommentType;
  start : option Z;
  inlineAfter : option bool;
  end_ : option Z;
  raws : option Raws.t;
  text : option str;
  inlineBefore : option bool
}.

Definition empty : Comment :=
  {| type := None; start := None; inlineAfter := None; end_ := None;
     raws := None; text := None; inlineBefore := None |}.

(** The variables of the loop. *)
Record state : Type := {
  i : Z;
  modesEntered : list frame;
  comment : Comment;
  result : list Comment
}.

Inductive exn : Type := TypeError.

Inductive completion (A : Type) : Type :=
| Normal (a : A)
| Throw (e : exn).
Arguments Normal {A} a.
Arguments Throw {A} e.

(** ** The scanner *)

Definition quot : N := 34.       (* the double quote *)
Definition apos : N := 39.       (* the single quote *)
Definition backslash : N := 92.
Definition newline : N := 10.

Definition is_char (o : option N) (c : N) : bool :=
  match o with
  | Some c' => N.eqb c' c
  | None => false
  end.

Definition opt_str_eqb (a : option str) (b : str) : bool :=
  match a with
  | Some a' => str_eqb a' b
  | None => false
  end.

(** An [undefined] argument of [substring] counts as 0. *)
Definition to_integer (o : option Z) : Z :=
  match o with
  | Some z => z
  | None => 0
  end.

Definition set_modes (st : state) (i' : Z) (ms : list frame) : state :=
  {| i := i'; modesEntered := ms; comment := comment st;
     result := result st |}.

(** Lines 95 and 109. *)
Definition inlineAfter_at (rawString : str) (i : Z) : bool :=
  search (substring rawString 0 i) re_lineStart =? -1.

(** Line 132. *)
Definition inlineBefore_at (rawString : str) (i : Z) : bool :=
  negb (search (substring_from rawString (i + 2)) re_codeAfter =? -1).

(** Lines 87 to 98 and 102 to 112: a comment opens at [i]; the loop leaps over
    the second code unit of the marker. *)
Definition open_comment (st : state) (ty : CommentType) (marker : str)
  (after : bool) : state :=
  {| i := i st + 1;
     modesEntered := {| mode := mode_comment; character := Some marker |}
                       :: modesEntered st;
     comment := {| type := Some ty; start := Some (i st);
                   inlineAfter := Some after; end_ := None; raws := None;
                   text := None; inlineBefore := None |};
     result := result st |}.

(** Lines 119 to 136 and 144 to 159: the comment closes with its last code
    unit at [e]; [matches] are the groups of its pattern, [skip] is 1 when
    the loop leaps over the [/] of the closing marker. *)
Definition close_comment (rawString : str) (st : state) (below : list frame)
  (e : Z) (re : regex) (endTok : captures -> option str) (before : bool)
  (skip : Z) : completion state :=
  let commentRaw :=
    substring rawString (to_integer (start (comment st))) (e + 1) in
  match exec re commentRaw with
  | None => Throw TypeError
  | Some matches =>
      let c := {| type := type (comment st);
                  start := start (comment st);
                  inlineAfter := inlineAfter (comment st);
                  end_ := Some e;
                  raws := Some {| Raws.startToken := capture matches 1;
                                  Raws.left := capture matches 2;
                                  Raws.text := commentRaw;
                                  Raws.right := capture matches 4;
                                  Raws.endToken := endTok matches |};
                  text := capture matches 3;
                  inlineBefore := Some before |} in
      Normal {| i := i st + skip; modesEntered := below; comment := empty;
                result := result st ++ [c] |}
  end.

(** The body of the [for] loop (lines 37 to 164); the [i] of the state it
    returns is the one the loop's own [i++] then increments. *)
Definition body (rawString : str) (st : state) : completion state :=
  let prevChar := if 0 <? i st then charAt rawString (i st - 1) else None in
  let nextChar :=
    if i st + 1 <? len rawString then charAt rawString (i st + 1) else None in
  match modesEntered st with
  | [] => Throw TypeError
  | top :: below =>
      let topCharacter := character top in
      let mode := mode top in
      let character := charAt rawString (i st) in
      if is_char character quot || is_char character apos then
        if Mode_eqb mode mode_comment then Normal st
        else if Mode_eqb mode mode_string
                && match character with
                   | Some c => opt_str_eqb topCharacter [c]
                   | None => false
                   end
                && negb (is_char prevChar backslash)
        then Normal (set_modes st (i st) below)
        else Normal (set_modes st (i st)
                       ({| mode := mode_string;
                           character := option_map (fun c => [c]) character |}
                          :: modesEntered st))
      else if is_char character (Cls.chr "(") then
        if Mode_eqb mode mode_comment || Mode_eqb mode mode_string
        then Normal st
        else
          match exec re_functionName (substring rawString 0 (i st)) with
          | None => Throw TypeError
          | Some m =>
              let functionName := capture m 1 in
              Normal (set_modes st (i st)
                        ({| mode := if opt_str_eqb functionName (js "url")
                                    then mode_url else mode_parens;
                            character := Some (js "(") |}
                           :: modesEntered st))
          end
      else if is_char character (Cls.chr ")") then
        if Mode_eqb mode mode_comment || Mode_eqb mode mode_string
        then Normal st
        else Normal (set_modes st (i st) below)
      else if is_char character (Cls.chr "/") then
        if Mode_eqb mode mode_comment then Normal st
        else if is_char nextChar (Cls.chr "*") then
          Normal (open_comment st css (js "/*")
                    (inlineAfter_at rawString (i st)))
        else if is_char nextChar (Cls.chr "/") then
          if Mode_eqb mode mode_url then Normal st
          else Normal (open_comment st double_slash (js "//")
                         (inlineAfter_at rawString (i st)))
        else Normal st
      else if is_char character (Cls.chr "*") then
        if Mode_eqb mode mode_comment
           && opt_str_eqb topCharacter (js "/*")
           && is_char nextChar (Cls.chr "/")
        then close_comment rawString st below (i st + 1) re_cssComment
               (fun matches => capture matches 5)
               (inlineBefore_at rawString (i st)) 1
        else Normal st
      else
        if is_char character newline || (i st =? len rawString - 1) then
          if Mode_eqb mode mode_comment
             && opt_str_eqb topCharacter (js "//")
          then close_comment rawString st below
                 (if is_char character newline then i st - 1 else i st)
                 re_doubleSlashComment (fun _ => None) false 0
          else Normal st
        else Normal st
  end.

(** One turn of the loop: the body, then [i++]. *)
Definition turn (rawString : str) (st : state) : completion state :=
  match body rawString st with
  | Normal st' => Normal (set_modes st' (i st' + 1) (modesEntered st'))
  | Throw e => Throw e
  end.

(** [for (let i = 0; i < rawString.length; i++)], then [return result].
    Every turn of the loop uses one unit of [fuel]; [None] is a loop that is
    still running when the fuel is spent. *)
Fixpoint loop (rawString : str) (fuel : nat) (st : state)
  : option (completion (list Comment)) :=
  if i st <? len rawString then
    match fuel with
    | O => None
    | S fuel' =>
        match turn rawString st with
        | Throw e => Some (Throw e)
        | Normal st' => loop rawString fuel' st'
        end
    end
  else Some (Normal (result st)).

(** The entry [modesEntered] starts with (lines 31 to 34). *)
Definition bottom : frame := {| mode := mode_normal; character := None |}.

Definition initial : state :=
  {| i := 0;
     modesEntered := [bottom];
     comment := empty;
     result := [] |}.

(** The index advances by at least one at every turn, so as many turns as the
    text has code units are enough. *)
Definition findCommentsInRaws (rawString : str)
  : option (completion (list Comment)) :=
  loop rawString (length rawString) initial.

(** ** The vocabulary of the statements *)

(** The states the loop goes through on [rawString]: those at which the loop
    test is evaluated. *)
Inductive reaches (rawString : str) : state -> Prop :=
| reaches_initial : reaches rawString initial
| reaches_turn (st st' : state) :
    reaches rawString st ->
    i st < len rawString ->
    turn rawString st = Normal st' ->
    reaches rawString st'.

(** The last entry of [modesEntered] is a comment opened by [marker]. *)
Definition in_comment (st : state) (marker : str) : Prop :=
  exists below,
    modesEntered st
    = {| mode := mode_comment; character := Some marker |} :: below.

(** [modesEntered] has a last entry, which is not a comment. *)
Definition outside_comment (st : state) : Prop :=
  exists top below,
    modesEntered st = top :: below /\ mode top <> mode_comment.

(** The closing marker of a CSS comment starts at [j]. *)
Definition closes_at (rawString : str) (j : Z) : Prop :=
  charAt rawString j = Some (Cls.chr "*")
  /\ charAt rawString (j + 1) = Some (Cls.chr "/").

(** Group [n] of the outcome of [exec]. *)
Definition capture_of (m : option captures) (n : nat) : option str :=
  match m with
  | Some cs => capture cs n
  | None => None
  end.

(** The number of turns that are certainly enough from [st]. *)
Definition turns_left (s : str) (st : state) : nat := Z.to_nat (len s - i st).

(** The state after the turn that opens a CSS comment at [i st]. *)
Definition css_opened (s : str) (st : state) : state :=
  let st1 := open_comment st css (js "/*") (inlineAfter_at s (i st)) in
  set_modes st1 (i st1 + 1) (modesEntered st1).

(** The state after [n] turns of the loop, when the loop gets that far. *)
Fixpoint state_after (s : str) (n : nat) : option state :=
  match n with
  | O => Some initial
  | S n' =>
      match state_after s n' with
      | Some st =>
          if i st <? len s then
            match turn s st with
            | Normal st' => Some st'
            | Throw _ => None
            end
          else None
      | None => None
      end
  end.

(** The record of the CSS comment of the claim, found at [at_] in [s]. *)
Definition hello_record (s : str) (at_ : Z) : Comment :=
  {| type := Some css;
     start := Some at_;
     inlineAfter := Some (inlineAfter_at s at_);
     end_ := Some (at_ + 12);
     raws := Some {| Raws.startToken := Some (js "/*");
                     Raws.left := Some (js "  ");
                     Raws.text := js "/*  hello  */";
                     Raws.right := Some (js "  ");
                     Raws.endToken := Some (js "*/") |};
     text := Some (js "hello");
     inlineBefore := Some (inlineBefore_at s (at_ + 11)) |}.

(** A record carries its span: both ends are set, lie in the text in the
    right order, and [raws.text] is the text between them, ends included. *)
Definition record_span (s : str) (r : Comment) : Prop :=
  exists b e rw,
    start r = Some b /\ end_ r = Some e /\ raws r = Some rw
    /\ Raws.text rw = substring s b (e + 1)
    /\ 0 <= b < e /\ e < len s.

Definition not_comment (f : frame) : Prop := mode f <> mode_comment.

(** The marker that opens a comment of each type. *)
Definition marker_of (ty : CommentType) : str :=
  match ty with
  | css => js "/*"
  | double_slash => js "//"
  end.

(** Only the last entry of [modesEntered] can be a comment, and then the
    comment object [c] has its start, at least [d] code units before [i], and
    the type that goes with the marker of the entry. *)
Definition stack_ok (ms : list frame) (c : Comment) (i d : Z) : Prop :=
  match ms with
  | [] => True
  | top :: below =>
      Forall not_comment below
      /\ (mode top = mode_comment ->
          exists b ty,
            start c = Some b /\ 0 <= b /\ b + d <= i
            /\ type c = Some ty /\ character top = Some (marker_of ty))
  end.

(** A double-slash record has [inlineBefore] set to [false]. *)
Definition line_record_ok (r : Comment) : Prop :=
  type r = Some double_slash -> inlineBefore r = Some false.

(** What holds each time the loop test is evaluated. *)
Record Inv (s : str) (st : state) : Prop := {
  inv_i : 0 <= i st;
  inv_stack : stack_ok (modesEntered st) (comment st) (i st) 2;
  inv_result : Forall (record_span s) (result st);
  inv_line : Forall line_record_ok (result st)
}.

(** What the body of the loop can do to the state, [top] being the last
    entry of [modesEntered]: nothing; drop the last entry or add one, outside
    of a comment; open a comment, outside of a comment; close the comment it
    is in, with [inlineBefore] set to [false] for a double-slash comment. *)
Inductive effect (s : str) (st : state) (top : frame) (below : list frame)
  : state -> Prop :=
| effect_none : effect s st top below st
| effect_pop :
    not_comment top ->
    effect s st top below (set_modes st (i st) below)
| effect_push (f : frame) :
    not_comment top -> not_comment f ->
    effect s st top below (set_modes st (i st) (f :: top :: below))
| effect_open (ty : CommentType) (after : bool) :
    not_comment top -> i st + 1 < len s ->
    effect s st top below (open_comment st ty (marker_of ty) after)
| effect_close (e : Z) (re : regex) (endTok : captures -> option str)
    (before : bool) (skip : Z) (st1 : state) :
    mode top = mode_comment ->
    i st - 1 <= e < len s -> 0 <= skip <= 1 ->
    (character top = Some (js "//") -> before = false) ->
    close_comment s st below e re endTok before skip = Normal st1 ->
    effect s st top below st1.

(** No record of [st], and not the comment object of [st], starts at [n]. *)
Definition avoids (n : Z) (st : state) : Prop :=
  (forall r, In r (result st) -> start r <> Some n)
  /\ start (comment st) <> Some n.

(** The text ends with a line feed and a run of white space. *)
Definition ends_at_line_start (t : str) : Prop :=
  exists a ws, t = a ++ newline :: ws /\ forallb Cls.space ws = true.

(** The texts of the examples. *)
Definition text_unmatched_parens : str := js "a{b:c}))".
Definition text_condition : str := js "@if $a==(1){}".
Definition text_carriage_return : str :=
  js "//a" ++ [13%N] ++ js "b" ++ [newline].
Definition text_string : str :=
  js "a { content: " ++ [quot] ++ js "// not a comment" ++ [quot] ++ js "; }".
Definition text_code_on_next_line : str :=
  js "/* c */" ++ [newline] ++ js "a" ++ [newline].
Definition text_comment_first : str := js "/* c */".
Definition text_code_at_end : str := js "/* c */ a".
Definition text_note : str := js "a{color:red} //note".
Definition text_note_call : str := js "a{color:red} // see foo()".
Definition text_bare_marker : str := js "a{color:red} //".

(** ** Vocabulary of the further properties *)

(** The second code unit of the marker of each type. *)
Definition second_of (ty : CommentType) : N :=
  match ty with
  | css => Cls.chr "*"
  | double_slash => Cls.chr "/"
  end.

(** The body of the loop on a double-slash comment ends it: at a line feed,
    or at the last index. *)
Definition line_ends_at (s : str) (j e : Z) : Prop :=
  (charAt s j = Some newline /\ e = j - 1)
  \/ (charAt s j <> Some newline /\ j = len s - 1 /\ e = j).

(** What the body of the loop does, with the code units that make it do so:
    [top] is the last entry of [modesEntered], [below] the ones before. *)
Inductive action (s : str) (st : state) (top : frame) (below : list frame)
  : state -> Prop :=
| action_none :
    (mode top = mode_comment -> character top = Some (js "/*") ->
     ~ closes_at s (i st)) ->
    (mode top = mode_comment -> character top = Some (js "//") ->
     charAt s (i st) <> Some newline) ->
    action s st top below st
| action_pop :
    not_comment top ->
    (charAt s (i st) = Some (Cls.chr ")") /\ mode top <> mode_string
     \/ mode top = mode_string) ->
    action s st top below (set_modes st (i st) below)
| action_push (f : frame) :
    not_comment top ->
    (mode f = mode_string \/ mode f = mode_url \/ mode f = mode_parens) ->
    (mode f = mode_string \/ charAt s (i st) = Some (Cls.chr "(")) ->
    action s st top below (set_modes st (i st) (f :: top :: below))
| action_open (ty : CommentType) :
    not_comment top ->
    charAt s (i st) = Some (Cls.chr "/") ->
    charAt s (i st + 1) = Some (second_of ty) ->
    (ty = double_slash -> mode top <> mode_url) ->
    action s st top below
      (open_comment st ty (marker_of ty) (inlineAfter_at s (i st)))
| action_close_css (st1 : state) :
    mode top = mode_comment -> character top = Some (js "/*") ->
    closes_at s (i st) ->
    close_comment s st below (i st + 1) re_cssComment
      (fun matches => capture matches 5) (inlineBefore_at s (i st)) 1
    = Normal st1 ->
    action s st top below st1
| action_close_line (e : Z) (st1 : state) :
    mode top = mode_comment -> character top = Some (js "//") ->
    line_ends_at s (i st) e ->
    close_comment s st below e re_doubleSlashComment (fun _ => None) false 0
    = Normal st1 ->
    action s st top below st1.

(** The comment object while its comment is open: it started at [b] with the
    marker of [ty], after every record pushed so far, and no code unit since
    then would have closed it. *)
Definition open_ok (s : str) (st : state) (b : Z) (ty : CommentType) : Prop :=
  start (comment st) = Some b
  /\ type (comment st) = Some ty
  /\ inlineAfter (comment st) = Some (inlineAfter_at s b)
  /\ 0 <= b /\ b + 2 <= i st
  /\ charAt s b = Some (Cls.chr "/")
  /\ charAt s (b + 1) = Some (second_of ty)
  /\ (ty = css -> forall j, b + 2 <= j < i st -> ~ closes_at s j)
  /\ (ty = double_slash ->
      forall j, b + 2 <= j < i st -> charAt s j <> Some newline)
  /\ (forall r e, In r (result st) -> end_ r = Some e -> e < b).

(** A CSS record from [b] to [e]: it ends with the first closing marker that
    starts two code units or more after [b]. *)
Definition css_record (s : str) (r : Comment) (b e : Z) : Prop :=
  type r = Some css
  /\ charAt s (b + 1) = Some (Cls.chr "*")
  /\ closes_at s (e - 1)
  /\ b + 3 <= e
  /\ (forall j, b + 2 <= j < e - 1 -> ~ closes_at s j)
  /\ inlineBefore r = Some (inlineBefore_at s (e - 1)).

(** A double-slash record from [b] to [e]: no line feed in it, and a line
    feed or the end of the text right after it. *)
Definition line_record (s : str) (r : Comment) (b e : Z) : Prop :=
  type r = Some double_slash
  /\ charAt s (b + 1) = Some (Cls.chr "/")
  /\ b + 1 <= e
  /\ (forall j, b + 2 <= j <= e -> charAt s j <> Some newline)
  /\ (charAt s (e + 1) = Some newline \/ e = len s - 1)
  /\ inlineBefore r = Some false.

Definition record_shape (s : str) (r : Comment) : Prop :=
  exists b e,
    start r = Some b /\ end_ r = Some e
    /\ 0 <= b /\ e < len s
    /\ charAt s b = Some (Cls.chr "/")
    /\ inlineAfter r = Some (inlineAfter_at s b)
    /\ (css_record s r b e \/ line_record s r b e).

(** [r1] ends before [r2] starts. *)
Definition before (r1 r2 : Comment) : Prop :=
  forall e b, end_ r1 = Some e -> start r2 = Some b -> e < b.

Record Shape (s : str) (st : state) : Prop := {
  sh_open : forall top below,
    modesEntered st = top :: below -> mode top = mode_comment ->
    exists b ty, character top = Some (marker_of ty) /\ open_ok s st b ty;
  sh_records : Forall (record_shape s) (result st);
  sh_ends : forall r e, In r (result st) -> end_ r = Some e -> e < i st;
  sh_sorted : StronglySorted before (result st)
}.

(** The records of a call that returns; no record otherwise. *)
Definition returned (s : str) : list Comment :=
  match findCommentsInRaws s with
  | Some (Normal res) => res
  | _ => []
  end.

Definition text_two_comments : str :=
  js "a { /* b */ c: d; }" ++ [newline] ++ js "  // e" ++ [newline] ++ js "f".

(** [r] matches [a] at position [pos], with [b] left after it. *)
Fixpoint matches (r : regex) (pos : nat) (a b : str) : Prop :=
  match r with
  | Bol => pos = 0%nat /\ a = []
  | Eol => a = [] /\ b = []
  | Chr p => exists c, a = [c] /\ p c = true
  | Seq r1 r2 =>
      exists a1 a2,
        a = a1 ++ a2 /\ matches r1 pos a1 (a2 ++ b)
        /\ matches r2 (pos + length a1)%nat a2 b
  | Alt r1 r2 => matches r1 pos a b \/ matches r2 pos a b
  | Star p | StarLazy p => forallb p a = true
  | Plus p => a <> [] /\ forallb p a = true
  | Opt p => a = [] \/ exists c, a = [c] /\ p c = true
  | Group _ r' => matches r' pos a b
  end.

(** No capture group in [r]. *)
Fixpoint groupless (r : regex) : Prop :=
  match r with
  | Seq r1 r2 | Alt r1 r2 => groupless r1 /\ groupless r2
  | Group _ _ => False
  | _ => True
  end.

(** The continuation goes on to a match whatever the captures. *)
Definition succeeds (k : cont) (pos : nat) (b : str) : Prop :=
  forall cs, k pos b cs <> None.

(** The text is made of identifier characters, from its start or from right
    after a delimiter. *)
Definition name_start (t : str) : Prop :=
  forallb Cls.ident t = true
  \/ exists a d id,
       t = a ++ d :: id /\ Cls.delimiter d = true
       /\ forallb Cls.ident id = true.

(** The places of the body of the loop where a TypeError is raised. *)
Inductive throws_at (s : str) (st : state) : Prop :=
| throws_no_entry :
    modesEntered st = [] -> throws_at s st
| throws_functionName :
    charAt s (i st) = Some (Cls.chr "(") ->
    exec re_functionName (substring s 0 (i st)) = None ->
    throws_at s st
| throws_css (top : frame) (below : list frame) :
    modesEntered st = top :: below ->
    mode top = mode_comment -> character top = Some (js "/*") ->
    closes_at s (i st) ->
    exec re_cssComment
      (substring s (to_integer (start (comment st))) (i st + 1 + 1)) = None ->
    throws_at s st
| throws_line (top : frame) (below : list frame) (e : Z) :
    modesEntered st = top :: below ->
    mode top = mode_comment -> character top = Some (js "//") ->
    line_ends_at s (i st) e ->
    exec re_doubleSlashComment
      (substring s (to_integer (start (comment st))) (e + 1)) = None ->
    throws_at s st.

(** [modesEntered] still has its bottom entry, below entries of other
    modes. *)
Definition has_bottom (ms : list frame) : Prop :=
  exists frames,
    ms = frames ++ [bottom]
    /\ Forall (fun f => mode f <> mode_normal) frames.

(** The groups of the pattern of a double-slash comment: all the [/] the
    comment starts with; all the white space after them; the text, without
    white space at either end; the white space that ends the comment. *)
Definition line_groups (t g1 g2 g3 g4 : str) : Prop :=
  t = g1 ++ g2 ++ g3 ++ g4
  /\ g1 <> [] /\ forallb (Cls.just (Cls.chr "/")) g1 = true
  /\ forallb Cls.space g2 = true
  /\ forallb Cls.dot g3 = true
  /\ forallb Cls.space g4 = true
  /\ (forall c t', g2 ++ g3 ++ g4 = c :: t' -> c <> Cls.chr "/")
  /\ (forall c t', g3 ++ g4 = c :: t' -> Cls.space c = false)
  /\ (forall a c, g3 = a ++ [c] -> Cls.space c = false).

(** The end of the pattern of a CSS comment: group 5 and [$]. *)
Definition re_endToken : regex :=
  Seq (Group 5 (Seq (Plus (Cls.just (Cls.chr "*"))) (lit "/"))) Eol.

(** One or more stars and [/]. *)
Definition end_token (g : str) : Prop :=
  exists stars,
    g = stars ++ [Cls.chr "/"] /\ stars <> []
    /\ forallb (Cls.just (Cls.chr "*")) stars = true.

(** [/], one or more stars and at most one of [!] and [#]. *)
Definition start_token (g : str) : Prop :=
  exists stars flag,
    g = Cls.chr "/" :: stars ++ flag /\ stars <> []
    /\ forallb (Cls.just (Cls.chr "*")) stars = true
    /\ (flag = [] \/ exists c, flag = [c] /\ Cls.bang_or_hash c = true).

(** The groups of the pattern of a CSS comment: the start token; all the
    white space after it; the text, without white space at either end; white
    space; the end token. *)
Definition css_groups (t g1 g2 g3 g4 g5 : str) : Prop :=
  t = g1 ++ g2 ++ g3 ++ g4 ++ g5
  /\ start_token g1
  /\ forallb Cls.space g2 = true
  /\ forallb Cls.space g4 = true
  /\ end_token g5
  /\ (forall c t', g3 ++ g4 ++ g5 = c :: t' -> Cls.space c = false)
  /\ (forall a c, g3 = a ++ [c] -> Cls.space c = false).

(** The pattern that splits a comment of each type. *)
Definition pattern_of (ty : CommentType) : regex :=
  match ty with
  | css => re_cssComment
  | double_slash => re_doubleSlashComment
  end.

(** The fields of a record are the groups of the match of its pattern on
    its [raws.text]. *)
Definition record_raws (r : Comment) : Prop :=
  exists ty rw m,
    type r = Some ty /\ raws r = Some rw
    /\ exec (pattern_of ty) (Raws.text rw) = Some m
    /\ Raws.startToken rw = capture m 1
    /\ Raws.left rw = capture m 2
    /\ text r = capture m 3
    /\ Raws.right rw = capture m 4
    /\ Raws.endToken rw
       = match ty with
         | css => capture m 5
         | double_slash => None
         end.

(** The rule double-slash-comment-whitespace-inside
    ([src/rules/double-slash-comment-whitespace-inside/index.js]).  The
    option of the rule is a string, or [None] for any other value; a call of
    [utils.report] is the report it makes; [utils.validateOptions] is not
    code of the rule: it is a parameter. *)
Module Rule.

(** [messages.expected] and [messages.rejected]. *)
Inductive message : Type := expected | rejected.

(** The arguments of [utils.report] that vary. *)
Record report : Type := { report_message : message; index : option Z }.

(** The callback of [comments.forEach] (lines 26 to 47): [None] when it
    returns before [utils.report]. *)
Definition callback (expectation : option str) (comment : Comment)
  : completion (option report) :=
  match type comment with
  | Some double_slash =>
      match raws comment with
      | None => Throw TypeError
      | Some rw =>
          if negb (opt_str_eqb (Raws.left rw) [])
             && opt_str_eqb expectation (js "never")
          then Normal (Some {| report_message := rejected;
                               index := start comment |})
          else if opt_str_eqb (Raws.left rw) []
                  && opt_str_eqb expectation (js "always")
          then Normal (Some {| report_message := expected;
                               index := start comment |})
          else Normal None
      end
  | _ => Normal None
  end.

(** [comments.forEach(...)]: [reports] are the reports made so far. *)
Fixpoint forEach (expectation : option str) (comments : list Comment)
  (reports : list report) : completion (list report) :=
  match comments with
  | [] => Normal reports
  | comment :: rest =>
      match callback expectation comment with
      | Throw e => Throw e
      | Normal None => forEach expectation rest reports
      | Normal (Some r) => forEach expectation rest (reports ++ [r])
      end
  end.

(** The function the rule returns (lines 15 to 48), on the text
    [root.source.input.css]; [None] only if the scanner does not come to an
    end. *)
Definition rule (validateOptions : option str -> bool)
  (expectation : option str) (css : str)
  : option (completion (list report)) :=
  if negb (validateOptions expectation) then Some (Normal [])
  else
    match findCommentsInRaws css with
    | None => None
    | Some (Throw e) => Some (Throw e)
    | Some (Normal comments) => Some (forEach expectation comments [])
    end.

End Rule.

(** What is left of a text after the [/] it starts with. *)
Fixpoint after_slashes (t : str) : str :=
  match t with
  | c :: t' => if Cls.just (Cls.chr "/") c then after_slashes t' else t
  | [] => []
  end.

(** The text starts with white space. *)
Definition space_first (t : str) : bool :=
  match t with
  | c :: _ => Cls.space c
  | [] => false
  end.

Definition is_double_slash (c : Comment) : bool :=
  match type c with
  | Some double_slash => true
  | _ => false
  end.

(** White space follows the [/] the comment starts with. *)
Definition spaced (c : Comment) : bool :=
  match raws c with
  | Some rw => space_first (after_slashes (Raws.text rw))
  | None => false
  end.

Definition report_of (m : Rule.message) (c : Comment) : Rule.report :=
  {| Rule.report_message := m; Rule.index := start c |}.

Definition text_two_line_comments : str :=
  js "a {}" ++ [newline] ++ js "//b" ++ [newline] ++ js "// c" ++ [newline].

(** White space, then code, then white space and a line feed. *)
Definition code_then_line_feed (t : str) : Prop :=
  exists ws1 code ws2 rest,
    t = ws1 ++ code ++ ws2 ++ newline :: rest
    /\ forallb Cls.space ws1 = true
    /\ code <> [] /\ forallb Cls.non_space code = true
    /\ forallb Cls.space ws2 = true.

Definition text_line_comment : str :=
  js "a{} // x" ++ [newline] ++ js "b".

(** Group 1 of the pattern of [functionName] on a text that ends with the
    code unit [d], not an identifier character, followed by the identifier
    characters [id]: the alternatives are tried in the order of the pattern,
    so that a white space followed by [-] takes the [-] out of the name. *)
Definition function_name (d : N) (id : str) : option str :=
  if Cls.just 10 d || Cls.just 13 d then Some id
  else if Cls.space d then
    match id with
    | c :: id' => if Cls.just (Cls.chr "-") c then Some id' else Some id
    | [] => Some id
    end
  else if Cls.delimiter d then Some id
  else None.

(** The texts after which a parenthesis opens a url: [url] alone, or [url]
    after a delimiter, or [-url] after a white space other than a line feed
    and a carriage return. *)
Definition names_url (t : str) : Prop :=
  t = js "url"
  \/ (exists a d, t = a ++ d :: js "url" /\ Cls.delimiter d = true)
  \/ (exists a d,
        t = a ++ d :: js "-url" /\ Cls.space d = true
        /\ d <> 10%N /\ d <> 13%N).

Definition text_url : str := js "a{b:url(x)}".

(** The state after the turn that opens a double-slash comment at [i st]. *)
Definition double_slash_opened (s : str) (st : state) : state :=
  let st1 :=
    open_comment st double_slash (js "//") (inlineAfter_at s (i st)) in
  set_modes st1 (i st1 + 1) (modesEntered st1).

(** A url in parentheses, and parentheses in a url. *)
Definition text_calc_url : str := js "calc(url(//x))".
Definition text_calc_url_line : str := js "calc(url(//x))" ++ [newline].
Definition text_parens_in_url : str := js "url((//x))" ++ [newline].

(** ** The regular expressions on sample texts *)

Example cssComment_plain :
  exec re_cssComment (js "/* a */")
  = Some [(5%nat, js "*/"); (4%nat, js " "); (3%nat, js "a"); (2%nat, js " ");
          (1%nat, js "/*")].
Proof. reflexivity. Qed.

Example cssComment_decorated :
  exec re_cssComment (js "/**! a **/")
  = Some [(5%nat, js "**/"); (4%nat, js " "); (3%nat, js "a");
          (2%nat, js " "); (1%nat, js "/**!")].
Proof. reflexivity. Qed.

Example cssComment_empty :
  exec re_cssComment (js "/**/")
  = Some [(5%nat, js "*/"); (4%nat, []); (3%nat, []); (2%nat, []);
          (1%nat, js "/*")].
Proof. reflexivity. Qed.

Example doubleSlashComment_trailing_space :
  exec re_doubleSlashComment (js "/// a b  ")
  = Some [(4%nat, js "  "); (3%nat, js "a b"); (2%nat, js " ");
          (1%nat, js "///")].
Proof. reflexivity. Qed.

Example functionName_url :
  capture_of (exec re_functionName (js "a{b:calc(url")) 1 = Some (js "url").
Proof. reflexivity. Qed.

Example functionName_after_dash :
  capture_of (exec re_functionName (js "a -moz-calc")) 1
  = Some (js "moz-calc").
Proof. reflexivity. Qed.

Example functionName_no_match :
  exec re_functionName (js "a;b") = None.
Proof. reflexivity. Qed.

Example lineStart_found :
  search (js "a{}" ++ [newline] ++ js "  ") re_lineStart = 3.
Proof. reflexivity. Qed.

Example lineStart_not_found : search (js "a{} ") re_lineStart = -1.
Proof. reflexivity. Qed.

(** ** Strings: basic facts *)

Lemma charAt_Some_range (s : str) (j : Z) (c : N) :
  charAt s j = Some c -> 0 <= j < len s.
Proof.
  unfold charAt, len. destruct (j <? 0) eqn:Hj; [discriminate|].
  intros H. apply Z.ltb_ge in Hj.
  assert (Hn : (Z.to_nat j < length s)%nat).
  { apply nth_error_Some. congruence. }
  lia.
Qed.

Lemma charAt_app_r (pre s : str) (k : Z) :
  0 <= k -> charAt (pre ++ s) (len pre + k) = charAt s k.
Proof.
  intros Hk. unfold charAt, len.
  destruct (Z.of_nat (length pre) + k <? 0) eqn:H1;
    [apply Z.ltb_lt in H1; lia|].
  destruct (k <? 0) eqn:H2; [apply Z.ltb_lt in H2; lia|].
  replace (Z.to_nat (Z.of_nat (length pre) + k))
    with (length pre + Z.to_nat k)%nat by lia.
  rewrite nth_error_app2 by lia. f_equal. lia.
Qed.

Lemma charAt_app_l (s post : str) (k : Z) :
  k < len s -> charAt (s ++ post) k = charAt s k.
Proof.
  intros Hk. unfold charAt, len in *.
  destruct (k <? 0) eqn:H0; [reflexivity|].
  apply Z.ltb_ge in H0. apply nth_error_app1. lia.
Qed.

Lemma substring_app_mid (pre s post : str) :
  substring (pre ++ s ++ post) (len pre) (len pre + len s) = s.
Proof.
  unfold substring, clamp, len. rewrite !length_app.
  rewrite !Nat2Z.inj_add.
  set (a := Z.of_nat (length pre)). set (b := Z.of_nat (length s)).
  set (c := Z.of_nat (length post)).
  assert (0 <= a) by (unfold a; lia). assert (0 <= b) by (unfold b; lia).
  assert (0 <= c) by (unfold c; lia).
  replace (Z.max 0 (Z.min a (a + (b + c)))) with a by lia.
  replace (Z.max 0 (Z.min (a + b) (a + (b + c)))) with (a + b) by lia.
  replace (Z.min a (a + b)) with a by lia.
  replace (Z.max a (a + b) - a) with b by lia.
  unfold a, b. rewrite !Nat2Z.id.
  rewrite skipn_app, skipn_all, Nat.sub_diag. simpl.
  rewrite firstn_app, firstn_all, Nat.sub_diag. simpl.
  apply app_nil_r.
Qed.

Lemma is_char_true (o : option N) (c : N) :
  is_char o c = true <-> o = Some c.
Proof.
  destruct o as [c'|]; simpl.
  - rewrite N.eqb_eq. split; congruence.
  - split; discriminate.
Qed.

Lemma nextChar_spec (s : str) (j : Z) (c : N) :
  is_char (if j + 1 <? len s then charAt s (j + 1) else None) c = true
  <-> charAt s (j + 1) = Some c.
Proof.
  rewrite is_char_true. destruct (j + 1 <? len s) eqn:H; [tauto|].
  apply Z.ltb_ge in H. split; [discriminate|].
  intros Hc. apply charAt_Some_range in Hc. lia.
Qed.

(** ** The loop: progress, fuel and invariants *)

Ltac case_split H :=
  repeat match type of H with
         | context [match ?x with _ => _ end] => destruct x eqn:?
         end.

Ltac body_cases H :=
  unfold body, close_comment in H; case_split H;
  try discriminate; try (injection H as H); subst.

Section Loop.

Variable s : str.

Lemma body_i (st st' : state) :
  body s st = Normal st' -> i st <= i st' <= i st + 1.
Proof.
  intros H. body_cases H; simpl; lia.
Qed.

Lemma body_result (st st' : state) :
  body s st = Normal st' -> exists more, result st' = result st ++ more.
Proof.
  intros H. body_cases H; simpl;
    solve [ exists []; symmetry; apply app_nil_r | eexists; reflexivity ].
Qed.

Lemma turn_Normal (st st' : state) :
  turn s st = Normal st' ->
  exists st1, body s st = Normal st1
              /\ st' = set_modes st1 (i st1 + 1) (modesEntered st1).
Proof.
  unfold turn. destruct (body s st) as [st1|e]; [|discriminate].
  intros H. injection H as H. eauto.
Qed.

Lemma turn_i (st st' : state) :
  turn s st = Normal st' -> i st < i st' <= i st + 2.
Proof.
  intros H. apply turn_Normal in H as (st1 & Hb & ->).
  apply body_i in Hb. simpl. lia.
Qed.

Lemma turn_result (st st' : state) :
  turn s st = Normal st' -> exists more, result st' = result st ++ more.
Proof.
  intros H. apply turn_Normal in H as (st1 & Hb & ->).
  apply body_result in Hb. exact Hb.
Qed.

Lemma loop_eq (fuel : nat) (st : state) :
  loop s fuel st
  = if i st <? len s then
      match fuel with
      | O => None
      | S fuel' =>
          match turn s st with
          | Throw e => Some (Throw e)
          | Normal st' => loop s fuel' st'
          end
      end
    else Some (Normal (result st)).
Proof. destruct fuel; reflexivity. Qed.

Lemma loop_fuel (fuel1 : nat) :
  forall (fuel2 : nat) (st : state),
    (turns_left s st <= fuel1)%nat -> (turns_left s st <= fuel2)%nat ->
    loop s fuel1 st = loop s fuel2 st.
Proof.
  unfold turns_left.
  induction fuel1 as [|fuel1 IH]; intros fuel2 st H1 H2;
    rewrite (loop_eq _ st), (loop_eq fuel2 st);
    destruct (i st <? len s) eqn:Hi; try reflexivity;
    apply Z.ltb_lt in Hi; [lia|].
  destruct fuel2 as [|fuel2]; [lia|].
  destruct (turn s st) as [st'|e] eqn:Ht; [|reflexivity].
  apply turn_i in Ht. apply IH; lia.
Qed.

Lemma loop_total (fuel : nat) :
  forall st : state,
    (turns_left s st <= fuel)%nat -> loop s fuel st <> None.
Proof.
  unfold turns_left.
  induction fuel as [|fuel IH]; intros st H; rewrite loop_eq;
    destruct (i st <? len s) eqn:Hi; try discriminate;
    apply Z.ltb_lt in Hi; [lia|].
  destruct (turn s st) as [st'|e] eqn:Ht; [|discriminate].
  apply turn_i in Ht. apply IH. lia.
Qed.

(** The scanner always comes to an end: it returns or it throws. *)
Lemma findCommentsInRaws_terminates :
  exists c, findCommentsInRaws s = Some c.
Proof.
  destruct (findCommentsInRaws s) as [c|] eqn:H; [eauto|].
  exfalso. revert H. apply loop_total.
  unfold turns_left, initial, len. simpl. lia.
Qed.

(** From a state the loop goes through, the loop computes what the whole call
    computes. *)
Lemma reaches_loop (st : state) :
  reaches s st -> findCommentsInRaws s = loop s (turns_left s st) st.
Proof.
  induction 1 as [|st st' Hr IH Hi Ht].
  - unfold findCommentsInRaws.
    apply loop_fuel; unfold turns_left, len; simpl; lia.
  - rewrite IH, (loop_eq _ st).
    apply Z.ltb_lt in Hi as Hi'. rewrite Hi'.
    pose proof (turn_i _ _ Ht) as Hs.
    unfold turns_left in *.
    destruct (Z.to_nat (len s - i st)) as [|n] eqn:Hn; [lia|].
    rewrite Ht. apply loop_fuel; unfold turns_left; lia.
Qed.

(** A property of the states that every turn keeps holds of the state the
    loop stops in. *)
Lemma loop_invariant (P : state -> Prop) :
  (forall st st', P st -> i st < len s -> turn s st = Normal st' -> P st') ->
  forall (fuel : nat) (st : state) (res : list Comment),
    P st -> loop s fuel st = Some (Normal res) ->
    exists st', P st' /\ len s <= i st' /\ result st' = res.
Proof.
  intros Hstep. induction fuel as [|fuel IH]; intros st res HP;
    rewrite loop_eq; destruct (i st <? len s) eqn:Hi; try discriminate.
  - intros H. injection H as <-. apply Z.ltb_ge in Hi. eauto.
  - apply Z.ltb_lt in Hi.
    destruct (turn s st) as [st'|e] eqn:Ht; [|discriminate].
    apply IH. eapply Hstep; eauto.
  - intros H. injection H as <-. apply Z.ltb_ge in Hi. eauto.
Qed.

Lemma returned_reaches (res : list Comment) :
  findCommentsInRaws s = Some (Normal res) ->
  exists st, reaches s st /\ len s <= i st /\ result st = res.
Proof.
  apply loop_invariant; [|constructor].
  intros st st' Hr Hi Ht. econstructor; eauto.
Qed.

(** What the loop has pushed stays in the result. *)
Lemma reaches_result_kept (st : state) (res : list Comment) :
  reaches s st -> findCommentsInRaws s = Some (Normal res) ->
  exists more, res = result st ++ more.
Proof.
  intros Hr. rewrite (reaches_loop _ Hr).
  generalize (turns_left s st) as fuel. intros fuel. clear Hr.
  revert st. induction fuel as [|fuel IH]; intros st; rewrite loop_eq;
    destruct (i st <? len s) eqn:Hi; try discriminate.
  - intros H. injection H as <-. exists []. symmetry. apply app_nil_r.
  - destruct (turn s st) as [st'|e] eqn:Ht; [|discriminate].
    intros H. apply IH in H as [more ->].
    apply turn_result in Ht as [more' ->].
    exists (more' ++ more). symmetry. apply app_assoc.
  - intros H. injection H as <-. exists []. symmetry. apply app_nil_r.
Qed.

End Loop.

(** ** The body of the loop, case by case *)

Lemma str_eqb_eq (a b : str) : str_eqb a b = true <-> a = b.
Proof.
  revert b. induction a as [|x a IH]; intros [|y b]; simpl;
    try (split; [discriminate|congruence]); [tauto|].
  rewrite andb_true_iff, N.eqb_eq, IH. split.
  - intros [-> ->]. reflexivity.
  - intros H. injection H as -> ->. tauto.
Qed.

Ltac if_split :=
  repeat match goal with
         | |- context [if ?b then _ else _] => destruct b eqn:?
         end.

(** Outside of a comment, [/] followed by a star opens a CSS comment. *)
Lemma body_open_css (s : str) (st : state) :
  outside_comment st ->
  charAt s (i st) = Some (Cls.chr "/") ->
  charAt s (i st + 1) = Some (Cls.chr "*") ->
  body s st
  = Normal (open_comment st css (js "/*") (inlineAfter_at s (i st))).
Proof.
  intros (top & below & Hm & Hc) H0 H1.
  apply nextChar_spec in H1.
  unfold body. rewrite Hm, H0, H1.
  destruct (mode top); try contradiction; reflexivity.
Qed.

(** Inside a CSS comment nothing happens until its closing marker. *)
Lemma body_in_css_skip (s : str) (st : state) :
  in_comment st (js "/*") -> ~ closes_at s (i st) -> body s st = Normal st.
Proof.
  intros [below Hm] Hn. unfold body. rewrite Hm. cbn [mode character].
  destruct (is_char (charAt s (i st)) (Cls.chr "*")) eqn:Hstar.
  - apply is_char_true in Hstar. rewrite Hstar.
    destruct (is_char (if i st + 1 <? len s then charAt s (i st + 1) else None)
                (Cls.chr "/")) eqn:Hnext.
    + apply nextChar_spec in Hnext. exfalso. apply Hn. split; assumption.
    + reflexivity.
  - destruct (charAt s (i st)) as [c|]; simpl in *.
    + if_split; reflexivity.
    + if_split; reflexivity.
Qed.

(** Inside a CSS comment, a star followed by [/] closes it. *)
Lemma body_in_css_close (s : str) (st : state) (below : list frame) :
  modesEntered st
  = {| mode := mode_comment; character := Some (js "/*") |} :: below ->
  closes_at s (i st) ->
  body s st
  = close_comment s st below (i st + 1) re_cssComment
      (fun matches => capture matches 5) (inlineBefore_at s (i st)) 1.
Proof.
  intros Hm [H0 H1]. apply nextChar_spec in H1.
  unfold body. rewrite Hm, H0, H1. reflexivity.
Qed.

(** A comment entry leaves [modesEntered] only when its comment closes: on
    a star followed by [/] for a CSS comment, on a line feed or at the last
    index for a double-slash comment. *)
Lemma comment_entry_popped_only_on_close (s : str) (st st1 : state)
  (marker : option str) (below : list frame) :
  modesEntered st = {| mode := mode_comment; character := marker |} :: below ->
  body s st = Normal st1 ->
  modesEntered st1 = modesEntered st
  \/ (modesEntered st1 = below
      /\ ((marker = Some (js "/*") /\ closes_at s (i st))
          \/ (marker = Some (js "//")
              /\ (charAt s (i st) = Some newline \/ i st = len s - 1)))).
Proof.
  intros Hm Hb. unfold body in Hb. rewrite Hm in Hb.
  cbv zeta in Hb. cbn [mode character Mode_eqb orb andb] in Hb.
  unfold close_comment in Hb.
  case_split Hb; try discriminate; injection Hb as <-;
    try (left; reflexivity); right; (split; [reflexivity|]).
  all: repeat match goal with
              | H : _ && _ = true |- _ =>
                  apply andb_true_iff in H; destruct H
              | H : _ || _ = true |- _ =>
                  apply orb_true_iff in H; destruct H
              | H : opt_str_eqb ?m _ = true |- _ =>
                  destruct m; [apply str_eqb_eq in H | discriminate H]
              | H : is_char (if _ <? _ then _ else _) _ = true |- _ =>
                  apply nextChar_spec in H
              | H : is_char _ _ = true |- _ => apply is_char_true in H
              | H : (_ =? _) = true |- _ => apply Z.eqb_eq in H
              end.
  all: try discriminate.
  all: first [ left; repeat split; congruence
             | right; split; [congruence|]; (left; assumption)
             | right; split; [congruence|]; (right; assumption) ].
Qed.

Lemma set_modes_same (st : state) :
  set_modes st (i st) (modesEntered st) = st.
Proof. destruct st; reflexivity. Qed.

(** The loop walks through the inside of a CSS comment without a change, up
    to the first closing marker. *)
Lemma reaches_in_css (s : str) (st : state) (n : nat) :
  reaches s st ->
  in_comment st (js "/*") ->
  i st + Z.of_nat n <= len s ->
  (forall j, i st <= j < i st + Z.of_nat n -> ~ closes_at s j) ->
  reaches s (set_modes st (i st + Z.of_nat n) (modesEntered st)).
Proof.
  intros Hr Hc. induction n as [|n IH]; intros Hlen Hno.
  - replace (i st + Z.of_nat 0) with (i st) by lia.
    rewrite set_modes_same. exact Hr.
  - set (stn := set_modes st (i st + Z.of_nat n) (modesEntered st)).
    assert (Hrn : reaches s stn)
      by (apply IH; [lia | intros j Hj; apply Hno; lia]).
    apply (reaches_turn s stn); [exact Hrn | simpl; lia |].
    unfold turn. rewrite body_in_css_skip.
    + unfold stn, set_modes. simpl. do 2 f_equal. lia.
    + destruct Hc as [below Hm]. exists below. exact Hm.
    + apply Hno. simpl. lia.
Qed.

Lemma reaches_css_opened (s : str) (st : state) :
  reaches s st ->
  outside_comment st ->
  charAt s (i st) = Some (Cls.chr "/") ->
  charAt s (i st + 1) = Some (Cls.chr "*") ->
  reaches s (css_opened s st).
Proof.
  intros Hr Ho H0 H1.
  apply (reaches_turn s st); [exact Hr | |].
  - apply charAt_Some_range in H0. lia.
  - unfold turn. rewrite body_open_css by assumption. reflexivity.
Qed.

(** The loop test fails in [st]: the call returns the result of [st]. *)
Lemma reaches_end (s : str) (st : state) :
  reaches s st -> len s <= i st ->
  findCommentsInRaws s = Some (Normal (result st)).
Proof.
  intros Hr Hi. rewrite (reaches_loop _ _ Hr), loop_eq.
  apply Z.ltb_ge in Hi. rewrite Hi. reflexivity.
Qed.

Lemma state_after_reaches (s : str) (n : nat) :
  forall st, state_after s n = Some st -> reaches s st.
Proof.
  induction n as [|n IH]; simpl; intros st H.
  - injection H as <-. constructor.
  - destruct (state_after s n) as [st0|]; [|discriminate].
    destruct (i st0 <? len s) eqn:Hi; [|discriminate].
    destruct (turn s st0) as [st'|e] eqn:Ht; [|discriminate].
    injection H as <-. apply Z.ltb_lt in Hi.
    eapply reaches_turn; eauto.
Qed.

(** C8: a CSS comment that the scanner opens (it meets [/] and a star outside
    of a comment) and that has no closing marker before the end of the text is
    dropped: the call returns, without an error, exactly the records it had
    pushed before the comment; and the text [a{} /* never closed] yields no
    record. *)
Theorem unterminated_css_comment_is_dropped (s : str) (st : state) :
  reaches s st ->
  outside_comment st ->
  charAt s (i st) = Some (Cls.chr "/") ->
  charAt s (i st + 1) = Some (Cls.chr "*") ->
  (forall j, i st + 2 <= j -> ~ closes_at s j) ->
  findCommentsInRaws s = Some (Normal (result st))
  /\ findCommentsInRaws (js "a{} /* never closed") = Some (Normal []).
Proof.
  intros Hr Ho H0 H1 Hno. split; [|reflexivity].
  pose proof (reaches_css_opened s st Hr Ho H0 H1) as Hr1.
  pose proof (charAt_Some_range _ _ _ H1) as Hlen.
  assert (Hc : in_comment (css_opened s st) (js "/*"))
    by (eexists; reflexivity).
  pose proof (reaches_in_css s (css_opened s st)
                (Z.to_nat (len s - (i st + 2))) Hr1 Hc) as Hr2.
  simpl in Hr2.
  replace (i st + 1 + 1 + Z.of_nat (Z.to_nat (len s - (i st + 2))))
    with (len s) in Hr2 by lia.
  assert (Hno' : forall j, i st + 1 + 1 <= j < len s -> ~ closes_at s j)
    by (intros j Hj; apply Hno; lia).
  assert (Hr3 := Hr2 (Z.le_refl _) Hno').
  apply (reaches_end s) in Hr3; [exact Hr3 | simpl; lia].
Qed.

Lemma unterminated_css_comment_witness :
  let s := js "a{} /* never closed" in
  exists st,
    state_after s 4 = Some st
    /\ findCommentsInRaws s = Some (Normal (result st))
    /\ result st = [].
Proof.
  intros s.
  exists (set_modes initial 4 (modesEntered initial)).
  split; [reflexivity|]. split; [|reflexivity].
  apply (unterminated_css_comment_is_dropped s
           (set_modes initial 4 (modesEntered initial))).
  - apply (state_after_reaches s 4). reflexivity.
  - eexists _, _. split; [reflexivity|discriminate].
  - reflexivity.
  - reflexivity.
  - intros j Hj [Hc _]. simpl in Hj.
    pose proof (charAt_Some_range _ _ _ Hc) as Hrange.
    change (len s) with 19 in Hrange.
    assert (Hcases : j = 6 \/ j = 7 \/ j = 8 \/ j = 9 \/ j = 10 \/ j = 11
                     \/ j = 12 \/ j = 13 \/ j = 14 \/ j = 15 \/ j = 16
                     \/ j = 17 \/ j = 18) by lia.
    repeat destruct Hcases as [-> | Hcases]; try subst j; discriminate Hc.
Defined.

(** C9: when the scanner meets the CSS comment [/*  hello  */] outside of a
    comment, the next record it pushes has the start token [/*], two spaces on
    the left, the text [hello], two spaces on the right and the end token
    [*/]; its span is the whole comment.  Every result the call returns holds
    that record right after the records pushed before. *)
Theorem css_comment_decomposition (pre post : str) (st : state)
  (res : list Comment) :
  let s := pre ++ js "/*  hello  */" ++ post in
  reaches s st ->
  i st = len pre ->
  outside_comment st ->
  findCommentsInRaws s = Some (Normal res) ->
  exists more, res = result st ++ hello_record s (len pre) :: more.
Proof.
  intros s Hr Hi Ho Hres.
  assert (Hat : forall k, 0 <= k < 13 ->
                  charAt s (i st + k) = charAt (js "/*  hello  */") k).
  { intros k Hk. rewrite Hi. unfold s. rewrite charAt_app_r by lia.
    apply charAt_app_l. change (len (js "/*  hello  */")) with 13. lia. }
  assert (H0 : charAt s (i st) = Some (Cls.chr "/")).
  { replace (i st) with (i st + 0) by lia. rewrite Hat by lia. reflexivity. }
  assert (H1 : charAt s (i st + 1) = Some (Cls.chr "*")).
  { rewrite Hat by lia. reflexivity. }
  pose proof (reaches_css_opened s st Hr Ho H0 H1) as Hr1.
  assert (Hc : in_comment (css_opened s st) (js "/*"))
    by (eexists; reflexivity).
  pose proof (charAt_Some_range s (i st + 12)) as Hlen.
  rewrite Hat in Hlen by lia. specialize (Hlen _ eq_refl).
  pose proof (reaches_in_css s (css_opened s st) 9 Hr1 Hc) as Hr2.
  simpl in Hr2.
  assert (Hno : forall j, i st + 1 + 1 <= j < i st + 1 + 1 + 9 ->
                  ~ closes_at s j).
  { intros j Hj [Hstar _].
    replace j with (i st + (j - i st)) in Hstar by lia.
    rewrite Hat in Hstar by lia.
    assert (Hcases : j - i st = 2 \/ j - i st = 3 \/ j - i st = 4
                     \/ j - i st = 5 \/ j - i st = 6 \/ j - i st = 7
                     \/ j - i st = 8 \/ j - i st = 9 \/ j - i st = 10) by lia.
    repeat destruct Hcases as [Hcases | Hcases];
      rewrite Hcases in Hstar; vm_compute in Hstar; discriminate Hstar. }
  specialize (Hr2 ltac:(lia) Hno).
  set (st2 := set_modes (css_opened s st) (i st + 1 + 1 + 9)
                ({| mode := mode_comment; character := Some (js "/*") |}
                   :: modesEntered st)) in Hr2.
  assert (Hclose : closes_at s (i st2)).
  { split; simpl.
    - replace (i st + 1 + 1 + 9) with (i st + 11) by lia.
      rewrite Hat by lia. reflexivity.
    - replace (i st + 1 + 1 + 9 + 1) with (i st + 12) by lia.
      rewrite Hat by lia. reflexivity. }
  assert (Hraw : substring s (i st) (i st + 1 + 1 + 9 + 1 + 1)
                 = js "/*  hello  */").
  { rewrite Hi. unfold s.
    replace (len pre + 1 + 1 + 9 + 1 + 1)
      with (len pre + len (js "/*  hello  */"))
      by (change (len (js "/*  hello  */")) with 13; lia).
    apply substring_app_mid. }
  assert (Ht : turn s st2
               = Normal {| i := i st + 13;
                           modesEntered := modesEntered st;
                           comment := empty;
                           result := result st
                                       ++ [hello_record s (len pre)] |}).
  { unfold turn.
    rewrite (body_in_css_close s st2 (modesEntered st) eq_refl Hclose).
    unfold close_comment. simpl. rewrite Hraw.
    change (exec re_cssComment (js "/*  hello  */"))
      with (Some [(5%nat, js "*/"); (4%nat, js "  "); (3%nat, js "hello");
                  (2%nat, js "  "); (1%nat, js "/*")]).
    simpl. unfold hello_record. rewrite <- Hi.
    replace (i st + 1 + 1 + 9 + 1 + 1) with (i st + 13) by lia.
    replace (i st + 1 + 1 + 9 + 1) with (i st + 12) by lia.
    replace (i st + 1 + 1 + 9) with (i st + 11) by lia.
    reflexivity. }
  assert (Hr3 := reaches_turn s _ _ Hr2 ltac:(simpl; lia) Ht).
  destruct (reaches_result_kept s _ res Hr3 Hres) as [more Hmore].
  exists more. rewrite Hmore. simpl. rewrite <- app_assoc. reflexivity.
Qed.

Lemma css_comment_decomposition_witness :
  let pre := js "a{} " in
  let s := pre ++ js "/*  hello  */" ++ [] in
  findCommentsInRaws s = Some (Normal [hello_record s 4])
  /\ exists more, [hello_record s 4] = [] ++ hello_record s (len pre) :: more.
Proof.
  intros pre s. split; [reflexivity|].
  apply (css_comment_decomposition pre []
           (set_modes initial 4 (modesEntered initial))).
  - apply (state_after_reaches s 4). reflexivity.
  - reflexivity.
  - eexists _, _. split; [reflexivity|discriminate].
  - reflexivity.
Defined.

(** ** The span of the records *)

Lemma Mode_eqb_eq (a b : Mode) : Mode_eqb a b = true <-> a = b.
Proof. destruct a, b; simpl; split; congruence. Qed.

Lemma Mode_eqb_neq (a b : Mode) : Mode_eqb a b = false <-> a <> b.
Proof. destruct a, b; simpl; split; congruence. Qed.

Lemma Inv_initial (s : str) : Inv s initial.
Proof.
  split; simpl.
  - lia.
  - split; [constructor | discriminate].
  - constructor.
  - constructor.
Qed.

Lemma stack_ok_weaken (ms : list frame) (c : Comment) (i i' d d' : Z) :
  i - d <= i' - d' -> stack_ok ms c i d -> stack_ok ms c i' d'.
Proof.
  intros Hle. destruct ms as [|top below]; simpl; [tauto|].
  intros [Hb Ho]. split; [exact Hb|].
  intros Hm. destruct (Ho Hm) as (b & ty & H1 & H2 & H3 & H4).
  exists b, ty. repeat split; try assumption; try lia; apply H4.
Qed.

Lemma stack_ok_pop (top : frame) (below : list frame) (c c' : Comment)
  (i i' d d' : Z) :
  stack_ok (top :: below) c i d -> stack_ok below c' i' d'.
Proof.
  simpl. intros [Hb _]. destruct below as [|g below']; simpl; [exact I|].
  inversion Hb as [|? ? Hg Hb']; subst. split; [exact Hb'|].
  intros Hm. contradiction.
Qed.

Lemma stack_ok_push (f top : frame) (below : list frame) (c c' : Comment)
  (i i' d d' : Z) :
  not_comment top -> not_comment f ->
  stack_ok (top :: below) c i d -> stack_ok (f :: top :: below) c' i' d'.
Proof.
  simpl. intros Ht Hf [Hb _]. split; [constructor; assumption|].
  intros Hm. contradiction.
Qed.

Ltac bool_hyps :=
  repeat match goal with
         | H : _ || _ = false |- _ => apply orb_false_iff in H; destruct H
         | H : _ && _ = true |- _ => apply andb_true_iff in H; destruct H
         | H : Mode_eqb _ _ = true |- _ => apply Mode_eqb_eq in H
         | H : Mode_eqb _ _ = false |- _ => apply Mode_eqb_neq in H
         end.

Lemma body_effect (s : str) (st st1 : state) (top : frame)
  (below : list frame) :
  modesEntered st = top :: below ->
  i st < len s ->
  body s st = Normal st1 ->
  effect s st top below st1.
Proof.
  intros Hm Hlen Hb. unfold body in Hb. rewrite Hm in Hb. cbv zeta in Hb.
  case_split Hb; try discriminate; bool_hyps;
    try (injection Hb as <-).
  all: repeat match goal with
              | H : is_char (if _ <? _ then _ else _) _ = true |- _ =>
                  apply nextChar_spec, charAt_Some_range in H
              end.
  all: try solve [ first [ apply (effect_open s st top below css)
                         | apply (effect_open s st top below double_slash)
                         | constructor ];
                   solve [ assumption | lia
                         | unfold not_comment; simpl; congruence ] ].
  all: eapply effect_close; [eassumption | | | | exact Hb]; try lia.
  all: try reflexivity.
  intros Hmk.
  match goal with
  | H : opt_str_eqb (character top) _ = true |- _ =>
      rewrite Hmk in H; discriminate H
  end.
Qed.

Lemma Inv_turn (s : str) (st st' : state) :
  Inv s st -> i st < len s -> turn s st = Normal st' -> Inv s st'.
Proof.
  intros [Hi Hstack Hres Hline] Hlen Ht.
  apply turn_Normal in Ht as (st1 & Hb & ->).
  destruct (modesEntered st) as [|top below] eqn:Hm;
    [unfold body in Hb; rewrite Hm in Hb; discriminate|].
  apply (body_effect s st st1 top below Hm Hlen) in Hb.
  destruct Hb as [ | Ht | f Ht Hf | ty after Ht Hn
                 | e re endTok before skip st1 Ht He Hskip Hbefore Hc ].
  - split; simpl; [lia | | assumption | assumption].
    rewrite Hm. apply (stack_ok_weaken _ _ (i st) _ 2); [lia | assumption].
  - split; simpl; [lia | | assumption | assumption].
    apply (stack_ok_pop top _ (comment st) _ (i st) _ 2). assumption.
  - split; simpl; [lia | | assumption | assumption].
    apply (stack_ok_push _ _ _ (comment st) _ (i st) _ 2); assumption.
  - split; simpl; [lia | | assumption | assumption].
    rewrite Hm. destruct Hstack as [Hbelow _].
    split; [constructor; assumption|].
    intros _. exists (i st), ty.
    repeat split; [assumption | lia].
  - destruct Hstack as [Hbelow Hopen].
    destruct (Hopen Ht) as (b & ty & Hstart & Hb0 & Hb2 & Hty & Hmk).
    unfold close_comment in Hc. rewrite Hstart in Hc. simpl in Hc.
    destruct (exec re (substring s b (e + 1))) as [matches|]; [|discriminate].
    injection Hc as <-. split; simpl.
    + lia.
    + apply (stack_ok_pop top _ (comment st) _ (i st) _ 2).
      split; assumption.
    + apply Forall_app. split; [assumption|].
      constructor; [|constructor].
      eexists b, e, _. simpl.
      repeat split; try reflexivity; lia.
    + apply Forall_app. split; [assumption|].
      constructor; [|constructor].
      unfold line_record_ok. simpl. rewrite Hty. intros Hd.
      injection Hd as ->. rewrite (Hbefore Hmk). reflexivity.
Qed.

Lemma reaches_Inv (s : str) (st : state) : reaches s st -> Inv s st.
Proof.
  induction 1 as [|st st' Hr IH Hi Ht].
  - apply Inv_initial.
  - exact (Inv_turn s st st' IH Hi Ht).
Qed.

(** C10: every record of a result that the scanner returns has its start and
    its end, in the text and in this order, and its [raws.text] is
    [rawString.substring(start, end + 1)]: the whole span of the comment, from
    the first code unit of its opening marker to its last code unit. *)
Theorem raws_text_is_the_span (s : str) (res : list Comment) (r : Comment) :
  findCommentsInRaws s = Some (Normal res) ->
  In r res ->
  exists b e rw,
    start r = Some b /\ end_ r = Some e /\ raws r = Some rw
    /\ Raws.text rw = substring s b (e + 1)
    /\ 0 <= b < e /\ e < len s.
Proof.
  intros Hres Hin.
  apply returned_reaches in Hres as (st & Hr & _ & <-).
  apply reaches_Inv in Hr. destruct Hr as [_ _ Hall _].
  rewrite Forall_forall in Hall. exact (Hall r Hin).
Qed.

Lemma raws_text_is_the_span_witness :
  let s := js "a{color:red} //note" in
  let r := {| type := Some double_slash; start := Some 13;
              inlineAfter := Some true; end_ := Some 18;
              raws := Some {| Raws.startToken := Some (js "//");
                              Raws.left := Some [];
                              Raws.text := js "//note";
                              Raws.right := Some [];
                              Raws.endToken := None |};
              text := Some (js "note"); inlineBefore := Some false |} in
  findCommentsInRaws s = Some (Normal [r])
  /\ exists b e rw,
       start r = Some b /\ end_ r = Some e /\ raws r = Some rw
       /\ Raws.text rw = substring s b (e + 1)
       /\ 0 <= b < e /\ e < len s.
Proof.
  intros s r. split; [reflexivity|].
  apply (raws_text_is_the_span s [r] r); [reflexivity | left; reflexivity].
Defined.

(** Every double-slash record of a result has [inlineBefore] set to
    [false]. *)
Lemma double_slash_record_inlineBefore (s : str) (res : list Comment)
  (r : Comment) :
  findCommentsInRaws s = Some (Normal res) ->
  In r res ->
  type r = Some double_slash ->
  inlineBefore r = Some false.
Proof.
  intros Hres Hin.
  apply returned_reaches in Hres as (st & Hr & _ & <-).
  apply reaches_Inv in Hr. destruct Hr as [_ _ _ Hall].
  rewrite Forall_forall in Hall. exact (Hall r Hin).
Qed.

(** ** What [inlineAfter] tests *)

Lemma star_space_eol (ws : str) (pos : nat) (cs : captures) :
  star Cls.space (run Eol accept) pos ws cs
  = if forallb Cls.space ws then Some cs else None.
Proof.
  revert pos. induction ws as [|c ws IH]; intros pos; simpl; [reflexivity|].
  destruct (Cls.space c); simpl; [|reflexivity].
  rewrite IH. destruct (forallb Cls.space ws); reflexivity.
Qed.

Lemma run_lineStart (t : str) (pos : nat) :
  run re_lineStart accept pos t []
  = match t with
    | c :: ws =>
        if (N.eqb 10 c && forallb Cls.space ws)%bool then Some [] else None
    | [] => None
    end.
Proof.
  destruct t as [|c ws]; [reflexivity|].
  unfold re_lineStart. cbn [run one]. unfold Cls.just.
  destruct (N.eqb 10 c); [|reflexivity].
  apply star_space_eol.
Qed.

Lemma match_from_lineStart (t : str) :
  forall pos, match_from re_lineStart pos t <> None <-> ends_at_line_start t.
Proof.
  induction t as [|c t IH]; intros pos.
  - simpl. split; [congruence|].
    intros ([|x a] & ws & H & _); discriminate H.
  - cbn [match_from]. rewrite run_lineStart.
    destruct (N.eqb 10 c && forallb Cls.space t)%bool eqn:Hc.
    + split; [|discriminate]. intros _.
      apply andb_true_iff in Hc as [Hnl Hws]. apply N.eqb_eq in Hnl.
      exists [], t. split; [simpl; unfold newline; congruence | exact Hws].
    + rewrite IH. split.
      * intros (a & ws & -> & Hws). exists (c :: a), ws. split; [reflexivity|].
        exact Hws.
      * intros ([|x a] & ws & H & Hws); injection H as -> ->.
        -- unfold newline in Hc. rewrite N.eqb_refl, Hws in Hc. discriminate Hc.
        -- exists a, ws. split; [reflexivity | exact Hws].
Qed.

(** [inlineAfter] is false exactly when the text before the comment ends
    with a line feed and a run of white space; it is true of a comment on
    the first line of the text. *)
Lemma inlineAfter_at_false (s : str) (j : Z) :
  inlineAfter_at s j = false <-> ends_at_line_start (substring s 0 j).
Proof.
  unfold inlineAfter_at, search.
  rewrite <- (match_from_lineStart (substring s 0 j) 0).
  destruct (match_from re_lineStart 0 (substring s 0 j)) as [[pos cs]|].
  - split; [discriminate|]. intros _. apply Z.eqb_neq. lia.
  - split; [discriminate | congruence].
Qed.

(** ** Where comments open *)

Lemma avoids_turn (s : str) (n : Z) (st st' : state) :
  avoids n st -> i st <> n -> i st < len s -> turn s st = Normal st' ->
  avoids n st'.
Proof.
  intros [Hres Hc] Hn Hlen Ht.
  apply turn_Normal in Ht as (st1 & Hb & ->).
  destruct (modesEntered st) as [|top below] eqn:Hm;
    [unfold body in Hb; rewrite Hm in Hb; discriminate|].
  apply (body_effect s st st1 top below Hm Hlen) in Hb.
  destruct Hb as [ | Ht | f Ht Hf | ty after Ht Hnext
                 | e re endTok before skip st1 Ht He Hskip Hbefore Hclose ];
    try (split; assumption).
  - split; simpl; [assumption | congruence].
  - unfold close_comment in Hclose.
    destruct (exec re _) as [matches|]; [|discriminate].
    injection Hclose as <-. split; simpl; [|discriminate].
    intros r Hin. apply in_app_or in Hin as [Hin | [<- | []]].
    + apply Hres. exact Hin.
    + exact Hc.
Qed.

(** Every start the scanner has recorded is an index it has gone past. *)
Lemma reaches_avoids (s : str) (st : state) :
  reaches s st -> forall n, i st <= n -> avoids n st.
Proof.
  induction 1 as [|st st' Hr IH Hi Ht]; intros n Hn.
  - split; simpl; [intros r [] | discriminate].
  - pose proof (turn_i _ _ _ Ht) as Hs.
    apply (avoids_turn s n st st'); [apply IH; lia | lia | assumption..].
Qed.

(** Outside of a comment and of a url, two [/] open a double-slash
    comment. *)
Lemma body_open_double_slash (s : str) (st : state) (top : frame)
  (below : list frame) :
  modesEntered st = top :: below ->
  mode top <> mode_comment -> mode top <> mode_url ->
  charAt s (i st) = Some (Cls.chr "/") ->
  charAt s (i st + 1) = Some (Cls.chr "/") ->
  body s st
  = Normal (open_comment st double_slash (js "//") (inlineAfter_at s (i st))).
Proof.
  intros Hm Hc Hu H0 H1. apply nextChar_spec in H1 as H1'.
  unfold body. rewrite Hm, H0. cbv zeta.
  destruct (is_char (if i st + 1 <? len s then charAt s (i st + 1) else None)
              (Cls.chr "*")) eqn:Hstar.
  - apply nextChar_spec in Hstar. rewrite H1 in Hstar. discriminate.
  - rewrite H1'. destruct (mode top); try contradiction; reflexivity.
Qed.

(** In a url, two [/] change nothing. *)
Lemma body_url_double_slash (s : str) (st : state) (top : frame)
  (below : list frame) :
  modesEntered st = top :: below ->
  mode top = mode_url ->
  charAt s (i st) = Some (Cls.chr "/") ->
  charAt s (i st + 1) = Some (Cls.chr "/") ->
  body s st = Normal st.
Proof.
  intros Hm Hu H0 H1. apply nextChar_spec in H1 as H1'.
  unfold body. rewrite Hm, H0, Hu. cbv zeta.
  destruct (is_char (if i st + 1 <? len s then charAt s (i st + 1) else None)
              (Cls.chr "*")) eqn:Hstar.
  - apply nextChar_spec in Hstar. rewrite H1 in Hstar. discriminate.
  - rewrite H1'. reflexivity.
Qed.

(** ** The scanner on particular texts *)

Ltac by_computation :=
  repeat match goal with |- _ /\ _ => split end; vm_compute; reflexivity.

Ltac exists_returned t :=
  match eval vm_compute in (findCommentsInRaws t) with
  | Some (Normal [?r]) => exists r
  end.

(** C1: the scanner is not total.  On [a{b:c}))] the first unmatched [)]
    removes the last entry of [modesEntered] and the next turn reads [.mode]
    of [undefined]; on [@if $a==(1){}] the pattern of [functionName] does not
    match and [exec] returns [null]; on a double-slash comment with a carriage
    return inside, the pattern of the comment does not match.  Each call
    ends with a TypeError. *)
Theorem findCommentsInRaws_throws :
  findCommentsInRaws text_unmatched_parens = Some (Throw TypeError)
  /\ findCommentsInRaws text_condition = Some (Throw TypeError)
  /\ findCommentsInRaws text_carriage_return = Some (Throw TypeError).
Proof. by_computation. Qed.

(** C2: a comment marker inside of a string opens a comment.  On
    [a { content: "// not a comment"; }] the scanner returns one double-slash
    record, which starts at the [//] inside of the string and runs to the end
    of the text. *)
Theorem comment_opens_inside_string :
  exists r,
    findCommentsInRaws text_string = Some (Normal [r])
    /\ type r = Some double_slash
    /\ start r = Some 14 /\ end_ r = Some 33
    /\ charAt text_string 13 = Some quot
    /\ text r = Some (js "not a comment" ++ [quot] ++ js "; }").
Proof. exists_returned text_string. by_computation. Qed.

(** C3: [modesEntered] can become empty.  On [a{b:c}))] the seventh turn,
    at the first unmatched [)], removes the bottom entry: the loop goes on
    with an empty array, and the turn after it throws. *)
Theorem unmatched_paren_empties_modesEntered :
  state_after text_unmatched_parens 6 = Some (set_modes initial 6 [bottom])
  /\ state_after text_unmatched_parens 7 = Some (set_modes initial 7 [])
  /\ reaches text_unmatched_parens (set_modes initial 7 [])
  /\ turn text_unmatched_parens (set_modes initial 7 []) = Throw TypeError.
Proof.
  split; [by_computation|]. split; [by_computation|].
  split; [|by_computation].
  apply (state_after_reaches _ 7). vm_compute. reflexivity.
Qed.

(** C4: a double-slash comment that is open at the end of the text is
    closed only when the last code unit is none of the quotes, the
    parentheses, [/] and the star.  [a{color:red} //note] yields one
    double-slash record with the text [note] that ends at the last index;
    [a{color:red} // see foo()] yields no record, and neither does a text
    that ends with the marker [//] itself. *)
Theorem line_comment_at_end_of_text :
  (exists r,
      findCommentsInRaws text_note = Some (Normal [r])
      /\ type r = Some double_slash /\ text r = Some (js "note")
      /\ end_ r = Some (len text_note - 1))
  /\ findCommentsInRaws text_note_call = Some (Normal [])
  /\ findCommentsInRaws text_bare_marker = Some (Normal []).
Proof.
  split; [exists_returned text_note|]; by_computation.
Qed.

(** C5: [inlineAfter] is true of a comment on the first line of the text,
    whatever comes before it: of the comment of [a {} /* c */], and of the
    comment that starts the text [/* c */] as well. *)
Theorem inlineAfter_on_first_line :
  (exists r,
      findCommentsInRaws (js "a {} /* c */") = Some (Normal [r])
      /\ start r = Some 5 /\ inlineAfter r = Some true)
  /\ (exists r,
        findCommentsInRaws text_comment_first = Some (Normal [r])
        /\ start r = Some 0 /\ inlineAfter r = Some true).
Proof.
  split; [exists_returned (js "a {} /* c */")
         |exists_returned text_comment_first]; by_computation.
Qed.

(** C6: [inlineBefore] of a CSS comment is true when the code comes on the
    next line, and false when the code on the same line runs to the end of the
    text. *)
Theorem inlineBefore_misses_the_line :
  (exists r,
      findCommentsInRaws text_code_on_next_line = Some (Normal [r])
      /\ type r = Some css /\ end_ r = Some 6
      /\ charAt text_code_on_next_line 7 = Some newline
      /\ inlineBefore r = Some true)
  /\ (exists r,
        findCommentsInRaws text_code_at_end = Some (Normal [r])
        /\ type r = Some css /\ end_ r = Some 6
        /\ inlineBefore r = Some false).
Proof.
  split; [exists_returned text_code_on_next_line
         |exists_returned text_code_at_end]; by_computation.
Qed.

(** ** The turns of the loop in detail *)

Lemma opt_str_eqb_eq (a : option str) (b : str) :
  opt_str_eqb a b = true <-> a = Some b.
Proof.
  destruct a as [a|]; simpl; [|split; discriminate].
  rewrite str_eqb_eq. split; congruence.
Qed.

Lemma opt_str_eqb_neq (a : option str) (b : str) :
  opt_str_eqb a b = false <-> a <> Some b.
Proof.
  rewrite <- opt_str_eqb_eq. destruct (opt_str_eqb a b); split; congruence.
Qed.

Lemma is_char_false (o : option N) (c : N) :
  is_char o c = false <-> o <> Some c.
Proof.
  rewrite <- is_char_true. destruct (is_char o c); split; congruence.
Qed.

Ltac norm_chars :=
  repeat match goal with
         | H : context [Cls.chr ?x] |- _ =>
             let v := eval vm_compute in (Cls.chr x) in
             change (Cls.chr x) with v in H
         | |- context [Cls.chr ?x] =>
             let v := eval vm_compute in (Cls.chr x) in
             change (Cls.chr x) with v
         | H : context [js ?x] |- _ =>
             let v := eval vm_compute in (js x) in
             change (js x) with v in H
         | |- context [js ?x] =>
             let v := eval vm_compute in (js x) in
             change (js x) with v
         end;
  unfold quot, apos, newline, backslash in *.

Ltac side_conditions :=
  unfold closes_at, not_comment, line_ends_at in *; simpl in *; norm_chars;
  intuition (try congruence; try lia).

Lemma body_action (s : str) (st st1 : state) (top : frame)
  (below : list frame) :
  modesEntered st = top :: below ->
  body s st = Normal st1 ->
  action s st top below st1.
Proof.
  intros Hm Hb. unfold body in Hb. rewrite Hm in Hb. cbv zeta in Hb.
  case_split Hb; try discriminate; bool_hyps; try (injection Hb as <-).
  all: repeat match goal with
              | H : is_char (if _ <? _ then _ else _) _ = true |- _ =>
                  apply nextChar_spec in H
              | H : is_char (if _ <? _ then _ else _) _ = false |- _ =>
                  rewrite <- not_true_iff_false, nextChar_spec in H
              | H : is_char _ _ = true |- _ => apply is_char_true in H
              | H : is_char _ _ = false |- _ => apply is_char_false in H
              | H : opt_str_eqb _ _ = true |- _ => apply opt_str_eqb_eq in H
              | H : opt_str_eqb _ _ = false |- _ =>
                  apply opt_str_eqb_neq in H
              | H : _ || _ = true |- _ =>
                  apply orb_true_iff in H; destruct H
              | H : _ && _ = false |- _ =>
                  apply andb_false_iff in H; destruct H
              | H : (_ =? _) = true |- _ => apply Z.eqb_eq in H
              | H : (_ =? _) = false |- _ => apply Z.eqb_neq in H
              end.
  all: bool_hyps; norm_chars.
  all: try solve [ first [ apply action_none
                         | apply action_pop
                         | apply action_push
                         | apply (action_open s st top below css)
                         | apply (action_open s st top below double_slash)
                         | eapply action_close_css; [| | |exact Hb]
                         | eapply action_close_line; [| | |exact Hb] ];
                   side_conditions ].
Qed.

(** ** The shape of the records *)

Lemma StronglySorted_snoc {A : Type} (R : A -> A -> Prop) (l : list A)
  (x : A) :
  StronglySorted R l -> Forall (fun y => R y x) l ->
  StronglySorted R (l ++ [x]).
Proof.
  induction 1 as [|y l Hl IH Hy]; intros Hall; simpl.
  - constructor; constructor.
  - inversion Hall as [|? ? Hyx Hall']; subst.
    constructor; [apply IH; exact Hall'|].
    apply Forall_app. split; [exact Hy | constructor; [exact Hyx|constructor]].
Qed.

Lemma StronglySorted_pair {A : Type} (R : A -> A -> Prop)
  (l1 l2 l3 : list A) (x y : A) :
  StronglySorted R (l1 ++ x :: l2 ++ y :: l3) -> R x y.
Proof.
  induction l1 as [|z l1 IH]; simpl; intros H;
    inversion H as [|? ? Hs Hall]; subst.
  - apply Forall_app in Hall as [_ Hall].
    inversion Hall; assumption.
  - apply IH. exact Hs.
Qed.

Lemma Shape_initial (s : str) : Shape s initial.
Proof.
  split; simpl.
  - intros top below H. injection H as <- _. discriminate.
  - constructor.
  - intros r e [].
  - constructor.
Qed.

Lemma marker_of_inj (ty ty' : CommentType) :
  marker_of ty = marker_of ty' -> ty = ty'.
Proof. destruct ty, ty'; simpl; intros H; try reflexivity; discriminate H. Qed.

Lemma stack_ok_below (top : frame) (below : list frame) (c : Comment)
  (j d : Z) (g : frame) (rest : list frame) :
  stack_ok (top :: below) c j d -> below = g :: rest ->
  mode g <> mode_comment.
Proof.
  intros [Hb _] ->. inversion Hb; assumption.
Qed.

Lemma Shape_turn (s : str) (st st' : state) :
  Inv s st -> Shape s st -> i st < len s -> turn s st = Normal st' ->
  Shape s st'.
Proof.
  intros [Hi Hstack _ _] [Hopen Hrec Hends Hsorted] Hlen Ht.
  apply turn_Normal in Ht as (st1 & Hb & ->).
  destruct (modesEntered st) as [|top below] eqn:Hm;
    [unfold body in Hb; rewrite Hm in Hb; discriminate|].
  apply (body_action s st st1 top below Hm) in Hb.
  specialize (Hopen top below eq_refl).
  destruct Hb as [ Hcss Hline | Ht Hwhy | f Ht Hf Hwhy | ty Ht H0 H1 Hurl
                 | st1 Ht Hmk Hcl Hclose | e st1 Ht Hmk Hend Hclose ].
  - split; simpl; [ | assumption | | assumption].
    + rewrite Hm. intros top' below' Heq Hmode. injection Heq as <- <-.
      destruct (Hopen Hmode) as (b & ty & Hmk & Hok).
      exists b, ty. split; [exact Hmk|].
      destruct Hok as (Hs & Hty & Hia & Hb0 & Hb2 & Hc0 & Hc1 & Hnc & Hnl & Hbe).
      unfold open_ok. simpl. repeat split; try assumption; try lia.
      * intros -> j Hj. destruct (Z.eq_dec j (i st)) as [-> | Hne].
        -- apply Hcss; assumption.
        -- apply Hnc; [reflexivity | lia].
      * intros -> j Hj. destruct (Z.eq_dec j (i st)) as [-> | Hne].
        -- apply Hline; assumption.
        -- apply Hnl; [reflexivity | lia].
    + intros r e Hin He. specialize (Hends r e Hin He). lia.
  - split; simpl; [ | assumption | | assumption].
    + intros g rest Heq Hmode. exfalso.
      exact (stack_ok_below _ _ _ _ _ _ _ Hstack Heq Hmode).
    + intros r e Hin He. specialize (Hends r e Hin He). lia.
  - split; simpl; [ | assumption | | assumption].
    + intros g rest Heq Hmode. injection Heq as <- _.
      destruct Hf as [Hf | [Hf | Hf]]; congruence.
    + intros r e Hin He. specialize (Hends r e Hin He). lia.
  - split; simpl; [ | assumption | | assumption].
    + intros g rest Heq _. injection Heq as <- _. simpl.
      exists (i st), ty. split; [reflexivity|].
      unfold open_ok. simpl. repeat split; try assumption; lia.
    + intros r e Hin He. specialize (Hends r e Hin He). lia.
  - destruct (Hopen Ht) as (b & ty & Hmk' & Hok).
    rewrite Hmk in Hmk'. injection Hmk' as Hmk'.
    apply (marker_of_inj css ty) in Hmk'. subst ty.
    destruct Hok as (Hs & Hty & Hia & Hb0 & Hb2 & Hc0 & Hc1 & Hnc & _ & Hbe).
    unfold close_comment in Hclose. rewrite Hs in Hclose. simpl in Hclose.
    destruct (exec re_cssComment _) as [matches|]; [|discriminate].
    injection Hclose as <-.
    pose proof (charAt_Some_range _ _ _ (proj2 Hcl)) as Hrange.
    split; simpl.
    + intros g rest Heq Hmode. exfalso.
      exact (stack_ok_below _ _ _ _ _ _ _ Hstack Heq Hmode).
    + apply Forall_app. split; [assumption|].
      constructor; [|constructor].
      exists b, (i st + 1). simpl.
      repeat split; try assumption; try lia.
      left. unfold css_record. simpl.
      replace (i st + 1 - 1) with (i st) by lia.
      repeat split; try assumption; try lia; try apply Hcl.
      apply Hnc. reflexivity.
    + intros r e Hin He. apply in_app_or in Hin as [Hin | [<- | []]].
      * specialize (Hends r e Hin He). lia.
      * simpl in He. injection He as <-. lia.
    + apply StronglySorted_snoc; [assumption|].
      apply Forall_forall. intros r Hin e b' He Hb'.
      simpl in Hb'. injection Hb' as <-.
      exact (Hbe r e Hin He).
  - destruct (Hopen Ht) as (b & ty & Hmk' & Hok).
    rewrite Hmk in Hmk'. injection Hmk' as Hmk'.
    apply (marker_of_inj double_slash ty) in Hmk'. subst ty.
    destruct Hok as (Hs & Hty & Hia & Hb0 & Hb2 & Hc0 & Hc1 & _ & Hnl & Hbe).
    unfold close_comment in Hclose. rewrite Hs in Hclose. simpl in Hclose.
    destruct (exec re_doubleSlashComment _) as [matches|]; [|discriminate].
    injection Hclose as <-.
    assert (He : i st - 1 <= e <= i st)
      by (destruct Hend as [[_ ->] | [_ [_ ->]]]; lia).
    split; simpl.
    + intros g rest Heq Hmode. exfalso.
      exact (stack_ok_below _ _ _ _ _ _ _ Hstack Heq Hmode).
    + apply Forall_app. split; [assumption|].
      constructor; [|constructor].
      exists b, e. simpl.
      repeat split; try assumption; try lia.
      right. unfold line_record. simpl.
      repeat split; try assumption; try lia.
      * intros j Hj. destruct (Z.eq_dec j (i st)) as [-> | Hne].
        -- destruct Hend as [[_ ->] | [Hn _]]; [lia | exact Hn].
        -- apply Hnl; [reflexivity | lia].
      * destruct Hend as [[Hn ->] | [_ [Hl ->]]].
        -- left. replace (i st - 1 + 1) with (i st) by lia. exact Hn.
        -- right. exact Hl.
    + intros r e' Hin He'. apply in_app_or in Hin as [Hin | [<- | []]].
      * specialize (Hends r e' Hin He'). lia.
      * simpl in He'. injection He' as <-. lia.
    + apply StronglySorted_snoc; [assumption|].
      apply Forall_forall. intros r Hin e' b' He' Hb'.
      simpl in Hb'. injection Hb' as <-.
      exact (Hbe r e' Hin He').
Qed.

Lemma reaches_Shape (s : str) (st : state) : reaches s st -> Shape s st.
Proof.
  induction 1 as [|st st' Hr IH Hi Ht].
  - apply Shape_initial.
  - exact (Shape_turn s st st' (reaches_Inv s st Hr) IH Hi Ht).
Qed.

Lemma returned_Shape (s : str) (res : list Comment) :
  findCommentsInRaws s = Some (Normal res) ->
  Forall (record_shape s) res /\ StronglySorted before res.
Proof.
  intros Hres. apply returned_reaches in Hres as (st & Hr & _ & <-).
  apply reaches_Shape in Hr. destruct Hr as [_ Hrec _ Hsorted].
  split; assumption.
Qed.

(** X1: the records of a result come in the order of the text and do not
    overlap: each one ends before the next one starts. *)
Theorem records_in_order (s : str) (res l1 l2 l3 : list Comment)
  (r1 r2 : Comment) :
  findCommentsInRaws s = Some (Normal res) ->
  res = l1 ++ r1 :: l2 ++ r2 :: l3 ->
  exists b1 e1 b2 e2,
    start r1 = Some b1 /\ end_ r1 = Some e1
    /\ start r2 = Some b2 /\ end_ r2 = Some e2
    /\ 0 <= b1 < e1 /\ e1 < b2 /\ b2 < e2 /\ e2 < len s.
Proof.
  intros Hres ->. apply returned_Shape in Hres as [Hrec Hsorted].
  apply StronglySorted_pair in Hsorted.
  apply Forall_app in Hrec as [_ Hrec].
  inversion Hrec as [|? ? H1 Hrec']; subst.
  apply Forall_app in Hrec' as [_ Hrec'].
  inversion Hrec' as [|? ? H2 _]; subst.
  destruct H1 as (b1 & e1 & Hs1 & He1 & Hb1 & _ & _ & _ & Hk1).
  destruct H2 as (b2 & e2 & Hs2 & He2 & _ & Hl2 & _ & _ & Hk2).
  exists b1, e1, b2, e2.
  specialize (Hsorted e1 b2 He1 Hs2).
  assert (Hlt1 : b1 < e1)
    by (destruct Hk1 as [(_ & _ & _ & Hk & _) | (_ & _ & Hk & _)]; lia).
  assert (Hlt2 : b2 < e2)
    by (destruct Hk2 as [(_ & _ & _ & Hk & _) | (_ & _ & Hk & _)]; lia).
  repeat split; try assumption; lia.
Qed.

Lemma records_in_order_witness :
  let s := text_two_comments in
  let r1 := nth 0 (returned s) empty in
  let r2 := nth 1 (returned s) empty in
  findCommentsInRaws s = Some (Normal ([] ++ r1 :: [] ++ r2 :: []))
  /\ exists b1 e1 b2 e2,
       start r1 = Some b1 /\ end_ r1 = Some e1
       /\ start r2 = Some b2 /\ end_ r2 = Some e2
       /\ 0 <= b1 < e1 /\ e1 < b2 /\ b2 < e2 /\ e2 < len s.
Proof.
  intros s r1 r2. split; [vm_compute; reflexivity|].
  apply (records_in_order s (returned s) [] [] [] r1 r2);
    vm_compute; reflexivity.
Defined.

(** X2: every record starts at an opening marker of its type: [/] and a
    star for a CSS record, two [/] for a double-slash record. *)
Theorem record_starts_at_its_marker (s : str) (res : list Comment)
  (r : Comment) :
  findCommentsInRaws s = Some (Normal res) ->
  In r res ->
  exists b ty,
    start r = Some b /\ type r = Some ty
    /\ charAt s b = Some (Cls.chr "/")
    /\ charAt s (b + 1) = Some (second_of ty).
Proof.
  intros Hres Hin. apply returned_Shape in Hres as [Hrec _].
  rewrite Forall_forall in Hrec.
  destruct (Hrec r Hin) as (b & e & Hs & _ & _ & _ & H0 & _ & Hk).
  destruct Hk as [(Hty & H1 & _) | (Hty & H1 & _)].
  - exists b, css. repeat split; assumption.
  - exists b, double_slash. repeat split; assumption.
Qed.

Lemma record_starts_at_its_marker_witness :
  let s := text_two_comments in
  let r := nth 1 (returned s) empty in
  findCommentsInRaws s = Some (Normal (returned s))
  /\ In r (returned s)
  /\ exists b ty,
       start r = Some b /\ type r = Some ty
       /\ charAt s b = Some (Cls.chr "/")
       /\ charAt s (b + 1) = Some (second_of ty).
Proof.
  intros s r.
  assert (H1 : findCommentsInRaws s = Some (Normal (returned s)))
    by (vm_compute; reflexivity).
  assert (H2 : In r (returned s)) by (vm_compute; right; left; reflexivity).
  split; [exact H1|]. split; [exact H2|].
  exact (record_starts_at_its_marker s (returned s) r H1 H2).
Defined.

(** X3: a CSS record ends with the first closing marker (a star followed by
    [/]) that starts two code units or more after the start of the record: no
    closing marker lies between its opening marker and its last two code
    units. *)
Theorem css_record_ends_at_first_close (s : str) (res : list Comment)
  (r : Comment) :
  findCommentsInRaws s = Some (Normal res) ->
  In r res ->
  type r = Some css ->
  exists b e,
    start r = Some b /\ end_ r = Some e
    /\ b + 3 <= e
    /\ closes_at s (e - 1)
    /\ forall j, b + 2 <= j < e - 1 -> ~ closes_at s j.
Proof.
  intros Hres Hin Hty. apply returned_Shape in Hres as [Hrec _].
  rewrite Forall_forall in Hrec.
  destruct (Hrec r Hin) as (b & e & Hs & He & _ & _ & _ & _ & Hk).
  destruct Hk as [(_ & _ & Hcl & Hbe & Hno & _) | (Hty' & _)];
    [|congruence].
  exists b, e. repeat split; try assumption; apply Hcl.
Qed.

Lemma css_record_ends_at_first_close_witness :
  let s := text_two_comments in
  let r := nth 0 (returned s) empty in
  findCommentsInRaws s = Some (Normal (returned s))
  /\ In r (returned s) /\ type r = Some css
  /\ exists b e,
       start r = Some b /\ end_ r = Some e
       /\ b + 3 <= e
       /\ closes_at s (e - 1)
       /\ forall j, b + 2 <= j < e - 1 -> ~ closes_at s j.
Proof.
  intros s r.
  assert (H1 : findCommentsInRaws s = Some (Normal (returned s)))
    by (vm_compute; reflexivity).
  assert (H2 : In r (returned s)) by (vm_compute; left; reflexivity).
  assert (H3 : type r = Some css) by (vm_compute; reflexivity).
  split; [exact H1|]. split; [exact H2|]. split; [exact H3|].
  exact (css_record_ends_at_first_close s (returned s) r H1 H2 H3).
Defined.

(** X4: a double-slash record holds no line feed, and it runs up to the
    next line feed or to the end of the text. *)
Theorem double_slash_record_is_one_line (s : str) (res : list Comment)
  (r : Comment) :
  findCommentsInRaws s = Some (Normal res) ->
  In r res ->
  type r = Some double_slash ->
  exists b e,
    start r = Some b /\ end_ r = Some e
    /\ b + 1 <= e
    /\ (forall j, b <= j <= e -> charAt s j <> Some newline)
    /\ (charAt s (e + 1) = Some newline \/ e = len s - 1).
Proof.
  intros Hres Hin Hty. apply returned_Shape in Hres as [Hrec _].
  rewrite Forall_forall in Hrec.
  destruct (Hrec r Hin) as (b & e & Hs & He & _ & _ & H0 & _ & Hk).
  destruct Hk as [(Hty' & _) | (_ & H1 & Hbe & Hno & Hend & _)];
    [congruence|].
  exists b, e. repeat split; try assumption.
  intros j Hj.
  destruct (Z.eq_dec j b) as [-> | Hb];
    [rewrite H0; discriminate|].
  destruct (Z.eq_dec j (b + 1)) as [-> | Hb1];
    [rewrite H1; discriminate|].
  apply Hno. lia.
Qed.

Lemma double_slash_record_is_one_line_witness :
  let s := text_two_comments in
  let r := nth 1 (returned s) empty in
  findCommentsInRaws s = Some (Normal (returned s))
  /\ In r (returned s) /\ type r = Some double_slash
  /\ exists b e,
       start r = Some b /\ end_ r = Some e
       /\ b + 1 <= e
       /\ (forall j, b <= j <= e -> charAt s j <> Some newline)
       /\ (charAt s (e + 1) = Some newline \/ e = len s - 1).
Proof.
  intros s r.
  assert (H1 : findCommentsInRaws s = Some (Normal (returned s)))
    by (vm_compute; reflexivity).
  assert (H2 : In r (returned s)) by (vm_compute; right; left; reflexivity).
  assert (H3 : type r = Some double_slash) by (vm_compute; reflexivity).
  split; [exact H1|]. split; [exact H2|]. split; [exact H3|].
  exact (double_slash_record_is_one_line s (returned s) r H1 H2 H3).
Defined.

(** X5: [inlineAfter] of a record is false exactly when the text before the
    record ends with a line feed followed by white space only; it is true
    otherwise, and so for every comment on the first line of the text. *)
Theorem inlineAfter_of_record (s : str) (res : list Comment) (r : Comment) :
  findCommentsInRaws s = Some (Normal res) ->
  In r res ->
  exists b v,
    start r = Some b /\ inlineAfter r = Some v
    /\ (v = false <-> ends_at_line_start (substring s 0 b)).
Proof.
  intros Hres Hin. apply returned_Shape in Hres as [Hrec _].
  rewrite Forall_forall in Hrec.
  destruct (Hrec r Hin) as (b & e & Hs & _ & _ & _ & _ & Hia & _).
  exists b, (inlineAfter_at s b). repeat split; try assumption;
    apply inlineAfter_at_false.
Qed.

Lemma inlineAfter_of_record_witness :
  let s := text_two_comments in
  let r := nth 1 (returned s) empty in
  findCommentsInRaws s = Some (Normal (returned s))
  /\ In r (returned s)
  /\ exists b v,
       start r = Some b /\ inlineAfter r = Some v
       /\ (v = false <-> ends_at_line_start (substring s 0 b)).
Proof.
  intros s r.
  assert (H1 : findCommentsInRaws s = Some (Normal (returned s)))
    by (vm_compute; reflexivity).
  assert (H2 : In r (returned s)) by (vm_compute; right; left; reflexivity).
  split; [exact H1|]. split; [exact H2|].
  exact (inlineAfter_of_record s (returned s) r H1 H2).
Defined.

(** ** The matcher against a declarative reading of the patterns *)

Lemma star_lazy_eq (p : N -> bool) (k : cont) (pos : nat) (s : str)
  (cs : captures) :
  star_lazy p k pos s cs
  = match k pos s cs with
    | Some r => Some r
    | None =>
        match s with
        | c :: s' => if p c then star_lazy p k (S pos) s' cs else None
        | [] => None
        end
    end.
Proof. destruct s; reflexivity. Qed.

Lemma star_eq (p : N -> bool) (k : cont) (pos : nat) (s : str)
  (cs : captures) :
  star p k pos s cs
  = match s with
    | c :: s' =>
        if p c then
          match star p k (S pos) s' cs with
          | Some r => Some r
          | None => k pos s cs
          end
        else k pos s cs
    | [] => k pos s cs
    end.
Proof. destruct s; reflexivity. Qed.

Section Matcher.

Variable p : N -> bool.
Variable k : cont.

Lemma star_complete (a b : str) :
  forall pos cs,
    forallb p a = true -> succeeds k (pos + length a)%nat b ->
    star p k pos (a ++ b) cs <> None.
Proof.
  induction a as [|c a IH]; intros pos cs Hp Hk.
  - simpl in *. rewrite Nat.add_0_r in Hk. rewrite star_eq.
    destruct b as [|c b']; [apply Hk|].
    destruct (p c); [|apply Hk].
    destruct (star p k (S pos) b' cs); [discriminate | apply Hk].
  - simpl in Hp. apply andb_true_iff in Hp as [Hc Ha].
    simpl. rewrite Hc.
    assert (H : star p k (S pos) (a ++ b) cs <> None).
    { apply IH; [exact Ha|]. simpl in Hk.
      rewrite Nat.add_succ_r in Hk. exact Hk. }
    destruct (star p k (S pos) (a ++ b) cs); [discriminate | contradiction].
Qed.

Lemma star_lazy_complete (a b : str) :
  forall pos cs,
    forallb p a = true -> succeeds k (pos + length a)%nat b ->
    star_lazy p k pos (a ++ b) cs <> None.
Proof.
  induction a as [|c a IH]; intros pos cs Hp Hk; rewrite star_lazy_eq.
  - simpl in *. rewrite Nat.add_0_r in Hk.
    specialize (Hk cs). destruct (k pos b cs); [discriminate | contradiction].
  - simpl in Hp. apply andb_true_iff in Hp as [Hc Ha].
    destruct (k pos ((c :: a) ++ b) cs); [discriminate|].
    simpl. rewrite Hc. apply IH; [exact Ha|].
    simpl in Hk. rewrite Nat.add_succ_r in Hk. exact Hk.
Qed.

Lemma star_sound (s : str) :
  forall pos cs res,
    star p k pos s cs = Some res ->
    exists a b,
      s = a ++ b /\ forallb p a = true
      /\ k (pos + length a)%nat b cs = Some res.
Proof.
  induction s as [|c s IH]; intros pos cs res H; simpl in H.
  - exists [], []. simpl. rewrite Nat.add_0_r. auto.
  - assert (Hstop : k pos (c :: s) cs = Some res ->
                    exists a b,
                      c :: s = a ++ b /\ forallb p a = true
                      /\ k (pos + length a)%nat b cs = Some res).
    { intros Hk. exists [], (c :: s). simpl. rewrite Nat.add_0_r. auto. }
    destruct (p c) eqn:Hc; [|auto].
    destruct (star p k (S pos) s cs) as [r|] eqn:Hs; [|auto].
    injection H as ->.
    destruct (IH _ _ _ Hs) as (a & b & -> & Ha & Hk).
    exists (c :: a), b. simpl. rewrite Hc, Ha, Nat.add_succ_r.
    repeat split. exact Hk.
Qed.

Lemma star_lazy_sound (s : str) :
  forall pos cs res,
    star_lazy p k pos s cs = Some res ->
    exists a b,
      s = a ++ b /\ forallb p a = true
      /\ k (pos + length a)%nat b cs = Some res.
Proof.
  induction s as [|c s IH]; intros pos cs res H; rewrite star_lazy_eq in H.
  - exists [], []. simpl. rewrite Nat.add_0_r.
    destruct (k pos [] cs); [auto | discriminate].
  - destruct (k pos (c :: s) cs) as [r|] eqn:Hk.
    + exists [], (c :: s). simpl. rewrite Nat.add_0_r, Hk. auto.
    + destruct (p c) eqn:Hc; [|discriminate].
      destruct (IH _ _ _ H) as (a & b & -> & Ha & Hk').
      exists (c :: a), b. simpl. rewrite Hc, Ha, Nat.add_succ_r.
      repeat split. exact Hk'.
Qed.

End Matcher.

(** What the matcher finds is a match: the continuation was run after a
    prefix of the text that [r] matches. *)
Lemma run_sound (r : regex) :
  groupless r ->
  forall k pos s cs res,
    run r k pos s cs = Some res ->
    exists a b,
      s = a ++ b /\ matches r pos a b
      /\ k (pos + length a)%nat b cs = Some res.
Proof.
  induction r as [ | |p|r1 IH1 r2 IH2|r1 IH1 r2 IH2|p|p|p|p|n r IH];
    intros Hg k pos s cs res H; simpl in H.
  - destruct (Nat.eqb pos 0) eqn:Hp; [|discriminate].
    apply Nat.eqb_eq in Hp. exists [], s. simpl.
    rewrite Nat.add_0_r. auto.
  - destruct s; [|discriminate]. exists [], []. simpl.
    rewrite Nat.add_0_r. auto.
  - unfold one in H. destruct s as [|c s]; [discriminate|].
    destruct (p c) eqn:Hc; [|discriminate].
    exists [c], s. simpl. rewrite Nat.add_1_r. eauto.
  - destruct Hg as [Hg1 Hg2].
    destruct (IH1 Hg1 _ _ _ _ _ H) as (a1 & b1 & -> & Hm1 & H1).
    destruct (IH2 Hg2 _ _ _ _ _ H1) as (a2 & b & -> & Hm2 & H2).
    exists (a1 ++ a2), b. rewrite <- app_assoc, length_app, Nat.add_assoc.
    repeat split; [|exact H2]. simpl. eauto.
  - destruct Hg as [Hg1 Hg2].
    destruct (run r1 k pos s cs) as [x|] eqn:H1.
    + injection H as ->.
      destruct (IH1 Hg1 _ _ _ _ _ H1) as (a & b & -> & Hm & Hk).
      exists a, b. simpl. auto.
    + destruct (IH2 Hg2 _ _ _ _ _ H) as (a & b & -> & Hm & Hk).
      exists a, b. simpl. auto.
  - apply star_sound in H. exact H.
  - apply star_lazy_sound in H. exact H.
  - unfold one in H. destruct s as [|c s]; [discriminate|].
    destruct (p c) eqn:Hc; [|discriminate].
    apply star_sound in H as (a & b & -> & Ha & Hk).
    exists (c :: a), b. simpl. rewrite Hc, Ha.
    rewrite Nat.add_succ_r in *. repeat split; [discriminate | exact Hk].
  - unfold one in H. destruct s as [|c s].
    + exists [], []. simpl. rewrite Nat.add_0_r. auto.
    + destruct (p c) eqn:Hc.
      * destruct (k (S pos) s cs) as [x|] eqn:Hk.
        -- injection H as ->. exists [c], s. simpl.
           rewrite Nat.add_1_r. eauto 6.
        -- exists [], (c :: s). simpl. rewrite Nat.add_0_r. auto.
      * exists [], (c :: s). simpl. rewrite Nat.add_0_r. auto.
  - contradiction.
Qed.

(** The same for a group: the continuation was run with the text of the
    group as its latest capture. *)
Lemma run_Group_sound (n : nat) (r : regex) :
  groupless r ->
  forall k pos s cs res,
    run (Group n r) k pos s cs = Some res ->
    exists a b,
      s = a ++ b /\ matches r pos a b
      /\ k (pos + length a)%nat b ((n, a) :: cs) = Some res.
Proof.
  intros Hg k pos s cs res H. simpl in H.
  apply (run_sound r Hg) in H as (a & b & -> & Hm & Hk).
  exists a, b. repeat split; [exact Hm|].
  replace (pos + length a - pos)%nat with (length a) in Hk by lia.
  rewrite firstn_app, firstn_all, Nat.sub_diag in Hk. simpl in Hk.
  rewrite app_nil_r in Hk. exact Hk.
Qed.

(** Where there is a match after which the continuation succeeds, the
    matcher finds a match. *)
Lemma run_complete (r : regex) :
  forall k pos a b,
    matches r pos a b -> succeeds k (pos + length a)%nat b ->
    succeeds (run r k) pos (a ++ b).
Proof.
  induction r as [ | |p|r1 IH1 r2 IH2|r1 IH1 r2 IH2|p|p|p|p|n r IH];
    intros k pos a b Hm Hk cs; simpl in Hm; simpl.
  - destruct Hm as [-> ->]. simpl in *. apply Hk.
  - destruct Hm as [-> ->]. simpl in *. rewrite Nat.add_0_r in Hk. apply Hk.
  - destruct Hm as (c & -> & Hc). simpl. rewrite Hc.
    rewrite Nat.add_1_r in Hk. apply Hk.
  - destruct Hm as (a1 & a2 & -> & H1 & H2). rewrite <- app_assoc.
    apply IH1; [exact H1|]. apply IH2; [exact H2|].
    rewrite length_app, Nat.add_assoc in Hk. exact Hk.
  - destruct (run r1 k pos (a ++ b) cs) eqn:H1; [discriminate|].
    destruct Hm as [Hm | Hm].
    + exfalso. exact (IH1 k pos a b Hm Hk cs H1).
    + apply IH2; assumption.
  - apply star_complete; assumption.
  - apply star_lazy_complete; assumption.
  - destruct Hm as [Hne Hp]. destruct a as [|c a]; [contradiction|].
    simpl in *. apply andb_true_iff in Hp as [Hc Ha]. rewrite Hc.
    apply star_complete; [exact Ha|].
    rewrite Nat.add_succ_r in Hk. exact Hk.
  - destruct Hm as [-> | (c & -> & Hc)]; simpl in *.
    + rewrite Nat.add_0_r in Hk.
      destruct (one p k pos b cs); [discriminate | apply Hk].
    + rewrite Hc. rewrite Nat.add_1_r in Hk.
      specialize (Hk cs). destruct (k (S pos) b cs); [discriminate|].
      contradiction.
  - apply IH; [exact Hm|]. intros cs'. apply Hk.
Qed.

Lemma succeeds_accept (pos : nat) (b : str) : succeeds accept pos b.
Proof. intros cs. discriminate. Qed.

Lemma match_from_eq (r : regex) (pos : nat) (s : str) :
  match_from r pos s
  = match run r accept pos s [] with
    | Some cs => Some (pos, cs)
    | None =>
        match s with
        | [] => None
        | _ :: s' => match_from r (S pos) s'
        end
    end.
Proof. destruct s; reflexivity. Qed.

(** [exec] and [search] find a match exactly when the pattern matches at
    some position of the text. *)
Lemma match_from_sound (r : regex) (s : str) :
  forall pos q cs,
    match_from r pos s = Some (q, cs) ->
    exists a b,
      s = a ++ b /\ q = (pos + length a)%nat
      /\ run r accept q b [] = Some cs.
Proof.
  induction s as [|c s IH]; intros pos q cs H; rewrite match_from_eq in H.
  - destruct (run r accept pos [] []) eqn:Hr; [|discriminate].
    injection H as <- <-. exists [], []. simpl. rewrite Nat.add_0_r. auto.
  - destruct (run r accept pos (c :: s) []) eqn:Hr.
    + injection H as <- <-. exists [], (c :: s). simpl.
      rewrite Nat.add_0_r. auto.
    + destruct (IH _ _ _ H) as (a & b & -> & -> & Hrun).
      exists (c :: a), b. simpl. rewrite Nat.add_succ_r. auto.
Qed.

Lemma match_from_complete (r : regex) (a b : str) :
  forall pos,
    run r accept (pos + length a) b [] <> None ->
    match_from r pos (a ++ b) <> None.
Proof.
  induction a as [|c a IH]; intros pos H; rewrite match_from_eq.
  - simpl in *. rewrite Nat.add_0_r in H.
    destruct (run r accept pos b []); [discriminate | contradiction].
  - destruct (run r accept pos ((c :: a) ++ b) []); [discriminate|].
    simpl. apply IH. simpl in H. rewrite Nat.add_succ_r in H. exact H.
Qed.

(** A pattern that starts with [^] matches at the start of the text or
    nowhere. *)
Lemma exec_anchored (r : regex) (s : str) (m : captures) :
  exec (Seq Bol r) s = Some m -> run r accept 0 s [] = Some m.
Proof.
  unfold exec. destruct (match_from (Seq Bol r) 0 s) as [[q cs]|] eqn:H;
    [|discriminate].
  simpl. intros Hm. injection Hm as ->.
  apply match_from_sound in H as (a & b & -> & -> & Hrun).
  simpl in Hrun. destruct (Nat.eqb (length a) 0) eqn:Hq; [|discriminate].
  apply Nat.eqb_eq in Hq. destruct a; [|discriminate]. exact Hrun.
Qed.

Lemma exec_anchored_complete (r : regex) (s : str) :
  matches r 0 s [] -> exec (Seq Bol r) s <> None.
Proof.
  intros Hm. unfold exec.
  assert (H : match_from (Seq Bol r) 0 ([] ++ s) <> None).
  { apply match_from_complete. simpl.
    rewrite <- (app_nil_r s).
    apply (run_complete r accept 0%nat s [] Hm (succeeds_accept _ _)). }
  simpl in H. destruct (match_from (Seq Bol r) 0 s); [discriminate|].
  contradiction.
Qed.

(** ** Substrings *)

Lemma firstn_add_skipn {A : Type} (n m : nat) (l : list A) :
  firstn (n + m) l = firstn n l ++ firstn m (skipn n l).
Proof.
  revert l. induction n as [|n IH]; intros l; [reflexivity|].
  destruct l as [|x l]; simpl.
  - rewrite firstn_nil. reflexivity.
  - rewrite IH. reflexivity.
Qed.

Lemma substring_in_range (s : str) (a b : Z) :
  0 <= a <= b -> b <= len s ->
  substring s a b = firstn (Z.to_nat (b - a)) (skipn (Z.to_nat a) s).
Proof.
  intros Ha Hb. unfold substring, clamp.
  replace (Z.max 0 (Z.min a (len s))) with a by lia.
  replace (Z.max 0 (Z.min b (len s))) with b by lia.
  replace (Z.min a b) with a by lia.
  replace (Z.max a b) with b by lia. reflexivity.
Qed.

Lemma substring_split (s : str) (a b c : Z) :
  0 <= a <= b -> b <= c -> c <= len s ->
  substring s a c = substring s a b ++ substring s b c.
Proof.
  intros Ha Hb Hc. rewrite !substring_in_range by lia.
  replace (Z.to_nat (c - a))
    with (Z.to_nat (b - a) + Z.to_nat (c - b))%nat by lia.
  rewrite firstn_add_skipn, skipn_skipn.
  do 3 f_equal. lia.
Qed.

Lemma substring_one (s : str) (j : Z) (c : N) :
  charAt s j = Some c -> substring s j (j + 1) = [c].
Proof.
  intros H. pose proof (charAt_Some_range _ _ _ H) as Hr.
  rewrite substring_in_range by lia.
  replace (Z.to_nat (j + 1 - j)) with 1%nat by lia.
  unfold charAt in H. destruct (j <? 0) eqn:Hj; [discriminate|].
  clear Hr Hj. revert H. generalize (Z.to_nat j) as n. intros n. revert s.
  induction n as [|n IH]; intros s H; destruct s as [|x s];
    try discriminate; simpl in *.
  - congruence.
  - apply (IH s). exact H.
Qed.

Lemma substring_In (s : str) (a b : Z) (c : N) :
  0 <= a -> In c (substring s a b) -> a <= b ->
  exists j, a <= j < b /\ charAt s j = Some c.
Proof.
  intros Ha Hin Hab.
  assert (Hlen : 0 <= len s) by (unfold len; lia).
  assert (Hsub : substring s a b
                 = firstn (Z.to_nat (Z.min b (len s) - a))
                     (skipn (Z.to_nat a) s)).
  { unfold substring, clamp.
    destruct (Z_le_gt_dec a (len s)) as [Hle | Hgt].
    - replace (Z.max 0 (Z.min a (len s))) with a by lia.
      replace (Z.max 0 (Z.min b (len s))) with (Z.min b (len s)) by lia.
      replace (Z.min a (Z.min b (len s))) with a by lia.
      replace (Z.max a (Z.min b (len s))) with (Z.min b (len s)) by lia.
      reflexivity.
    - replace (Z.max 0 (Z.min a (len s))) with (len s) by lia.
      replace (Z.max 0 (Z.min b (len s))) with (len s) by lia.
      rewrite Z.min_id, Z.max_id, Z.sub_diag.
      replace (Z.to_nat (Z.min b (len s) - a)) with 0%nat by lia.
      reflexivity. }
  rewrite Hsub in Hin. clear Hsub.
  apply In_nth_error in Hin as [n Hn].
  assert (Hlt : (n < Z.to_nat (Z.min b (len s) - a))%nat).
  { assert (Hl : (n < length (firstn (Z.to_nat (Z.min b (len s) - a))
                                (skipn (Z.to_nat a) s)))%nat)
      by (apply nth_error_Some; congruence).
    rewrite length_firstn in Hl. lia. }
  rewrite nth_error_firstn in Hn.
  destruct (Nat.ltb n (Z.to_nat (Z.min b (len s) - a))) eqn:Hltb;
    [|apply Nat.ltb_ge in Hltb; lia].
  rewrite nth_error_skipn in Hn.
  exists (a + Z.of_nat n). split; [lia|].
  unfold charAt. destruct (a + Z.of_nat n <? 0) eqn:H0;
    [apply Z.ltb_lt in H0; lia|].
  replace (Z.to_nat (a + Z.of_nat n)) with (Z.to_nat a + n)%nat by lia.
  exact Hn.
Qed.

(** ** When the patterns fail *)

Lemma run_Seq (r1 r2 : regex) (k : cont) (pos : nat) (s : str)
  (cs : captures) :
  run (Seq r1 r2) k pos s cs = run r1 (run r2 k) pos s cs.
Proof. reflexivity. Qed.

Lemma forallb_any (t : str) : forallb Cls.any t = true.
Proof. induction t; simpl; auto. Qed.

(** The pattern of a CSS comment matches every text between an opening and
    a closing marker. *)
Lemma cssComment_matches_span (mid : str) :
  exec re_cssComment (js "/*" ++ mid ++ js "*/") <> None.
Proof.
  apply exec_anchored_complete.
  exists (js "/*"), (mid ++ js "*/"). split; [reflexivity|]. split.
  { exists [Cls.chr "/"], [Cls.chr "*"]. split; [reflexivity|]. split.
    - exists (Cls.chr "/"). split; reflexivity.
    - exists [Cls.chr "*"], []. split; [reflexivity|]. split.
      + split; [discriminate | reflexivity].
      + left. reflexivity. }
  exists [], (mid ++ js "*/"). split; [reflexivity|].
  split; [reflexivity|].
  exists mid, (js "*/"). split; [reflexivity|].
  split; [apply forallb_any|].
  exists [], (js "*/"). split; [reflexivity|].
  split; [reflexivity|].
  exists (js "*/"), []. split; [reflexivity|]. split.
  - exists [Cls.chr "*"], [Cls.chr "/"]. split; [reflexivity|]. split.
    + split; [discriminate | reflexivity].
    + exists (Cls.chr "/"). split; reflexivity.
  - split; reflexivity.
Qed.

(** The pattern of a double-slash comment matches two [/] followed by any
    text without a line terminator. *)
Lemma doubleSlashComment_matches_line (rest : str) :
  forallb Cls.dot rest = true ->
  exec re_doubleSlashComment (js "//" ++ rest) <> None.
Proof.
  intros Hdot. apply exec_anchored_complete.
  exists (js "//"), rest. split; [reflexivity|]. split.
  { split; [discriminate | reflexivity]. }
  exists [], rest. split; [reflexivity|]. split; [reflexivity|].
  exists rest, []. split; [symmetry; apply app_nil_r|].
  split; [exact Hdot|].
  exists [], []. split; [reflexivity|]. split; [reflexivity|].
  split; reflexivity.
Qed.

Lemma space_delimiter (c : N) : Cls.space c = true -> Cls.delimiter c = true.
Proof.
  intros H. unfold Cls.delimiter. rewrite H.
  rewrite orb_true_r. reflexivity.
Qed.

(** The pattern of [functionName] matches exactly the texts that end with a
    run of identifier characters which starts the text or follows a
    delimiter. *)
Lemma functionName_matches (t : str) :
  exec re_functionName t <> None <-> name_start t.
Proof.
  split.
  - unfold exec. destruct (match_from re_functionName 0 t) as [[q cs]|] eqn:H;
      [|intros Hn; exfalso; apply Hn; reflexivity].
    intros _. apply match_from_sound in H as (a & b & -> & -> & Hrun).
    unfold re_functionName in Hrun. rewrite run_Seq in Hrun.
    match type of Hrun with
    | run ?alt ?k _ _ _ = _ =>
        apply (run_sound alt) in Hrun as (a1 & b1 & -> & Hm & Hk);
        [|simpl; tauto]
    end.
    rewrite run_Seq in Hk.
    apply (run_Group_sound 1 (Star Cls.ident) I) in Hk
      as (id & b2 & -> & Hid & Hk).
    simpl in Hid, Hk. destruct b2; [|discriminate]. rewrite app_nil_r.
    cbn [matches] in Hm. unfold lit, Cls.just in Hm.
    destruct Hm as [[Ha ->] | [(c & -> & Hc) | [(c & -> & Hc)
                   | [(x & y & -> & (c & -> & Hc) & (c' & -> & Hc'))
                     | (c & -> & Hc)]]]].
    + destruct a; [|discriminate]. left. exact Hid.
    + right. exists a, c, id. repeat split; [|exact Hid].
      apply N.eqb_eq in Hc. subst c. reflexivity.
    + right. exists a, c, id. repeat split; [|exact Hid].
      apply N.eqb_eq in Hc. subst c. reflexivity.
    + right. exists a, c, (c' :: id). repeat split.
      * apply space_delimiter. exact Hc.
      * apply N.eqb_eq in Hc'. subst c'. cbn [forallb].
        replace (Cls.ident (Cls.chr "-")) with true by reflexivity.
        exact Hid.
    + right. exists a, c, id. repeat split; assumption.
  - intros [Hid | (a & d & id & -> & Hd & Hid)]; unfold exec.
    + assert (H : match_from re_functionName 0 ([] ++ t) <> None).
      { apply match_from_complete.
        change (run re_functionName accept 0 t [] <> None).
        rewrite <- (app_nil_r t).
        apply (run_complete re_functionName accept 0%nat t []);
          [|apply succeeds_accept].
        exists [], t. split; [reflexivity|]. split.
        - left. split; reflexivity.
        - exists t, []. split; [symmetry; apply app_nil_r|].
          split; [exact Hid | split; reflexivity]. }
      simpl in H. destruct (match_from re_functionName 0 t);
        [discriminate | contradiction].
    + assert (H : match_from re_functionName 0 (a ++ d :: id) <> None).
      { apply match_from_complete. rewrite Nat.add_0_l.
        rewrite <- (app_nil_r (d :: id)).
        apply (run_complete re_functionName accept (length a) (d :: id) []);
          [|apply succeeds_accept].
        exists [d], id. split; [reflexivity|]. split.
        - right. right. right. right. exists d. split; [reflexivity|].
          exact Hd.
        - exists id, []. split; [symmetry; apply app_nil_r|].
          split; [exact Hid | split; reflexivity]. }
      destruct (match_from re_functionName 0 (a ++ d :: id));
        [discriminate | contradiction].
Qed.

(** ** When the scanner throws *)

Lemma body_Throw (s : str) (st : state) (e : exn) :
  body s st = Throw e -> throws_at s st.
Proof.
  intros Hb. unfold body in Hb.
  destruct (modesEntered st) as [|top below] eqn:Hm;
    [apply throws_no_entry; exact Hm|].
  cbv zeta in Hb. unfold close_comment in Hb.
  case_split Hb; try discriminate; bool_hyps.
  all: repeat match goal with
              | H : is_char (if _ <? _ then _ else _) _ = true |- _ =>
                  apply nextChar_spec in H
              | H : is_char _ _ = true |- _ => apply is_char_true in H
              | H : is_char _ _ = false |- _ => apply is_char_false in H
              | H : opt_str_eqb _ _ = true |- _ => apply opt_str_eqb_eq in H
              | H : _ || _ = true |- _ =>
                  apply orb_true_iff in H; destruct H
              | H : (_ =? _) = true |- _ => apply Z.eqb_eq in H
              end.
  all: first [ apply throws_functionName; assumption
             | eapply throws_css; try eassumption; split; assumption
             | eapply (throws_line s st top below); try eassumption;
               unfold line_ends_at;
               destruct (is_char (charAt s (i st)) newline) eqn:Hnl;
               [apply is_char_true in Hnl | apply is_char_false in Hnl];
               norm_chars; intuition (try congruence; try lia) ].
Qed.

(** A call that throws goes through a state in which the body throws. *)
Lemma thrown_reaches (s : str) (e : exn) :
  findCommentsInRaws s = Some (Throw e) ->
  exists st, reaches s st /\ i st < len s /\ throws_at s st.
Proof.
  unfold findCommentsInRaws.
  assert (H : forall fuel st,
             reaches s st -> loop s fuel st = Some (Throw e) ->
             exists st', reaches s st' /\ i st' < len s /\ throws_at s st').
  { induction fuel as [|fuel IH]; intros st Hr; rewrite loop_eq;
      destruct (i st <? len s) eqn:Hi; try discriminate.
    apply Z.ltb_lt in Hi.
    destruct (turn s st) as [st'|e'] eqn:Ht.
    - apply IH. eapply reaches_turn; eauto.
    - intros _. exists st. repeat split; [exact Hr | exact Hi|].
      unfold turn in Ht. destruct (body s st) as [st1|e1] eqn:Hb;
        [discriminate|].
      exact (body_Throw s st e1 Hb). }
  apply H. constructor.
Qed.

Lemma has_bottom_tail (top : frame) (below : list frame) :
  has_bottom (top :: below) -> mode top <> mode_normal -> has_bottom below.
Proof.
  intros ([|f frames] & Heq & Hall) Hmode; simpl in Heq.
  - injection Heq as -> _. exfalso. apply Hmode. reflexivity.
  - injection Heq as _ ->. inversion Hall; subst.
    exists frames. split; [reflexivity | assumption].
Qed.

Lemma has_bottom_cons (f : frame) (ms : list frame) :
  has_bottom ms -> mode f <> mode_normal -> has_bottom (f :: ms).
Proof.
  intros (frames & -> & Hall) Hmode. exists (f :: frames).
  split; [reflexivity | constructor; assumption].
Qed.

(** The bottom entry stays until a [)] is met. *)
Lemma reaches_has_bottom (s : str) (st : state) :
  reaches s st ->
  has_bottom (modesEntered st)
  \/ exists j, 0 <= j < i st /\ charAt s j = Some (Cls.chr ")").
Proof.
  induction 1 as [|st st' Hr IH Hi Ht].
  - left. exists []. split; [reflexivity | constructor].
  - pose proof (turn_i _ _ _ Ht) as Hstep.
    destruct IH as [Hbot | (j & Hj & Hc)];
      [|right; exists j; split; [lia | exact Hc]].
    apply turn_Normal in Ht as (st1 & Hb & ->).
    destruct (modesEntered st) as [|top below] eqn:Hm;
      [unfold body in Hb; rewrite Hm in Hb; discriminate|].
    apply (body_action s st st1 top below Hm) in Hb.
    destruct Hb as [ Hcss Hline | Ht Hwhy | f Ht Hf Hwhy | ty Ht H0 H1 Hurl
                   | st1 Ht Hmk Hcl Hclose | e st1 Ht Hmk Hend Hclose ];
      simpl.
    + left. rewrite Hm. exact Hbot.
    + destruct Hwhy as [[Hc _] | Hstr].
      * right. exists (i st).
        pose proof (charAt_Some_range _ _ _ Hc). split; [lia | exact Hc].
      * left. apply (has_bottom_tail top); [exact Hbot | congruence].
    + left. apply has_bottom_cons; [exact Hbot|].
      destruct Hf as [Hf | [Hf | Hf]]; congruence.
    + left. rewrite Hm. apply has_bottom_cons; [exact Hbot|]. discriminate.
    + unfold close_comment in Hclose.
      destruct (exec re_cssComment _); [|discriminate].
      injection Hclose as <-. simpl. left.
      apply (has_bottom_tail top); [exact Hbot | congruence].
    + unfold close_comment in Hclose.
      destruct (exec re_doubleSlashComment _); [|discriminate].
      injection Hclose as <-. simpl. left.
      apply (has_bottom_tail top); [exact Hbot | congruence].
Qed.

Lemma forallb_false_In {A : Type} (f : A -> bool) (l : list A) :
  forallb f l <> true -> exists x, In x l /\ f x = false.
Proof.
  induction l as [|x l IH]; simpl; [congruence|].
  destruct (f x) eqn:Hx.
  - simpl. intros H. destruct (IH H) as (y & Hin & Hy). eauto.
  - intros _. exists x. auto.
Qed.

(** The span of an open comment, up to [e]: its two marker code units and
    the rest. *)
Lemma open_span (s : str) (st : state) (b : Z) (ty : CommentType) (e : Z) :
  open_ok s st b ty -> b + 1 <= e < len s ->
  substring s b (e + 1)
  = Cls.chr "/" :: second_of ty :: substring s (b + 2) (e + 1).
Proof.
  intros (_ & _ & _ & Hb0 & _ & Hc0 & Hc1 & _) He.
  rewrite (substring_split s b (b + 1) (e + 1)) by lia.
  rewrite (substring_split s (b + 1) (b + 2) (e + 1)) by lia.
  rewrite (substring_one s b _ Hc0).
  replace (b + 2) with (b + 1 + 1) by lia.
  rewrite (substring_one s (b + 1) _ Hc1). reflexivity.
Qed.

(** A TypeError has one of three causes: a [)] came while [modesEntered]
    held its bottom entry only; a [(] came after a text that the pattern of
    [functionName] does not match; a double-slash comment closed with a line
    terminator other than a line feed inside.  The pattern of a CSS comment
    never fails. *)
Lemma throws_at_causes (s : str) (st : state) :
  reaches s st -> i st < len s -> throws_at s st ->
  (exists j, 0 <= j < i st /\ charAt s j = Some (Cls.chr ")"))
  \/ (charAt s (i st) = Some (Cls.chr "(")
      /\ ~ name_start (substring s 0 (i st)))
  \/ (exists b j c,
        charAt s b = Some (Cls.chr "/")
        /\ charAt s (b + 1) = Some (Cls.chr "/")
        /\ b + 2 <= j <= i st /\ charAt s j = Some c
        /\ (c = 13 \/ c = 8232 \/ c = 8233)%N
        /\ forall m, b <= m <= j -> charAt s m <> Some newline).
Proof.
  intros Hr Hlen Hthrow.
  pose proof (reaches_Shape s st Hr) as [Hopen _ _ _].
  destruct Hthrow as [ Hnil | Hc Hexec | top below Hm Hmode Hmk Hcl Hexec
                     | top below e Hm Hmode Hmk Hend Hexec ].
  - left. destruct (reaches_has_bottom s st Hr) as [Hbot | Hj];
      [|exact Hj].
    rewrite Hnil in Hbot. destruct Hbot as ([|f frames] & Heq & _);
      discriminate Heq.
  - right. left. split; [exact Hc|].
    intros Hn. apply functionName_matches in Hn. contradiction.
  - exfalso.
    destruct (Hopen top below Hm Hmode) as (b & ty & Hmk' & Hok).
    rewrite Hmk in Hmk'. injection Hmk' as Hmk'.
    apply (marker_of_inj css ty) in Hmk'. subst ty.
    pose proof Hok as (Hs & _ & _ & Hb0 & Hb2 & _).
    destruct Hcl as [Hstar Hslash].
    pose proof (charAt_Some_range _ _ _ Hslash) as Hrange.
    rewrite Hs in Hexec. simpl in Hexec.
    rewrite (open_span s st b css (i st + 1) Hok) in Hexec by lia.
    rewrite (substring_split s (b + 2) (i st) (i st + 1 + 1)) in Hexec by lia.
    rewrite (substring_split s (i st) (i st + 1) (i st + 1 + 1))
      in Hexec by lia.
    rewrite (substring_one s (i st) _ Hstar) in Hexec.
    rewrite (substring_one s (i st + 1) _ Hslash) in Hexec.
    exact (cssComment_matches_span (substring s (b + 2) (i st)) Hexec).
  - right. right.
    destruct (Hopen top below Hm Hmode) as (b & ty & Hmk' & Hok).
    rewrite Hmk in Hmk'. injection Hmk' as Hmk'.
    apply (marker_of_inj double_slash ty) in Hmk'. subst ty.
    pose proof Hok as (Hs & _ & _ & Hb0 & Hb2 & Hc0 & Hc1 & _ & Hnl & _).
    assert (He : i st - 1 <= e <= i st)
      by (destruct Hend as [[_ ->] | [_ [_ ->]]]; lia).
    rewrite Hs in Hexec. simpl in Hexec.
    rewrite (open_span s st b double_slash e Hok) in Hexec by lia.
    assert (Hdot : forallb Cls.dot (substring s (b + 2) (e + 1)) <> true).
    { intros Hdot.
      exact (doubleSlashComment_matches_line _ Hdot Hexec). }
    apply forallb_false_In in Hdot as (c & Hin & Hc).
    apply substring_In in Hin as (j & Hj & Hcj); [|lia|lia].
    assert (Hno : forall m, b <= m <= j -> charAt s m <> Some newline).
    { intros m Hmj.
      destruct (Z.eq_dec m b) as [-> | Hmb]; [rewrite Hc0; discriminate|].
      destruct (Z.eq_dec m (b + 1)) as [-> | Hmb1];
        [rewrite Hc1; discriminate|].
      destruct (Z.eq_dec m (i st)) as [-> | Hmi].
      - destruct Hend as [[_ ->] | [Hn _]]; [lia | exact Hn].
      - apply Hnl; [reflexivity | lia]. }
    exists b, j, c. repeat split; try assumption; try lia.
    unfold Cls.dot, Cls.line_terminator in Hc.
    apply negb_false_iff in Hc.
    repeat (apply orb_true_iff in Hc as [Hc | Hc]);
      apply N.eqb_eq in Hc; subst c; auto.
    exfalso. apply (Hno j); [lia | exact Hcj].
Qed.

(** X6: a call that throws has met one of three things: a [)] ; a [(]
    after a text that does not end with a run of identifier characters
    starting the text or following a delimiter; or, in a double-slash comment
    and on its line, a carriage return, U+2028 or U+2029.  Nothing else makes
    the scanner throw: the pattern of a CSS comment never fails. *)
Theorem throw_causes (s : str) (e : exn) :
  findCommentsInRaws s = Some (Throw e) ->
  (exists j, charAt s j = Some (Cls.chr ")"))
  \/ (exists j,
        charAt s j = Some (Cls.chr "(") /\ ~ name_start (substring s 0 j))
  \/ (exists b j c,
        charAt s b = Some (Cls.chr "/")
        /\ charAt s (b + 1) = Some (Cls.chr "/")
        /\ b + 2 <= j /\ charAt s j = Some c
        /\ (c = 13 \/ c = 8232 \/ c = 8233)%N
        /\ forall m, b <= m <= j -> charAt s m <> Some newline).
Proof.
  intros H. apply thrown_reaches in H as (st & Hr & Hlen & Hthrow).
  destruct (throws_at_causes s st Hr Hlen Hthrow)
    as [(j & _ & Hj) | [[Hc Hn] | (b & j & c & H0 & H1 & Hj & Hc & Hk & Hno)]].
  - left. exists j. exact Hj.
  - right. left. exists (i st). split; assumption.
  - right. right. exists b, j, c. repeat split; try assumption; lia.
Qed.

Lemma throw_causes_witness :
  findCommentsInRaws text_condition = Some (Throw TypeError)
  /\ ((exists j, charAt text_condition j = Some (Cls.chr ")"))
      \/ (exists j,
            charAt text_condition j = Some (Cls.chr "(")
            /\ ~ name_start (substring text_condition 0 j))
      \/ (exists b j c,
            charAt text_condition b = Some (Cls.chr "/")
            /\ charAt text_condition (b + 1) = Some (Cls.chr "/")
            /\ b + 2 <= j /\ charAt text_condition j = Some c
            /\ (c = 13 \/ c = 8232 \/ c = 8233)%N
            /\ forall m, b <= m <= j ->
                 charAt text_condition m <> Some newline)).
Proof.
  assert (H : findCommentsInRaws text_condition = Some (Throw TypeError))
    by (vm_compute; reflexivity).
  split; [exact H|]. exact (throw_causes text_condition TypeError H).
Defined.

(** X7: on a text without parentheses and without a carriage return,
    U+2028 or U+2029, the scanner returns its list of records: it does not
    throw. *)
Theorem returns_without_parens (s : str) :
  (forall j c,
      charAt s j = Some c ->
      c <> Cls.chr "(" /\ c <> Cls.chr ")"
      /\ c <> 13%N /\ c <> 8232%N /\ c <> 8233%N) ->
  exists res, findCommentsInRaws s = Some (Normal res).
Proof.
  intros Hs. destruct (findCommentsInRaws_terminates s) as [[res|e] H];
    [eauto|].
  exfalso. apply thrown_reaches in H as (st & Hr & Hlen & Hthrow).
  destruct (throws_at_causes s st Hr Hlen Hthrow)
    as [(j & _ & Hj) | [[Hc _] | (b & j & c & _ & _ & _ & Hc & Hk & _)]].
  - destruct (Hs j _ Hj) as (_ & H & _). apply H. reflexivity.
  - destruct (Hs _ _ Hc) as (H & _). apply H. reflexivity.
  - destruct (Hs j c Hc) as (_ & _ & H1 & H2 & H3).
    destruct Hk as [-> | [-> | ->]]; congruence.
Qed.

Lemma returns_without_parens_witness :
  exists res, findCommentsInRaws text_note = Some (Normal res).
Proof.
  apply returns_without_parens. intros j c Hc.
  pose proof (charAt_Some_range _ _ _ Hc) as Hr.
  change (len text_note) with 19 in Hr.
  assert (Hj : j = 0 \/ j = 1 \/ j = 2 \/ j = 3 \/ j = 4 \/ j = 5 \/ j = 6
               \/ j = 7 \/ j = 8 \/ j = 9 \/ j = 10 \/ j = 11 \/ j = 12
               \/ j = 13 \/ j = 14 \/ j = 15 \/ j = 16 \/ j = 17 \/ j = 18)
    by lia.
  repeat destruct Hj as [-> | Hj]; try subst j;
    vm_compute in Hc; injection Hc as <-; repeat split; discriminate.
Defined.

(** ** Which match the matcher finds *)

(** A greedy run stops where it does because the continuation fails after
    every longer run. *)
Lemma star_max (p : N -> bool) (k : cont) (s : str) :
  forall pos cs res,
    star p k pos s cs = Some res ->
    exists a b,
      s = a ++ b /\ forallb p a = true
      /\ k (pos + length a)%nat b cs = Some res
      /\ forall c b',
           b = c :: b' -> p c = true ->
           star p k (S (pos + length a)) b' cs = None.
Proof.
  induction s as [|c s IH]; intros pos cs res H; simpl in H.
  - exists [], []. simpl. rewrite Nat.add_0_r.
    repeat split; [exact H | discriminate].
  - destruct (p c) eqn:Hc.
    + destruct (star p k (S pos) s cs) as [r|] eqn:Hs.
      * injection H as ->.
        destruct (IH _ _ _ Hs) as (a & b & -> & Ha & Hk & Hmax).
        exists (c :: a), b. simpl. rewrite Hc, Ha, Nat.add_succ_r.
        repeat split; assumption.
      * exists [], (c :: s). simpl. rewrite Nat.add_0_r.
        repeat split; [exact H|].
        intros c' b' Heq _. injection Heq as <- <-. exact Hs.
    + exists [], (c :: s). simpl. rewrite Nat.add_0_r.
      repeat split; [exact H|].
      intros c' b' Heq Hc'. injection Heq as <- <-. congruence.
Qed.

(** A lazy run stops at the first place where the continuation succeeds. *)
Lemma star_lazy_min (p : N -> bool) (k : cont) (s : str) :
  forall pos cs res,
    star_lazy p k pos s cs = Some res ->
    exists a b,
      s = a ++ b /\ forallb p a = true
      /\ k (pos + length a)%nat b cs = Some res
      /\ forall a1 a2,
           a = a1 ++ a2 -> a2 <> [] ->
           k (pos + length a1)%nat (a2 ++ b) cs = None.
Proof.
  induction s as [|c s IH]; intros pos cs res H; rewrite star_lazy_eq in H.
  - destruct (k pos [] cs) eqn:Hk; [|discriminate].
    exists [], []. simpl. rewrite Nat.add_0_r.
    repeat split; [congruence|].
    intros a1 a2 Heq Hne. destruct a1, a2; try discriminate. contradiction.
  - destruct (k pos (c :: s) cs) as [r|] eqn:Hk.
    + exists [], (c :: s). simpl. rewrite Nat.add_0_r.
      repeat split; [congruence|].
      intros a1 a2 Heq Hne. destruct a1, a2; try discriminate. contradiction.
    + destruct (p c) eqn:Hc; [|discriminate].
      destruct (IH _ _ _ H) as (a & b & -> & Ha & Hk' & Hmin).
      exists (c :: a), b. simpl. rewrite Hc, Ha, Nat.add_succ_r.
      repeat split; [exact Hk'|].
      intros a1 a2 Heq Hne. destruct a1 as [|x a1]; simpl in *.
      * subst a2. simpl. rewrite Nat.add_0_r. exact Hk.
      * injection Heq as <- ->. rewrite Nat.add_succ_r.
        apply Hmin; [reflexivity | exact Hne].
Qed.

Lemma firstn_prefix {A : Type} (n : nat) (x y : list A) :
  n = length x -> firstn n (x ++ y) = x.
Proof.
  intros ->. rewrite firstn_app, firstn_all, Nat.sub_diag. simpl.
  apply app_nil_r.
Qed.

Lemma forallb_app_true {A : Type} (f : A -> bool) (a b : list A) :
  forallb f (a ++ b) = true <-> forallb f a = true /\ forallb f b = true.
Proof. rewrite forallb_app, andb_true_iff. reflexivity. Qed.

Lemma doubleSlashComment_groups (t : str) (m : captures) :
  exec re_doubleSlashComment t = Some m ->
  exists g1 g2 g3 g4,
    m = [(4%nat, g4); (3%nat, g3); (2%nat, g2); (1%nat, g1)]
    /\ line_groups t g1 g2 g3 g4.
Proof.
  intros H. apply exec_anchored in H. rewrite run_Seq in H.
  cbn [run] in H. unfold one in H.
  destruct t as [|c0 t1]; [discriminate|].
  destruct (Cls.just (Cls.chr "/") c0) eqn:Hc0; [|discriminate].
  apply star_max in H as (a & b & -> & Ha & Hk1 & Hmax1).
  apply star_max in Hk1 as (g2 & b2 & -> & Hg2 & Hk2 & Hmax2).
  apply star_lazy_min in Hk2 as (g3 & b3 & -> & Hg3 & Hk3 & Hmin3).
  apply star_lazy_sound in Hk3 as (g4 & b4 & -> & Hg4 & Hk4).
  destruct b4; [|discriminate]. unfold accept in Hk4. injection Hk4 as <-.
  exists (c0 :: a), g2, g3, g4.
  assert (Hlast : forall x c, g3 = x ++ [c] -> Cls.space c = false).
  { intros x c ->. specialize (Hmin3 x [c] eq_refl ltac:(discriminate)).
    destruct (Cls.space c) eqn:Hc; [|reflexivity]. exfalso.
    revert Hmin3.
    apply (star_lazy_complete Cls.space _ (c :: g4) []).
    - simpl. rewrite Hc. exact Hg4.
    - intros cs. discriminate. }
  assert (Hrest : forall c t', g3 ++ g4 ++ [] = c :: t' ->
                    Cls.space c = false).
  { intros c t' Heq. destruct (Cls.space c) eqn:Hc; [|reflexivity].
    exfalso. specialize (Hmax2 c t' Heq Hc). revert Hmax2.
    apply (star_complete Cls.space _ [] t'); [reflexivity|].
    intros cs.
    destruct g3 as [|x g3'].
    - destruct g4 as [|y g4']; [discriminate Heq|].
      simpl in Heq. injection Heq as <- <-.
      apply (star_lazy_complete Cls.dot _ [] (g4' ++ [])); [reflexivity|].
      intros cs'.
      apply (star_lazy_complete Cls.space _ g4' []).
      + simpl in Hg4. apply andb_true_iff in Hg4. tauto.
      + intros cs''. discriminate.
    - simpl in Heq. injection Heq as <- <-.
      apply (star_lazy_complete Cls.dot _ g3' (g4 ++ [])).
      + simpl in Hg3. apply andb_true_iff in Hg3. tauto.
      + intros cs'.
        apply (star_lazy_complete Cls.space _ g4 []); [exact Hg4|].
        intros cs''. discriminate. }
  assert (Hslash : forall c t', g2 ++ g3 ++ g4 ++ [] = c :: t' ->
                     c <> Cls.chr "/").
  { intros c t' Heq ->.
    destruct g2 as [|x g2'];
      [|simpl in Heq; injection Heq as -> _; simpl in Hg2;
        discriminate Hg2].
    simpl in Heq. specialize (Hmax1 _ _ Heq eq_refl). revert Hmax1.
    destruct g3 as [|y g3'];
      [destruct g4 as [|y g4']; [discriminate Heq|];
       simpl in Heq; injection Heq as -> _; simpl in Hg4;
       discriminate Hg4|].
    simpl in Heq. injection Heq as -> <-.
    apply (star_complete (Cls.just (Cls.chr "/")) _ [] (g3' ++ g4 ++ []));
      [reflexivity|].
    intros cs.
    apply (star_complete Cls.space _ [] (g3' ++ g4 ++ [])); [reflexivity|].
    intros cs'.
    apply (star_lazy_complete Cls.dot _ g3' (g4 ++ [])).
    - simpl in Hg3. exact Hg3.
    - intros cs''.
      apply (star_lazy_complete Cls.space _ g4 []); [exact Hg4|].
      intros cs3. discriminate. }
  clear Hmax1 Hmax2 Hmin3.
  rewrite !app_nil_r in *.
  split.
  { repeat f_equal;
      first [ apply firstn_prefix; lia | apply firstn_all2; lia ]. }
  unfold line_groups. cbn [forallb]. rewrite Hc0, Ha.
  repeat split; try assumption; discriminate.
Qed.

Lemma just_eq (c x : N) : Cls.just c x = true -> x = c.
Proof. unfold Cls.just. intros H. apply N.eqb_eq in H. congruence. Qed.

Lemma end_token_matches (g : str) (pos : nat) :
  end_token g -> succeeds (run re_endToken accept) pos (g ++ []).
Proof.
  intros (stars & -> & Hne & Hstars).
  apply run_complete; [|apply succeeds_accept].
  exists (stars ++ [Cls.chr "/"]), []. split; [symmetry; apply app_nil_r|].
  split; [|split; reflexivity].
  exists stars, [Cls.chr "/"]. split; [reflexivity|]. split.
  - split; assumption.
  - exists (Cls.chr "/"). split; reflexivity.
Qed.

Lemma cssComment_groups (t : str) (m : captures) :
  exec re_cssComment t = Some m ->
  exists g1 g2 g3 g4 g5,
    m = [(5%nat, g5); (4%nat, g4); (3%nat, g3); (2%nat, g2); (1%nat, g1)]
    /\ css_groups t g1 g2 g3 g4 g5.
Proof.
  intros H. apply exec_anchored in H. rewrite run_Seq in H.
  apply run_Group_sound in H as (g1 & b1 & -> & Hm1 & H); [|simpl; tauto].
  change (Seq (Group 5 (Seq (Plus (Cls.just (Cls.chr "*"))) (lit "/"))) Eol)
    with re_endToken in H.
  cbn [run] in H.
  apply star_max in H as (g2 & b2 & -> & Hg2 & H & Hmax2).
  apply star_lazy_min in H as (g3 & b3 & -> & Hg3 & H & Hmin3).
  apply star_lazy_sound in H as (g4 & b4 & -> & Hg4 & H).
  unfold re_endToken in H. rewrite run_Seq in H.
  apply run_Group_sound in H as (g5 & b5 & -> & Hm5 & H); [|simpl; tauto].
  simpl in H. destruct b5; [|discriminate]. unfold accept in H.
  injection H as <-.
  assert (Hend : end_token g5).
  { destruct Hm5 as (stars & x & -> & [Hne Hstars] & (c & -> & Hc)).
    apply just_eq in Hc. subst c. exists stars. repeat split; assumption. }
  assert (Hstart : start_token g1).
  { destruct Hm1 as (x & y & -> & (c & -> & Hc)
                     & (stars & flag & -> & [Hne Hstars] & Hflag)).
    apply just_eq in Hc. subst c. exists stars, flag.
    repeat split; assumption. }
  fold re_endToken in Hmax2, Hmin3.
  assert (Hlast : forall x c, g3 = x ++ [c] -> Cls.space c = false).
  { intros x c ->. specialize (Hmin3 x [c] eq_refl ltac:(discriminate)).
    destruct (Cls.space c) eqn:Hc; [|reflexivity]. exfalso.
    revert Hmin3.
    apply (star_lazy_complete Cls.space _ (c :: g4) (g5 ++ [])).
    - simpl. rewrite Hc. exact Hg4.
    - intros cs. apply end_token_matches. exact Hend. }
  assert (Hrest : forall c t', g3 ++ g4 ++ g5 ++ [] = c :: t' ->
                    Cls.space c = false).
  { intros c t' Heq. destruct (Cls.space c) eqn:Hc; [|reflexivity].
    exfalso. specialize (Hmax2 c t' Heq Hc). revert Hmax2.
    apply (star_complete Cls.space _ [] t'); [reflexivity|].
    intros cs.
    destruct g3 as [|x g3'].
    - destruct g4 as [|y g4'].
      + destruct Hend as (stars & -> & Hne & Hstars).
        destruct stars as [|z stars]; [contradiction|].
        simpl in Heq. injection Heq as -> _. cbn [forallb] in Hstars.
        apply andb_true_iff in Hstars as [Hz _]. apply just_eq in Hz.
        subst c. discriminate Hc.
      + simpl in Heq. injection Heq as <- <-.
        apply (star_lazy_complete Cls.any _ [] (g4' ++ g5 ++ []));
          [reflexivity|].
        intros cs'.
        apply (star_lazy_complete Cls.space _ g4' (g5 ++ [])).
        * simpl in Hg4. apply andb_true_iff in Hg4. tauto.
        * intros cs''. apply end_token_matches. exact Hend.
    - simpl in Heq. injection Heq as <- <-.
      apply (star_lazy_complete Cls.any _ g3' (g4 ++ g5 ++ []));
        [apply forallb_any|].
      intros cs'.
      apply (star_lazy_complete Cls.space _ g4 (g5 ++ [])); [exact Hg4|].
      intros cs''. apply end_token_matches. exact Hend. }
  clear Hmax2 Hmin3.
  rewrite !app_nil_r in *.
  exists g1, g2, g3, g4, g5. split.
  { repeat f_equal;
      first [ apply firstn_prefix; lia | apply firstn_all2; lia ]. }
  unfold css_groups. repeat split; assumption.
Qed.

(** ** The pieces of a record *)

Lemma reaches_raws (s : str) (st : state) :
  reaches s st -> Forall record_raws (result st).
Proof.
  induction 1 as [|st st' Hr IH Hi Ht]; [constructor|].
  pose proof (reaches_Shape s st Hr) as [Hopen _ _ _].
  apply turn_Normal in Ht as (st1 & Hb & ->).
  destruct (modesEntered st) as [|top below] eqn:Hm;
    [unfold body in Hb; rewrite Hm in Hb; discriminate|].
  apply (body_action s st st1 top below Hm) in Hb.
  specialize (Hopen top below eq_refl).
  destruct Hb as [ Hcss Hline | Ht Hwhy | f Ht Hf Hwhy | ty Ht H0 H1 Hurl
                 | st1 Ht Hmk Hcl Hclose | e st1 Ht Hmk Hend Hclose ];
    simpl; try assumption.
  - destruct (Hopen Ht) as (b & ty & Hmk' & Hok).
    rewrite Hmk in Hmk'. injection Hmk' as Hmk'.
    apply (marker_of_inj css ty) in Hmk'. subst ty.
    destruct Hok as (_ & Hty & _).
    unfold close_comment in Hclose.
    destruct (exec re_cssComment _) as [matches|] eqn:Hexec; [|discriminate].
    injection Hclose as <-. simpl.
    apply Forall_app. split; [assumption|]. constructor; [|constructor].
    eexists css, _, matches. simpl.
    repeat split; try reflexivity; assumption.
  - destruct (Hopen Ht) as (b & ty & Hmk' & Hok).
    rewrite Hmk in Hmk'. injection Hmk' as Hmk'.
    apply (marker_of_inj double_slash ty) in Hmk'. subst ty.
    destruct Hok as (_ & Hty & _).
    unfold close_comment in Hclose.
    destruct (exec re_doubleSlashComment _) as [matches|] eqn:Hexec;
      [|discriminate].
    injection Hclose as <-. simpl.
    apply Forall_app. split; [assumption|]. constructor; [|constructor].
    eexists double_slash, _, matches. simpl.
    repeat split; try reflexivity; assumption.
Qed.

Lemma returned_raws (s : str) (res : list Comment) (r : Comment) :
  findCommentsInRaws s = Some (Normal res) -> In r res -> record_raws r.
Proof.
  intros Hres Hin. apply returned_reaches in Hres as (st & Hr & _ & <-).
  apply reaches_raws in Hr. rewrite Forall_forall in Hr. exact (Hr r Hin).
Qed.

Lemma double_slash_pieces (r : Comment) :
  record_raws r -> type r = Some double_slash ->
  exists rw g1 g2 g3 g4,
    raws r = Some rw
    /\ Raws.startToken rw = Some g1 /\ Raws.left rw = Some g2
    /\ text r = Some g3 /\ Raws.right rw = Some g4
    /\ Raws.endToken rw = None
    /\ line_groups (Raws.text rw) g1 g2 g3 g4.
Proof.
  intros (ty & rw & m & Hty & Hraws & Hexec & H1 & H2 & H3 & H4 & H5) Hd.
  rewrite Hty in Hd. injection Hd as ->. simpl in *.
  apply doubleSlashComment_groups in Hexec
    as (g1 & g2 & g3 & g4 & -> & Hg).
  simpl in H1, H2, H3, H4.
  exists rw, g1, g2, g3, g4. repeat (split; [assumption|]). exact Hg.
Qed.

(** X8: the fields of a double-slash record split its [raws.text] with
    nothing lost: [raws.startToken] is all the [/] the comment starts with,
    [raws.left] all the white space after them, [text] the rest without the
    white space that ends it, and [raws.right] that white space; there is no
    [raws.endToken]. *)
Theorem double_slash_record_pieces (s : str) (res : list Comment)
  (r : Comment) :
  findCommentsInRaws s = Some (Normal res) ->
  In r res ->
  type r = Some double_slash ->
  exists rw g1 g2 g3 g4,
    raws r = Some rw
    /\ Raws.startToken rw = Some g1 /\ Raws.left rw = Some g2
    /\ text r = Some g3 /\ Raws.right rw = Some g4
    /\ Raws.endToken rw = None
    /\ line_groups (Raws.text rw) g1 g2 g3 g4.
Proof.
  intros Hres Hin Hty.
  exact (double_slash_pieces r (returned_raws s res r Hres Hin) Hty).
Qed.

Lemma double_slash_record_pieces_witness :
  let s := text_two_comments in
  let r := nth 1 (returned s) empty in
  findCommentsInRaws s = Some (Normal (returned s))
  /\ In r (returned s) /\ type r = Some double_slash
  /\ exists rw g1 g2 g3 g4,
       raws r = Some rw
       /\ Raws.startToken rw = Some g1 /\ Raws.left rw = Some g2
       /\ text r = Some g3 /\ Raws.right rw = Some g4
       /\ Raws.endToken rw = None
       /\ line_groups (Raws.text rw) g1 g2 g3 g4.
Proof.
  intros s r.
  assert (H1 : findCommentsInRaws s = Some (Normal (returned s)))
    by (vm_compute; reflexivity).
  assert (H2 : In r (returned s)) by (vm_compute; right; left; reflexivity).
  assert (H3 : type r = Some double_slash) by (vm_compute; reflexivity).
  split; [exact H1|]. split; [exact H2|]. split; [exact H3|].
  exact (double_slash_record_pieces s (returned s) r H1 H2 H3).
Defined.

(** X9: the fields of a CSS record split its [raws.text] with nothing lost:
    [raws.startToken] is [/], stars and at most one of [!] and [#];
    [raws.left] all the white space after it; [text] has no white space at
    either end; [raws.right] is white space; [raws.endToken] is stars and
    [/]. *)
Theorem css_record_pieces (s : str) (res : list Comment) (r : Comment) :
  findCommentsInRaws s = Some (Normal res) ->
  In r res ->
  type r = Some css ->
  exists rw g1 g2 g3 g4 g5,
    raws r = Some rw
    /\ Raws.startToken rw = Some g1 /\ Raws.left rw = Some g2
    /\ text r = Some g3 /\ Raws.right rw = Some g4
    /\ Raws.endToken rw = Some g5
    /\ css_groups (Raws.text rw) g1 g2 g3 g4 g5.
Proof.
  intros Hres Hin Hc.
  destruct (returned_raws s res r Hres Hin)
    as (ty & rw & m & Hty & Hraws & Hexec & H1 & H2 & H3 & H4 & H5).
  rewrite Hty in Hc. injection Hc as ->. simpl in *.
  apply cssComment_groups in Hexec as (g1 & g2 & g3 & g4 & g5 & -> & Hg).
  simpl in H1, H2, H3, H4, H5.
  exists rw, g1, g2, g3, g4, g5. repeat (split; [assumption|]). exact Hg.
Qed.

Lemma css_record_pieces_witness :
  let s := text_two_comments in
  let r := nth 0 (returned s) empty in
  findCommentsInRaws s = Some (Normal (returned s))
  /\ In r (returned s) /\ type r = Some css
  /\ exists rw g1 g2 g3 g4 g5,
       raws r = Some rw
       /\ Raws.startToken rw = Some g1 /\ Raws.left rw = Some g2
       /\ text r = Some g3 /\ Raws.right rw = Some g4
       /\ Raws.endToken rw = Some g5
       /\ css_groups (Raws.text rw) g1 g2 g3 g4 g5.
Proof.
  intros s r.
  assert (H1 : findCommentsInRaws s = Some (Normal (returned s)))
    by (vm_compute; reflexivity).
  assert (H2 : In r (returned s)) by (vm_compute; left; reflexivity).
  assert (H3 : type r = Some css) by (vm_compute; reflexivity).
  split; [exact H1|]. split; [exact H2|]. split; [exact H3|].
  exact (css_record_pieces s (returned s) r H1 H2 H3).
Defined.

(** ** The reports of the rule *)

Lemma line_groups_spaced (t g1 g2 g3 g4 : str) :
  line_groups t g1 g2 g3 g4 ->
  space_first (after_slashes t) = negb (str_eqb g2 []).
Proof.
  intros (-> & _ & Hg1 & Hg2 & _ & _ & Hslash & Hrest & _).
  assert (Hafter : after_slashes (g1 ++ g2 ++ g3 ++ g4) = g2 ++ g3 ++ g4).
  { clear Hg2 Hrest. induction g1 as [|c g1 IH].
    - cbn [app]. destruct (g2 ++ g3 ++ g4) as [|c t'] eqn:Heq;
        [reflexivity|].
      cbn [after_slashes].
      destruct (Cls.just (Cls.chr "/") c) eqn:Hc; [|reflexivity].
      apply just_eq in Hc. exfalso. exact (Hslash c t' eq_refl Hc).
    - cbn [forallb] in Hg1. apply andb_true_iff in Hg1 as [Hc Hg1].
      cbn [app after_slashes]. rewrite Hc. apply IH. exact Hg1. }
  rewrite Hafter. destruct g2 as [|c g2]; simpl.
  - destruct (g3 ++ g4) as [|c t'] eqn:Heq; [reflexivity|].
    simpl. exact (Hrest c t' eq_refl).
  - simpl in Hg2. apply andb_true_iff in Hg2 as [Hc _]. exact Hc.
Qed.

(** What the callback does with a record of the scanner. *)
Lemma callback_record (expectation : option str) (c : Comment) :
  record_raws c ->
  Rule.callback expectation c
  = Normal
      (if is_double_slash c && spaced c
          && opt_str_eqb expectation (js "never")
       then Some (report_of Rule.rejected c)
       else if is_double_slash c && negb (spaced c)
               && opt_str_eqb expectation (js "always")
       then Some (report_of Rule.expected c)
       else None).
Proof.
  intros Hraws. unfold Rule.callback, is_double_slash.
  destruct (type c) as [[|]|] eqn:Hty; try reflexivity.
  destruct (double_slash_pieces c Hraws Hty)
    as (rw & g1 & g2 & g3 & g4 & Hrw & _ & Hleft & _ & _ & _ & Hg).
  unfold spaced. rewrite Hrw, Hleft. simpl.
  rewrite (line_groups_spaced _ _ _ _ _ Hg), negb_involutive.
  destruct (str_eqb g2 []); simpl;
    [destruct (opt_str_eqb expectation (js "always"))
    |destruct (opt_str_eqb expectation (js "never"))]; reflexivity.
Qed.

Lemma forEach_records (expectation : option str) (f : Comment -> option Rule.report)
  (comments : list Comment) :
  Forall (fun c => Rule.callback expectation c = Normal (f c)) comments ->
  forall reports,
    Rule.forEach expectation comments reports
    = Normal (reports ++ flat_map (fun c => match f c with
                                            | Some r => [r]
                                            | None => []
                                            end) comments).
Proof.
  induction 1 as [|c comments Hc _ IH]; intros reports; simpl.
  - rewrite app_nil_r. reflexivity.
  - rewrite Hc. destruct (f c) as [r|]; rewrite IH.
    + rewrite <- app_assoc. reflexivity.
    + reflexivity.
Qed.

Lemma flat_map_filter {A B : Type} (keep : A -> bool) (g : A -> B)
  (l : list A) :
  flat_map (fun x => match (if keep x then Some (g x) else None) with
                     | Some r => [r]
                     | None => []
                     end) l
  = map g (filter keep l).
Proof.
  induction l as [|x l IH]; simpl; [reflexivity|].
  destruct (keep x); simpl; rewrite IH; reflexivity.
Qed.

Lemma rule_reports (validateOptions : option str -> bool)
  (expectation : option str) (m : Rule.message) (keep : Comment -> bool)
  (css : str) (comments : list Comment) :
  validateOptions expectation = true ->
  findCommentsInRaws css = Some (Normal comments) ->
  (forall c, record_raws c ->
     Rule.callback expectation c
     = Normal (if keep c then Some (report_of m c) else None)) ->
  Rule.rule validateOptions expectation css
  = Some (Normal (map (report_of m) (filter keep comments))).
Proof.
  intros Hvalid Hres Hcb. unfold Rule.rule. rewrite Hvalid, Hres. simpl.
  rewrite (forEach_records expectation
             (fun c => if keep c then Some (report_of m c) else None)).
  - simpl. rewrite flat_map_filter. reflexivity.
  - apply Forall_forall. intros c Hin. apply Hcb.
    exact (returned_raws css comments c Hres Hin).
Qed.

(** X10: with the option "always", the rule reports, in the order of the
    text and at the start of each, exactly the double-slash comments in which
    no white space follows the leading [/]: the message is "expected". *)
Theorem rule_always (validateOptions : option str -> bool) (css : str)
  (comments : list Comment) :
  validateOptions (Some (js "always")) = true ->
  findCommentsInRaws css = Some (Normal comments) ->
  Rule.rule validateOptions (Some (js "always")) css
  = Some (Normal
            (map (report_of Rule.expected)
               (filter (fun c => is_double_slash c && negb (spaced c))
                  comments))).
Proof.
  intros Hvalid Hres. apply rule_reports; [exact Hvalid | exact Hres|].
  intros c Hraws. rewrite (callback_record _ c Hraws).
  change (opt_str_eqb (Some (js "always")) (js "never")) with false.
  change (opt_str_eqb (Some (js "always")) (js "always")) with true.
  rewrite andb_false_r, andb_true_r. reflexivity.
Qed.

Lemma rule_always_witness :
  let css := text_two_line_comments in
  let validateOptions := fun _ : option str => true in
  validateOptions (Some (js "always")) = true
  /\ findCommentsInRaws css = Some (Normal (returned css))
  /\ Rule.rule validateOptions (Some (js "always")) css
     = Some (Normal [{| Rule.report_message := Rule.expected;
                        Rule.index := Some 5 |}]).
Proof.
  intros css validateOptions.
  assert (H1 : findCommentsInRaws css = Some (Normal (returned css)))
    by (vm_compute; reflexivity).
  split; [reflexivity|]. split; [exact H1|].
  rewrite (rule_always validateOptions css (returned css) eq_refl H1).
  vm_compute. reflexivity.
Defined.

(** X11: with the option "never", the rule reports, in the order of the
    text and at the start of each, exactly the double-slash comments in which
    white space follows the leading [/]: the message is "rejected". *)
Theorem rule_never (validateOptions : option str -> bool) (css : str)
  (comments : list Comment) :
  validateOptions (Some (js "never")) = true ->
  findCommentsInRaws css = Some (Normal comments) ->
  Rule.rule validateOptions (Some (js "never")) css
  = Some (Normal
            (map (report_of Rule.rejected)
               (filter (fun c => is_double_slash c && spaced c) comments))).
Proof.
  intros Hvalid Hres. apply rule_reports; [exact Hvalid | exact Hres|].
  intros c Hraws. rewrite (callback_record _ c Hraws).
  change (opt_str_eqb (Some (js "never")) (js "never")) with true.
  change (opt_str_eqb (Some (js "never")) (js "always")) with false.
  rewrite andb_true_r, andb_false_r.
  destruct (is_double_slash c && spaced c); reflexivity.
Qed.

Lemma rule_never_witness :
  let css := text_two_line_comments in
  let validateOptions := fun _ : option str => true in
  validateOptions (Some (js "never")) = true
  /\ findCommentsInRaws css = Some (Normal (returned css))
  /\ Rule.rule validateOptions (Some (js "never")) css
     = Some (Normal [{| Rule.report_message := Rule.rejected;
                        Rule.index := Some 9 |}]).
Proof.
  intros css validateOptions.
  assert (H1 : findCommentsInRaws css = Some (Normal (returned css)))
    by (vm_compute; reflexivity).
  split; [reflexivity|]. split; [exact H1|].
  rewrite (rule_never validateOptions css (returned css) eq_refl H1).
  vm_compute. reflexivity.
Defined.

Lemma filter_split_length {A : Type} (d p : A -> bool) (l : list A) :
  (length (filter (fun x => d x && negb (p x)) l)
   + length (filter (fun x => d x && p x) l))%nat
  = length (filter d l).
Proof.
  induction l as [|x l IH]; simpl; [reflexivity|].
  destruct (d x), (p x); simpl; lia.
Qed.

(** X12: on any text, the reports of the rule under the option "always" and
    its reports under the option "never" are together as many as the
    double-slash records of the scanner. *)
Theorem rule_options_split (validateOptions : option str -> bool)
  (css : str) (comments : list Comment) (ra rn : list Rule.report) :
  validateOptions (Some (js "always")) = true ->
  validateOptions (Some (js "never")) = true ->
  findCommentsInRaws css = Some (Normal comments) ->
  Rule.rule validateOptions (Some (js "always")) css = Some (Normal ra) ->
  Rule.rule validateOptions (Some (js "never")) css = Some (Normal rn) ->
  (length ra + length rn)%nat = length (filter is_double_slash comments).
Proof.
  intros Ha Hn Hres Hra Hrn.
  rewrite (rule_reports validateOptions (Some (js "always")) Rule.expected
             (fun c => is_double_slash c && negb (spaced c)) css comments
             Ha Hres) in Hra.
  - rewrite (rule_reports validateOptions (Some (js "never")) Rule.rejected
               (fun c => is_double_slash c && spaced c) css comments
               Hn Hres) in Hrn.
    + injection Hra as <-. injection Hrn as <-.
      rewrite !length_map. apply filter_split_length.
    + intros c Hraws. rewrite (callback_record _ c Hraws).
      change (opt_str_eqb (Some (js "never")) (js "never")) with true.
      change (opt_str_eqb (Some (js "never")) (js "always")) with false.
      rewrite andb_true_r, andb_false_r.
      destruct (is_double_slash c && spaced c); reflexivity.
  - intros c Hraws. rewrite (callback_record _ c Hraws).
    change (opt_str_eqb (Some (js "always")) (js "never")) with false.
    change (opt_str_eqb (Some (js "always")) (js "always")) with true.
    rewrite andb_false_r, andb_true_r. reflexivity.
Qed.

Lemma rule_options_split_witness :
  let css := text_two_line_comments in
  let validateOptions := fun _ : option str => true in
  let ra := [{| Rule.report_message := Rule.expected;
                Rule.index := Some 5 |}] in
  let rn := [{| Rule.report_message := Rule.rejected;
                Rule.index := Some 9 |}] in
  findCommentsInRaws css = Some (Normal (returned css))
  /\ Rule.rule validateOptions (Some (js "always")) css = Some (Normal ra)
  /\ Rule.rule validateOptions (Some (js "never")) css = Some (Normal rn)
  /\ (length ra + length rn)%nat
     = length (filter is_double_slash (returned css)).
Proof.
  intros css validateOptions ra rn.
  assert (H1 : findCommentsInRaws css = Some (Normal (returned css)))
    by (vm_compute; reflexivity).
  assert (H2 : Rule.rule validateOptions (Some (js "always")) css
               = Some (Normal ra)) by (vm_compute; reflexivity).
  assert (H3 : Rule.rule validateOptions (Some (js "never")) css
               = Some (Normal rn)) by (vm_compute; reflexivity).
  split; [exact H1|]. split; [exact H2|]. split; [exact H3|].
  exact (rule_options_split validateOptions css (returned css) ra rn
           eq_refl eq_refl H1 H2 H3).
Defined.

(** X13: the rule adds no failure of its own: with options that
    [validateOptions] accepts it throws exactly when the scanner throws, and
    with options that [validateOptions] rejects it returns without a report
    and without a scan, also on a text on which the scanner throws. *)
Theorem rule_throws_with_scanner (validateOptions : option str -> bool)
  (expectation : option str) (css : str) :
  (validateOptions expectation = true ->
   forall e,
     Rule.rule validateOptions expectation css = Some (Throw e)
     <-> findCommentsInRaws css = Some (Throw e))
  /\ (validateOptions expectation = false ->
      Rule.rule validateOptions expectation css = Some (Normal [])).
Proof.
  split; intros Hvalid; unfold Rule.rule; rewrite Hvalid; simpl;
    [|reflexivity].
  intros e. destruct (findCommentsInRaws css) as [[comments|e']|] eqn:Hres.
  - rewrite (forEach_records expectation
               (fun c =>
                  if is_double_slash c && spaced c
                     && opt_str_eqb expectation (js "never")
                  then Some (report_of Rule.rejected c)
                  else if is_double_slash c && negb (spaced c)
                          && opt_str_eqb expectation (js "always")
                  then Some (report_of Rule.expected c)
                  else None)).
    + split; discriminate.
    + apply Forall_forall. intros c Hin. apply callback_record.
      exact (returned_raws css comments c Hres Hin).
  - split; intros H; injection H as ->; reflexivity.
  - split; discriminate.
Qed.

Lemma rule_throws_with_scanner_witness :
  let validateOptions :=
    fun o : option str => opt_str_eqb o (js "always") in
  (Rule.rule validateOptions (Some (js "always")) text_condition
   = Some (Throw TypeError)
   <-> findCommentsInRaws text_condition = Some (Throw TypeError))
  /\ Rule.rule validateOptions None text_condition = Some (Normal []).
Proof.
  intros validateOptions. split.
  - apply (rule_throws_with_scanner validateOptions (Some (js "always"))
             text_condition).
    reflexivity.
  - apply (rule_throws_with_scanner validateOptions None text_condition).
    reflexivity.
Defined.

(** ** More on the loop and on [inlineBefore] *)

(** X14: the loop comes to an end within as many turns as the text has code
    units: more fuel changes nothing, and the call returns or throws. *)
Theorem loop_ends_within_length (s : str) (n : nat) :
  (length s <= n)%nat ->
  loop s n initial = findCommentsInRaws s
  /\ exists c, findCommentsInRaws s = Some c.
Proof.
  intros Hn. split.
  - apply loop_fuel; unfold turns_left, len; simpl; lia.
  - destruct (findCommentsInRaws s) as [c|] eqn:H; [eauto|].
    exfalso. revert H. apply loop_total.
    unfold turns_left, len. simpl. lia.
Qed.

Lemma loop_ends_within_length_witness :
  (length text_note <= 100)%nat
  /\ loop text_note 100 initial = findCommentsInRaws text_note
  /\ exists c, findCommentsInRaws text_note = Some c.
Proof.
  assert (H : (length text_note <= 100)%nat) by (vm_compute; lia).
  split; [exact H|]. exact (loop_ends_within_length text_note 100 H).
Defined.

Lemma inlineBefore_at_true (s : str) (j : Z) :
  inlineBefore_at s j = true
  <-> code_then_line_feed (substring_from s (j + 2)).
Proof.
  unfold inlineBefore_at, search.
  set (t := substring_from s (j + 2)).
  assert (Hnone : match_from re_codeAfter 0 t <> None
                  <-> code_then_line_feed t).
  { split.
    - destruct (match_from re_codeAfter 0 t) as [[q cs]|] eqn:H;
        [|intros Hn; exfalso; apply Hn; reflexivity].
      intros _. apply match_from_sound in H as (a & b & Ht & -> & Hrun).
      unfold re_codeAfter in Hrun.
      apply run_sound in Hrun as (x & y & -> & Hm & _); [|simpl; tauto].
      destruct Hm as (x0 & x1 & -> & [Hpos ->] & Hm).
      simpl in Hpos. destruct a; [|discriminate].
      cbn [app] in Ht. cbn [matches] in Hm.
      destruct Hm as (ws1 & x2 & -> & Hws1
                      & (code & x3 & -> & [Hne Hcode]
                         & (ws2 & x4 & -> & Hws2 & (c & -> & Hc)))).
      apply just_eq in Hc. subst c.
      exists ws1, code, ws2, y. rewrite Ht. rewrite <- !app_assoc.
      repeat split; assumption.
    - intros (ws1 & code & ws2 & rest & Ht & Hws1 & Hne & Hcode & Hws2).
      rewrite Ht.
      replace (ws1 ++ code ++ ws2 ++ newline :: rest)
        with ((ws1 ++ code ++ ws2 ++ [newline]) ++ rest)
        by (rewrite <- !app_assoc; reflexivity).
      apply (match_from_complete re_codeAfter []
               ((ws1 ++ code ++ ws2 ++ [newline]) ++ rest) 0).
      change (run re_codeAfter accept 0
                ((ws1 ++ code ++ ws2 ++ [newline]) ++ rest) [] <> None).
      apply (run_complete re_codeAfter accept 0%nat
               (ws1 ++ code ++ ws2 ++ [newline]) rest);
        [|apply succeeds_accept].
      exists [], (ws1 ++ code ++ ws2 ++ [newline]).
      split; [reflexivity|]. split; [split; reflexivity|].
      exists ws1, (code ++ ws2 ++ [newline]). split; [reflexivity|].
      split; [exact Hws1|].
      exists code, (ws2 ++ [newline]). split; [reflexivity|].
      split; [split; assumption|].
      exists ws2, [newline]. split; [reflexivity|].
      split; [exact Hws2|].
      exists newline. split; reflexivity. }
  rewrite <- Hnone.
  destruct (match_from re_codeAfter 0 t) as [[q cs]|].
  - split; [discriminate|]. intros _. apply negb_true_iff.
    apply Z.eqb_neq. lia.
  - split; [discriminate | congruence].
Qed.

(** X15: [inlineBefore] of a CSS record is true exactly when what follows
    the comment is white space (line feeds included), then a run of code
    units that are not white space, then white space and a line feed. *)
Theorem inlineBefore_of_css_record (s : str) (res : list Comment)
  (r : Comment) :
  findCommentsInRaws s = Some (Normal res) ->
  In r res ->
  type r = Some css ->
  exists e v,
    end_ r = Some e /\ inlineBefore r = Some v
    /\ (v = true <-> code_then_line_feed (substring_from s (e + 1))).
Proof.
  intros Hres Hin Hty. apply returned_Shape in Hres as [Hrec _].
  rewrite Forall_forall in Hrec.
  destruct (Hrec r Hin) as (b & e & _ & He & _ & _ & _ & _ & Hk).
  destruct Hk as [(_ & _ & _ & _ & _ & Hib) | (Hty' & _)]; [|congruence].
  exists e, (inlineBefore_at s (e - 1)).
  repeat split; try assumption;
    replace (e + 1) with (e - 1 + 2) by lia; apply inlineBefore_at_true.
Qed.

Lemma inlineBefore_of_css_record_witness :
  let s := text_two_comments in
  let r := nth 0 (returned s) empty in
  findCommentsInRaws s = Some (Normal (returned s))
  /\ In r (returned s) /\ type r = Some css
  /\ exists e v,
       end_ r = Some e /\ inlineBefore r = Some v
       /\ (v = true <-> code_then_line_feed (substring_from s (e + 1))).
Proof.
  intros s r.
  assert (H1 : findCommentsInRaws s = Some (Normal (returned s)))
    by (vm_compute; reflexivity).
  assert (H2 : In r (returned s)) by (vm_compute; left; reflexivity).
  assert (H3 : type r = Some css) by (vm_compute; reflexivity).
  split; [exact H1|]. split; [exact H2|]. split; [exact H3|].
  exact (inlineBefore_of_css_record s (returned s) r H1 H2 H3).
Defined.

(** ** The comments the scanner records *)

(** X16: a CSS comment that the scanner meets outside of a comment, and that
    has a closing marker two code units or more after its start, is
    recorded: the loop pushes a CSS record from the [/] of the opening marker
    to the [/] of the first such closing marker, without an error and with
    [modesEntered] as it was before; every result of the call holds that
    record. *)
Theorem css_comment_is_recorded (s : str) (st : state) (k : Z) :
  reaches s st ->
  outside_comment st ->
  charAt s (i st) = Some (Cls.chr "/") ->
  charAt s (i st + 1) = Some (Cls.chr "*") ->
  i st + 2 <= k ->
  closes_at s k ->
  (forall j, i st + 2 <= j < k -> ~ closes_at s j) ->
  exists r st',
    reaches s st' /\ i st' = k + 2
    /\ modesEntered st' = modesEntered st
    /\ result st' = result st ++ [r]
    /\ type r = Some css /\ start r = Some (i st) /\ end_ r = Some (k + 1)
    /\ forall res, findCommentsInRaws s = Some (Normal res) -> In r res.
Proof.
  intros Hr Ho H0 H1 Hk Hcl Hno.
  pose proof (reaches_css_opened s st Hr Ho H0 H1) as Hr1.
  assert (Hc : in_comment (css_opened s st) (js "/*"))
    by (eexists; reflexivity).
  pose proof (charAt_Some_range _ _ _ (proj2 Hcl)) as Hrange.
  pose proof (charAt_Some_range _ _ _ H0) as Hrange0.
  pose proof (reaches_in_css s (css_opened s st)
                (Z.to_nat (k - (i st + 2))) Hr1 Hc) as Hr2.
  simpl in Hr2.
  replace (i st + 1 + 1 + Z.of_nat (Z.to_nat (k - (i st + 2))))
    with k in Hr2 by lia.
  assert (Hno' : forall j, i st + 1 + 1 <= j < k -> ~ closes_at s j)
    by (intros j Hj; apply Hno; lia).
  specialize (Hr2 ltac:(lia) Hno').
  set (st2 := set_modes (css_opened s st) k
                ({| mode := mode_comment; character := Some (js "/*") |}
                   :: modesEntered st)) in Hr2.
  pose proof (body_in_css_close s st2 (modesEntered st) eq_refl Hcl) as Hb.
  pose proof (reaches_Shape s st2 Hr2) as [Hopen _ _ _].
  destruct (Hopen _ _ eq_refl eq_refl) as (b & ty & Hmk & Hok).
  simpl in Hmk. injection Hmk as Hmk.
  apply (marker_of_inj css ty) in Hmk. subst ty.
  pose proof Hok as (Hs & _). simpl in Hs. injection Hs as <-.
  unfold close_comment in Hb. simpl in Hb.
  rewrite (open_span s st2 (i st) css (k + 1) Hok) in Hb by lia.
  rewrite (substring_split s (i st + 2) k (k + 1 + 1)) in Hb by lia.
  rewrite (substring_split s k (k + 1) (k + 1 + 1)) in Hb by lia.
  rewrite (substring_one s k _ (proj1 Hcl)) in Hb.
  rewrite (substring_one s (k + 1) _ (proj2 Hcl)) in Hb.
  pose proof (cssComment_matches_span (substring s (i st + 2) k)) as Hex.
  change (js "/*" ++ substring s (i st + 2) k ++ js "*/")
    with (Cls.chr "/" :: second_of css
            :: substring s (i st + 2) k ++ [Cls.chr "*"] ++ [Cls.chr "/"])
    in Hex.
  destruct (exec re_cssComment _) as [matches|]; [|contradiction].
  match type of Hb with
  | _ = Normal {| i := _; modesEntered := _; comment := _;
                  result := _ ++ [?c] |} =>
      set (r := c) in Hb
  end.
  assert (Ht : turn s st2
               = Normal {| i := k + 1 + 1; modesEntered := modesEntered st;
                           comment := empty;
                           result := result st ++ [r] |}).
  { unfold turn. rewrite Hb. reflexivity. }
  assert (Hr3 := reaches_turn s _ _ Hr2 ltac:(simpl; lia) Ht).
  eexists r, _. split; [exact Hr3|]. simpl.
  repeat split; try reflexivity; try lia.
  intros res Hres.
  destruct (reaches_result_kept s _ res Hr3 Hres) as [more ->].
  simpl. apply in_or_app. left. apply in_or_app. right. left. reflexivity.
Qed.

Lemma css_comment_is_recorded_witness :
  let s := text_two_comments in
  let st := set_modes initial 4 (modesEntered initial) in
  state_after s 4 = Some st
  /\ closes_at s 9
  /\ exists r st',
       reaches s st' /\ i st' = 9 + 2
       /\ modesEntered st' = modesEntered st
       /\ result st' = result st ++ [r]
       /\ type r = Some css /\ start r = Some (i st) /\ end_ r = Some (9 + 1)
       /\ forall res, findCommentsInRaws s = Some (Normal res) -> In r res.
Proof.
  intros s st. split; [reflexivity|].
  assert (Hcl : closes_at s 9) by (split; reflexivity).
  split; [exact Hcl|].
  apply (css_comment_is_recorded s st 9).
  - apply (state_after_reaches s 4). reflexivity.
  - exists bottom, []. split; [reflexivity | discriminate].
  - reflexivity.
  - reflexivity.
  - simpl. lia.
  - exact Hcl.
  - intros j Hj [Ha _]. simpl in Hj.
    assert (Hc : j = 6 \/ j = 7 \/ j = 8) by lia.
    destruct Hc as [-> | [-> | ->]]; vm_compute in Ha; discriminate Ha.
Defined.

(** Inside a double-slash comment nothing happens until a line feed or the
    last index. *)
Lemma body_in_line_skip (s : str) (st : state) :
  in_comment st (js "//") ->
  charAt s (i st) <> Some newline -> i st <> len s - 1 ->
  body s st = Normal st.
Proof.
  intros [below Hm] Hn Hl. unfold body. rewrite Hm. cbv zeta.
  cbn [mode character Mode_eqb orb andb].
  apply is_char_false in Hn. apply Z.eqb_neq in Hl. rewrite Hn, Hl.
  change (opt_str_eqb (Some (js "//")) (js "/*")) with false.
  cbn [andb orb]. if_split; reflexivity.
Qed.

(** Inside a double-slash comment, a line feed closes it. *)
Lemma body_in_line_close (s : str) (st : state) (below : list frame) :
  modesEntered st
  = {| mode := mode_comment; character := Some (js "//") |} :: below ->
  charAt s (i st) = Some newline ->
  body s st
  = close_comment s st below (i st - 1) re_doubleSlashComment
      (fun _ => None) false 0.
Proof.
  intros Hm H0. unfold body. rewrite Hm, H0. reflexivity.
Qed.

(** The loop walks through a double-slash comment without a change, up to
    the first line feed. *)
Lemma reaches_in_line (s : str) (st : state) (n : nat) :
  reaches s st ->
  in_comment st (js "//") ->
  i st + Z.of_nat n < len s ->
  (forall j, i st <= j < i st + Z.of_nat n -> charAt s j <> Some newline) ->
  reaches s (set_modes st (i st + Z.of_nat n) (modesEntered st)).
Proof.
  intros Hr Hc. induction n as [|n IH]; intros Hlen Hno.
  - replace (i st + Z.of_nat 0) with (i st) by lia.
    rewrite set_modes_same. exact Hr.
  - set (stn := set_modes st (i st + Z.of_nat n) (modesEntered st)).
    assert (Hrn : reaches s stn)
      by (apply IH; [lia | intros j Hj; apply Hno; lia]).
    apply (reaches_turn s stn); [exact Hrn | simpl; lia |].
    unfold turn. rewrite body_in_line_skip.
    + unfold stn, set_modes. simpl. do 2 f_equal. lia.
    + destruct Hc as [below Hm]. exists below. exact Hm.
    + apply Hno. simpl. lia.
    + simpl. lia.
Qed.

(** Outside of a comment and of a url, the turn at [//] opens a double-slash
    comment. *)
Lemma turn_double_slash_opened (s : str) (st : state) (top : frame)
  (below : list frame) :
  modesEntered st = top :: below ->
  mode top <> mode_comment -> mode top <> mode_url ->
  charAt s (i st) = Some (Cls.chr "/") ->
  charAt s (i st + 1) = Some (Cls.chr "/") ->
  turn s st = Normal (double_slash_opened s st).
Proof.
  intros Hm Hc Hu H0 H1. unfold turn.
  rewrite (body_open_double_slash s st top below Hm Hc Hu H0 H1).
  reflexivity.
Qed.

(** From anywhere in a double-slash comment that started at [b], the loop
    gets to the line feed that ends the line and pushes the record of the
    comment there, when the line holds no other line terminator. *)
Lemma line_comment_closes (s : str) (st : state) (below : list frame)
  (b k : Z) :
  reaches s st ->
  modesEntered st
  = {| mode := mode_comment; character := Some (js "//") |} :: below ->
  start (comment st) = Some b ->
  charAt s b = Some (Cls.chr "/") ->
  charAt s (b + 1) = Some (Cls.chr "/") ->
  b + 2 <= i st <= k ->
  charAt s k = Some newline ->
  (forall j c, b + 2 <= j < k -> charAt s j = Some c ->
               Cls.line_terminator c = false) ->
  exists r st',
    reaches s st' /\ i st' = k + 1 /\ modesEntered st' = below
    /\ result st' = result st ++ [r]
    /\ type r = type (comment st)
    /\ start r = Some b /\ end_ r = Some (k - 1).
Proof.
  intros Hr Hm Hs H0 H1 Hi Hnl Hdot.
  pose proof (charAt_Some_range _ _ _ Hnl) as Hrange.
  pose proof (charAt_Some_range _ _ _ H0) as Hrange0.
  assert (Hin : in_comment st (js "//")) by (exists below; exact Hm).
  assert (Hno : forall j, i st <= j < k -> charAt s j <> Some newline).
  { intros j Hj Hcj. specialize (Hdot j _ ltac:(lia) Hcj). discriminate. }
  pose proof (reaches_in_line s st (Z.to_nat (k - i st)) Hr Hin) as Hr2.
  replace (i st + Z.of_nat (Z.to_nat (k - i st))) with k in Hr2 by lia.
  specialize (Hr2 ltac:(lia) Hno).
  set (st2 := set_modes st k (modesEntered st)) in Hr2.
  pose proof (body_in_line_close s st2 below Hm Hnl) as Hb.
  unfold close_comment in Hb. cbn [comment st2 set_modes i result] in Hb.
  rewrite Hs in Hb. cbn [to_integer] in Hb.
  assert (Hspan : substring s b (k - 1 + 1)
                  = js "//" ++ substring s (b + 2) k).
  { replace (k - 1 + 1) with k by lia.
    rewrite (substring_split s b (b + 1) k) by lia.
    rewrite (substring_split s (b + 1) (b + 2) k) by lia.
    rewrite (substring_one s b _ H0).
    replace (b + 2) with (b + 1 + 1) by lia.
    rewrite (substring_one s (b + 1) _ H1). reflexivity. }
  assert (Hex : exec re_doubleSlashComment (substring s b (k - 1 + 1))
                <> None).
  { rewrite Hspan. apply doubleSlashComment_matches_line.
    apply forallb_forall. intros c Hcin.
    apply substring_In in Hcin as (j & Hj & Hcj); [|lia|lia].
    unfold Cls.dot. rewrite (Hdot j c Hj Hcj). reflexivity. }
  destruct (exec re_doubleSlashComment (substring s b (k - 1 + 1)))
    as [matches|]; [|contradiction].
  match type of Hb with
  | _ = Normal {| i := _; modesEntered := _; comment := _;
                  result := _ ++ [?c] |} =>
      set (r := c) in Hb
  end.
  assert (Ht : turn s st2
               = Normal {| i := k + 0 + 1; modesEntered := below;
                           comment := empty;
                           result := result st ++ [r] |}).
  { unfold turn. rewrite Hb. reflexivity. }
  assert (Hr3 := reaches_turn s _ _ Hr2 ltac:(simpl; lia) Ht).
  eexists r, _. split; [exact Hr3|]. simpl.
  repeat split; try reflexivity; try lia.
Qed.

(** X17: a double-slash comment that the scanner meets outside of a comment
    and of a url, and whose line ends with a line feed and holds no other
    line terminator, is recorded: the loop pushes a double-slash record from
    the first [/] to the code unit before the line feed, without an error and
    with [modesEntered] as it was before; every result of the call holds that
    record. *)
Theorem double_slash_comment_is_recorded (s : str) (st : state) (top : frame)
  (below : list frame) (k : Z) :
  reaches s st ->
  modesEntered st = top :: below ->
  mode top <> mode_comment -> mode top <> mode_url ->
  charAt s (i st) = Some (Cls.chr "/") ->
  charAt s (i st + 1) = Some (Cls.chr "/") ->
  i st + 2 <= k ->
  charAt s k = Some newline ->
  (forall j c, i st + 2 <= j < k -> charAt s j = Some c ->
               Cls.line_terminator c = false) ->
  exists r st',
    reaches s st' /\ i st' = k + 1
    /\ modesEntered st' = modesEntered st
    /\ result st' = result st ++ [r]
    /\ type r = Some double_slash
    /\ start r = Some (i st) /\ end_ r = Some (k - 1)
    /\ forall res, findCommentsInRaws s = Some (Normal res) -> In r res.
Proof.
  intros Hr Hm Hc Hu H0 H1 Hk Hnl Hdot.
  pose proof (charAt_Some_range _ _ _ H0) as Hrange0.
  assert (Hr1 : reaches s (double_slash_opened s st)).
  { apply (reaches_turn s st); [exact Hr | lia |].
    apply (turn_double_slash_opened s st top below); assumption. }
  destruct (line_comment_closes s (double_slash_opened s st)
              (modesEntered st) (i st) k Hr1 eq_refl eq_refl H0 H1
              ltac:(simpl; lia) Hnl Hdot)
    as (r & st' & Hr3 & Hi & Hm' & Hres & Hty & Hst & Hend).
  simpl in Hres, Hty.
  exists r, st'. repeat (split; [assumption|]).
  intros res Hret.
  destruct (reaches_result_kept s _ res Hr3 Hret) as [more ->].
  rewrite Hres. apply in_or_app. left. apply in_or_app. right. left.
  reflexivity.
Qed.

Lemma double_slash_comment_is_recorded_witness :
  let s := text_line_comment in
  let st := set_modes initial 4 (modesEntered initial) in
  state_after s 4 = Some st
  /\ charAt s 8 = Some newline
  /\ exists r st',
       reaches s st' /\ i st' = 8 + 1
       /\ modesEntered st' = modesEntered st
       /\ result st' = result st ++ [r]
       /\ type r = Some double_slash
       /\ start r = Some (i st) /\ end_ r = Some (8 - 1)
       /\ forall res, findCommentsInRaws s = Some (Normal res) -> In r res.
Proof.
  intros s st. split; [reflexivity|]. split; [reflexivity|].
  apply (double_slash_comment_is_recorded s st bottom [] 8).
  - apply (state_after_reaches s 4). reflexivity.
  - reflexivity.
  - discriminate.
  - discriminate.
  - reflexivity.
  - reflexivity.
  - simpl. lia.
  - reflexivity.
  - intros j c Hj Hc. simpl in Hj.
    assert (Hj' : j = 6 \/ j = 7) by lia.
    destruct Hj' as [-> | ->]; vm_compute in Hc; injection Hc as <-;
      reflexivity.
Defined.

(** ** Two [/] in a url *)

(** C7: when the scanner meets [//] while the last entry of [modesEntered]
    is a url, the turn changes nothing and no record of the result starts
    there.  When the last entry is anything else than a url or a comment
    (parentheses inside of a url, for one) the same [//] does open a
    comment: the turn pushes a comment entry and sets the start of the
    comment, and the loop pushes a double-slash record that starts there, at
    the line feed that ends the line, which every result of the call holds.
    [calc(url(//x))] yields no record, with or without a line feed after it,
    and [url((//x))] followed by a line feed yields the record of the
    comment in the inner parentheses. *)
Theorem double_slash_in_url (s : str) (st : state) (top : frame)
  (below : list frame) :
  reaches s st ->
  modesEntered st = top :: below ->
  charAt s (i st) = Some (Cls.chr "/") ->
  charAt s (i st + 1) = Some (Cls.chr "/") ->
  (mode top = mode_url ->
   body s st = Normal st
   /\ forall res r,
        findCommentsInRaws s = Some (Normal res) -> In r res ->
        start r <> Some (i st))
  /\ (mode top <> mode_url -> mode top <> mode_comment ->
      (exists st1,
          turn s st = Normal st1 /\ i st1 = i st + 2
          /\ modesEntered st1
             = {| mode := mode_comment; character := Some (js "//") |}
                 :: modesEntered st
          /\ type (comment st1) = Some double_slash
          /\ start (comment st1) = Some (i st)
          /\ result st1 = result st)
      /\ forall k,
           i st + 2 <= k -> charAt s k = Some newline ->
           (forall j c, i st + 2 <= j < k -> charAt s j = Some c ->
                        Cls.line_terminator c = false) ->
           exists r st',
             reaches s st' /\ i st' = k + 1
             /\ modesEntered st' = modesEntered st
             /\ result st' = result st ++ [r]
             /\ type r = Some double_slash
             /\ start r = Some (i st) /\ end_ r = Some (k - 1)
             /\ forall res,
                  findCommentsInRaws s = Some (Normal res) -> In r res)
  /\ findCommentsInRaws text_calc_url = Some (Normal [])
  /\ findCommentsInRaws text_calc_url_line = Some (Normal [])
  /\ exists r,
       findCommentsInRaws text_parens_in_url = Some (Normal [r])
       /\ type r = Some double_slash
       /\ start r = Some 5 /\ end_ r = Some 9.
Proof.
  intros Hr Hm H0 H1.
  pose proof (charAt_Some_range _ _ _ H0) as Hrange.
  split; [|split; [|split; [|split]]].
  - intros Hu.
    pose proof (body_url_double_slash s st top below Hm Hu H0 H1) as Hb.
    split; [exact Hb|]. intros res r Hres Hin.
    set (st' := set_modes st (i st + 1) (modesEntered st)).
    assert (Ht : turn s st = Normal st')
      by (unfold turn; rewrite Hb; reflexivity).
    assert (Hr' : reaches s st') by (eapply reaches_turn; eauto; lia).
    rewrite (reaches_loop s st' Hr') in Hres.
    apply (loop_invariant s (fun x => i st < i x /\ avoids (i st) x)) in Hres.
    + destruct Hres as (stf & [_ [Hav _]] & _ & <-). apply Hav. exact Hin.
    + intros x x' [Hlt Hav] Hlen Hturn. split.
      * apply turn_i in Hturn. lia.
      * apply (avoids_turn s (i st) x x'); [assumption | lia | assumption..].
    + split; [simpl; lia|].
      apply (reaches_avoids s st Hr (i st)). lia.
  - intros Hu Hc.
    pose proof (turn_double_slash_opened s st top below Hm Hc Hu H0 H1)
      as Ht.
    split.
    { exists (double_slash_opened s st). split; [exact Ht|]. simpl.
      repeat split; try reflexivity. lia. }
    intros k Hk Hnl Hdot.
    assert (Hr1 : reaches s (double_slash_opened s st))
      by (apply (reaches_turn s st); [exact Hr | lia | exact Ht]).
    destruct (line_comment_closes s (double_slash_opened s st)
                (modesEntered st) (i st) k Hr1 eq_refl eq_refl H0 H1
                ltac:(simpl; lia) Hnl Hdot)
      as (r & st' & Hr3 & Hi & Hm' & Hres & Hty & Hst & Hend).
    simpl in Hres, Hty.
    exists r, st'. repeat (split; [assumption|]).
    intros res Hret.
    destruct (reaches_result_kept s _ res Hr3 Hret) as [more ->].
    rewrite Hres. apply in_or_app. left. apply in_or_app. right. left.
    reflexivity.
  - vm_compute. reflexivity.
  - vm_compute. reflexivity.
  - exists_returned text_parens_in_url. by_computation.
Qed.

Lemma double_slash_in_url_witness :
  let url := {| mode := mode_url; character := Some (js "(") |} in
  let parens := {| mode := mode_parens; character := Some (js "(") |} in
  let s := text_calc_url in
  let st := set_modes initial 9 [url; parens; bottom] in
  let s' := text_parens_in_url in
  let st' := set_modes initial 5 [parens; url; bottom] in
  (state_after s 9 = Some st
   /\ body s st = Normal st
   /\ forall res r,
        findCommentsInRaws s = Some (Normal res) -> In r res ->
        start r <> Some 9)
  /\ (state_after s' 5 = Some st'
      /\ charAt s' 10 = Some newline
      /\ exists r st2,
           reaches s' st2 /\ i st2 = 10 + 1
           /\ modesEntered st2 = modesEntered st'
           /\ result st2 = result st' ++ [r]
           /\ type r = Some double_slash
           /\ start r = Some (i st') /\ end_ r = Some (10 - 1)
           /\ forall res,
                findCommentsInRaws s' = Some (Normal res) -> In r res).
Proof.
  intros url parens s st s' st'. split.
  - split; [reflexivity|].
    apply (double_slash_in_url s st url [parens; bottom]).
    + apply (state_after_reaches s 9). reflexivity.
    + reflexivity.
    + reflexivity.
    + reflexivity.
    + reflexivity.
  - split; [reflexivity|]. split; [reflexivity|].
    apply (double_slash_in_url s' st' parens [url; bottom]).
    + apply (state_after_reaches s' 5). reflexivity.
    + reflexivity.
    + reflexivity.
    + reflexivity.
    + discriminate.
    + discriminate.
    + simpl. lia.
    + reflexivity.
    + intros j c Hj Hc. simpl in Hj.
      assert (Hj' : j = 7 \/ j = 8 \/ j = 9) by lia.
      destruct Hj' as [-> | [-> | ->]]; vm_compute in Hc;
        injection Hc as <-; reflexivity.
Defined.

(** ** The name before a parenthesis *)

Lemma ident_not_delimiter (c : N) :
  Cls.ident c = true -> Cls.delimiter c = false.
Proof.
  intros Hi. destruct (Cls.delimiter c) eqn:Hd; [|reflexivity]. exfalso.
  unfold Cls.ident, Cls.delimiter, Cls.space, Cls.between, Cls.just in *.
  norm_chars.
  repeat rewrite ?orb_true_iff, ?andb_true_iff, ?N.eqb_eq, ?N.leb_le in *.
  lia.
Qed.

Lemma delimiter_not_ident (c : N) :
  Cls.delimiter c = true -> Cls.ident c = false.
Proof.
  intros Hd. destruct (Cls.ident c) eqn:Hi; [|reflexivity].
  apply ident_not_delimiter in Hi. congruence.
Qed.

(** A text is made of identifier characters, or has a last code unit that is
    not one. *)
Lemma ident_suffix (t : str) :
  forallb Cls.ident t = true
  \/ exists a d id,
       t = a ++ d :: id /\ Cls.ident d = false
       /\ forallb Cls.ident id = true.
Proof.
  induction t as [|c t IH]; [left; reflexivity|].
  destruct IH as [Hid | (a & d & id & -> & Hd & Hid)].
  - destruct (Cls.ident c) eqn:Hc.
    + left. simpl. rewrite Hc. exact Hid.
    + right. exists [], c, t. auto.
  - right. exists (c :: a), d, id. auto.
Qed.

Lemma ident_suffix_unique (a a' : str) (d d' : N) (id id' : str) :
  a ++ d :: id = a' ++ d' :: id' ->
  Cls.ident d = false -> Cls.ident d' = false ->
  forallb Cls.ident id = true -> forallb Cls.ident id' = true ->
  a = a' /\ d = d' /\ id = id'.
Proof.
  revert a'. induction a as [|c a IH]; intros [|c' a'] H Hd Hd' Hid Hid';
    simpl in H; injection H as Hc Ht.
  - auto.
  - subst id. apply forallb_app_true in Hid as [_ Hid]. simpl in Hid.
    rewrite Hd' in Hid. discriminate.
  - subst id'. apply forallb_app_true in Hid' as [_ Hid']. simpl in Hid'.
    rewrite Hd in Hid'. discriminate.
  - destruct (IH a' Ht Hd Hd' Hid Hid') as (-> & -> & ->). subst c'. auto.
Qed.

(** A greedy run takes a whole text of its class when the rest of the
    pattern then matches. *)
Lemma star_all (p : N -> bool) (k : cont) (x : str) :
  forallb p x = true ->
  forall pos cs r,
    k (pos + length x)%nat [] cs = Some r -> star p k pos x cs = Some r.
Proof.
  induction x as [|c x IH]; intros Hp pos cs r Hk; simpl in *.
  - rewrite Nat.add_0_r in Hk. exact Hk.
  - apply andb_true_iff in Hp as [Hc Hx]. rewrite Hc.
    rewrite Nat.add_succ_r in Hk. rewrite (IH Hx (S pos) cs r Hk).
    reflexivity.
Qed.

(** The name and the end of the text, after the alternatives. *)
Lemma name_run_all (pos : nat) (x : str) :
  forallb Cls.ident x = true ->
  run (Seq (Group 1 (Star Cls.ident)) Eol) accept pos x []
  = Some [(1%nat, x)].
Proof.
  intros Hx. cbn [run]. apply star_all; [exact Hx|].
  replace (pos + length x - pos)%nat with (length x) by lia.
  rewrite firstn_all. reflexivity.
Qed.

Lemma name_run_stop (pos : nat) (c : N) (x : str) :
  Cls.ident c = false ->
  run (Seq (Group 1 (Star Cls.ident)) Eol) accept pos (c :: x) [] = None.
Proof. intros Hc. cbn [run star]. rewrite Hc. reflexivity. Qed.

(** The pattern of [functionName] at the last code unit that is not an
    identifier character. *)
Lemma run_functionName_at (pos : nat) (d : N) (id : str) :
  Cls.ident d = false -> forallb Cls.ident id = true ->
  run re_functionName accept pos (d :: id) []
  = option_map (fun g => [(1%nat, g)]) (function_name d id).
Proof.
  intros Hd Hid. unfold re_functionName. rewrite run_Seq.
  pose proof (name_run_all) as K1. pose proof (name_run_stop) as K2.
  set (K := run (Seq (Group 1 (Star Cls.ident)) Eol) accept) in *.
  clearbody K. unfold lit, function_name.
  assert (Hsp : Cls.space d = true -> Cls.delimiter d = true)
    by apply space_delimiter.
  destruct id as [|c id'].
  - cbn [run one]. rewrite (K2 pos d [] Hd), !(K1 _ [] Hid).
    destruct (Nat.eqb pos 0), (Cls.just 10 d), (Cls.just 13 d);
      cbn [orb option_map]; try reflexivity.
    all: destruct (Cls.space d);
      [rewrite (Hsp eq_refl) | destruct (Cls.delimiter d)]; reflexivity.
  - assert (Hid' : forallb Cls.ident id' = true).
    { simpl in Hid. apply andb_true_iff in Hid as [_ H]. exact H. }
    cbn [run one].
    rewrite (K2 pos d (c :: id') Hd), !(K1 _ (c :: id') Hid).
    rewrite (K1 _ id' Hid'). norm_chars.
    destruct (Nat.eqb pos 0), (Cls.just 10 d), (Cls.just 13 d);
      cbn [orb option_map]; try reflexivity.
    all: destruct (Cls.space d);
      [rewrite (Hsp eq_refl) | destruct (Cls.delimiter d); reflexivity].
    all: destruct (Cls.just 45 c); reflexivity.
Qed.

(** Before that code unit the pattern has no match. *)
Lemma run_functionName_before (pos : nat) (c : N) (y : str) (d : N)
  (id : str) :
  Cls.ident d = false -> forallb Cls.ident id = true ->
  run re_functionName accept pos (c :: y ++ d :: id) [] = None.
Proof.
  intros Hd Hid.
  destruct (run re_functionName accept pos (c :: y ++ d :: id) [])
    as [m|] eqn:Hrun; [exfalso | reflexivity].
  unfold re_functionName in Hrun. rewrite run_Seq in Hrun.
  match type of Hrun with
  | run ?alt ?k _ _ _ = _ =>
      apply (run_sound alt) in Hrun as (a1 & b1 & Heq & Hm & Hk);
      [|simpl; tauto]
  end.
  rewrite run_Seq in Hk.
  apply (run_Group_sound 1 (Star Cls.ident) I) in Hk
    as (id2 & b2 & -> & Hid2 & Hk).
  simpl in Hid2, Hk. destruct b2; [|discriminate].
  rewrite app_nil_r in Heq.
  assert (Hno : forall z, id2 = z ++ d :: id -> False).
  { intros z ->. apply forallb_app_true in Hid2 as [_ Hid2].
    simpl in Hid2. rewrite Hd in Hid2. discriminate. }
  cbn [matches] in Hm. unfold lit, Cls.just in Hm.
  destruct Hm as [[_ ->] | [(c1 & -> & _) | [(c1 & -> & _)
                 | [(x & z & -> & (c1 & -> & _) & (c2 & -> & Hc2))
                   | (c1 & -> & _)]]]]; simpl in Heq.
  - apply (Hno (c :: y)). symmetry. exact Heq.
  - injection Heq as _ Heq. apply (Hno y). symmetry. exact Heq.
  - injection Heq as _ Heq. apply (Hno y). symmetry. exact Heq.
  - injection Heq as _ Heq. destruct y as [|c3 y]; simpl in Heq.
    + injection Heq as Heq _. apply N.eqb_eq in Hc2. subst.
      discriminate Hd.
    + injection Heq as _ Heq. apply (Hno y). symmetry. exact Heq.
  - injection Heq as _ Heq. apply (Hno y). symmetry. exact Heq.
Qed.

Lemma match_from_functionName (a : str) (d : N) (id : str) :
  Cls.ident d = false -> forallb Cls.ident id = true ->
  forall pos,
    match_from re_functionName pos (a ++ d :: id)
    = match_from re_functionName (pos + length a) (d :: id).
Proof.
  intros Hd Hid. induction a as [|c a IH]; intros pos.
  - simpl. rewrite Nat.add_0_r. reflexivity.
  - rewrite match_from_eq.
    change ((c :: a) ++ d :: id) with (c :: a ++ d :: id).
    rewrite (run_functionName_before pos c a d id Hd Hid).
    rewrite IH. simpl. rewrite Nat.add_succ_r. reflexivity.
Qed.

(** Inside the identifier characters the pattern has no match either. *)
Lemma match_from_name_None (id : str) :
  forallb Cls.ident id = true ->
  forall pos, pos <> 0%nat -> match_from re_functionName pos id = None.
Proof.
  induction id as [|c id IH]; intros Hid pos Hpos; rewrite match_from_eq.
  - apply Nat.eqb_neq in Hpos. unfold re_functionName, lit. cbn [run one].
    rewrite Hpos. reflexivity.
  - simpl in Hid. apply andb_true_iff in Hid as [Hc Hid].
    rewrite (IH Hid (S pos)) by lia.
    pose proof (ident_not_delimiter c Hc) as Hdel.
    assert (Hsp : Cls.space c = false).
    { destruct (Cls.space c) eqn:Hs; [|reflexivity].
      apply space_delimiter in Hs. congruence. }
    assert (H10 : Cls.just 10 c = false).
    { destruct (Cls.just 10 c) eqn:H; [|reflexivity].
      apply just_eq in H. subst c. discriminate Hc. }
    assert (H13 : Cls.just 13 c = false).
    { destruct (Cls.just 13 c) eqn:H; [|reflexivity].
      apply just_eq in H. subst c. discriminate Hc. }
    apply Nat.eqb_neq in Hpos. unfold re_functionName, lit.
    rewrite run_Seq.
    set (K := run (Seq (Group 1 (Star Cls.ident)) Eol) accept).
    clearbody K. cbn [run one].
    rewrite Hpos, H10, H13, Hsp, Hdel. reflexivity.
Qed.

(** Group 1 of the pattern of [functionName], whatever the text. *)
Lemma functionName_capture (a : str) (d : N) (id : str) :
  Cls.ident d = false -> forallb Cls.ident id = true ->
  capture_of (exec re_functionName (a ++ d :: id)) 1 = function_name d id.
Proof.
  intros Hd Hid. unfold exec.
  rewrite (match_from_functionName a d id Hd Hid 0), match_from_eq.
  rewrite (run_functionName_at _ d id Hd Hid).
  destruct (function_name d id) as [g|]; simpl; [reflexivity|].
  rewrite (match_from_name_None id Hid) by lia. reflexivity.
Qed.

Lemma functionName_capture_name (t : str) :
  forallb Cls.ident t = true ->
  exec re_functionName t = Some [(1%nat, t)].
Proof.
  intros Hid. unfold exec. rewrite match_from_eq.
  unfold re_functionName at 1. rewrite run_Seq.
  pose proof (name_run_all 0 t Hid) as K1.
  set (K := run (Seq (Group 1 (Star Cls.ident)) Eol) accept) in *.
  clearbody K. cbn [run Nat.eqb]. rewrite K1. reflexivity.
Qed.

Lemma function_name_url (d : N) (id : str) :
  Cls.ident d = false ->
  function_name d id = Some (js "url")
  <-> (id = js "url" /\ Cls.delimiter d = true)
      \/ (id = js "-url" /\ Cls.space d = true /\ d <> 10%N /\ d <> 13%N).
Proof.
  intros Hd. unfold function_name. split.
  - destruct (Cls.just 10 d) eqn:H10.
    { apply just_eq in H10. subst d. simpl. intros H. injection H as ->.
      left. split; reflexivity. }
    destruct (Cls.just 13 d) eqn:H13.
    { apply just_eq in H13. subst d. simpl. intros H. injection H as ->.
      left. split; reflexivity. }
    cbn [orb]. unfold Cls.just in H10, H13.
    apply N.eqb_neq in H10, H13.
    destruct (Cls.space d) eqn:Hs.
    + pose proof (space_delimiter d Hs) as Hdel.
      destruct id as [|c id'].
      * intros H. discriminate H.
      * destruct (Cls.just (Cls.chr "-") c) eqn:Hc.
        -- apply just_eq in Hc. subst c. intros H. injection H as ->.
           right. repeat split; congruence.
        -- intros H. left. split; [congruence | exact Hdel].
    + destruct (Cls.delimiter d); [|discriminate].
      intros H. injection H as ->. left. split; reflexivity.
  - intros [[-> Hdel] | (-> & Hs & H10 & H13)].
    + destruct (Cls.just 10 d || Cls.just 13 d); [reflexivity|].
      destruct (Cls.space d); [reflexivity|]. rewrite Hdel. reflexivity.
    + unfold Cls.just at 1 2.
      apply not_eq_sym in H10, H13.
      apply N.eqb_neq in H10, H13. rewrite H10, H13, Hs. reflexivity.
Qed.

(** The name is [url] exactly after the texts of [names_url]. *)
Lemma functionName_url_iff (t : str) (m : captures) :
  exec re_functionName t = Some m ->
  capture m 1 = Some (js "url") <-> names_url t.
Proof.
  intros Hex.
  destruct (ident_suffix t) as [Hid | (a & d & id & -> & Hd & Hid)].
  - rewrite (functionName_capture_name t Hid) in Hex. injection Hex as <-.
    simpl. split.
    + intros H. injection H as ->. left. reflexivity.
    + intros [-> | [(a & d & -> & Hdel) | (a & d & -> & Hs & _)]];
        [reflexivity | |]; exfalso.
      * apply forallb_app_true in Hid as [_ Hid]. simpl in Hid.
        rewrite (delimiter_not_ident d Hdel) in Hid. discriminate.
      * apply forallb_app_true in Hid as [_ Hid]. simpl in Hid.
        rewrite (delimiter_not_ident d (space_delimiter d Hs)) in Hid.
        discriminate.
  - pose proof (functionName_capture a d id Hd Hid) as Hcap.
    rewrite Hex in Hcap. simpl in Hcap. rewrite Hcap.
    rewrite (function_name_url d id Hd). split.
    + intros [[-> Hdel] | (-> & Hs & H10 & H13)].
      * right. left. exists a, d. auto.
      * right. right. exists a, d. auto.
    + intros [Ht | [(a' & d' & Ht & Hdel) | (a' & d' & Ht & Hs & H10 & H13)]].
      * exfalso.
        assert (Hall : forallb Cls.ident (a ++ d :: id) = true)
          by (rewrite Ht; reflexivity).
        apply forallb_app_true in Hall as [_ Hall]. simpl in Hall.
        rewrite Hd in Hall. discriminate.
      * apply ident_suffix_unique in Ht as (-> & -> & ->);
          [| exact Hd | apply delimiter_not_ident; exact Hdel
           | exact Hid | reflexivity].
        left. auto.
      * apply ident_suffix_unique in Ht as (-> & -> & ->);
          [| exact Hd
           | apply delimiter_not_ident, space_delimiter; exact Hs
           | exact Hid | reflexivity].
        right. auto.
Qed.

(** X18: outside of a comment and of a string, a [(] that does not make the
    scanner throw pushes one entry on [modesEntered], a url or a parens; it
    is a url exactly when the text before the parenthesis is [url], or ends
    with a delimiter followed by [url], or ends with a white space other than
    a line feed and a carriage return followed by [-url]. *)
Theorem paren_enters_url_mode (s : str) (st st1 : state) (top : frame)
  (below : list frame) :
  modesEntered st = top :: below ->
  mode top <> mode_comment -> mode top <> mode_string ->
  charAt s (i st) = Some (Cls.chr "(") ->
  body s st = Normal st1 ->
  exists f,
    st1 = set_modes st (i st) (f :: modesEntered st)
    /\ character f = Some (js "(")
    /\ (mode f = mode_url \/ mode f = mode_parens)
    /\ (mode f = mode_url <-> names_url (substring s 0 (i st))).
Proof.
  intros Hm Hc Hs H0 Hb. unfold body in Hb. rewrite Hm, H0 in Hb.
  cbv zeta in Hb.
  change (is_char (Some (Cls.chr "(")) quot
          || is_char (Some (Cls.chr "(")) apos) with false in Hb.
  change (is_char (Some (Cls.chr "(")) (Cls.chr "(")) with true in Hb.
  cbv iota in Hb.
  apply Mode_eqb_neq in Hc, Hs. rewrite Hc, Hs in Hb. cbn [orb] in Hb.
  destruct (exec re_functionName (substring s 0 (i st))) as [m|] eqn:Hex;
    [|discriminate].
  injection Hb as <-.
  pose proof (functionName_url_iff _ m Hex) as Hurl.
  eexists. split; [rewrite Hm; reflexivity|]. cbn [character mode].
  split; [reflexivity|].
  destruct (opt_str_eqb (capture m 1) (js "url")) eqn:He.
  - apply opt_str_eqb_eq in He. split; [left; reflexivity|].
    split; [intros _; apply Hurl; exact He | reflexivity].
  - apply opt_str_eqb_neq in He. split; [right; reflexivity|].
    split; [discriminate|]. intros Hn. apply Hurl in Hn. contradiction.
Qed.

Lemma paren_enters_url_mode_witness :
  let s := text_url in
  let st := set_modes initial 7 (modesEntered initial) in
  let st1 :=
    set_modes st 7
      ({| mode := mode_url; character := Some (js "(") |}
         :: modesEntered st) in
  body s st = Normal st1
  /\ exists f,
       st1 = set_modes st (i st) (f :: modesEntered st)
       /\ character f = Some (js "(")
       /\ (mode f = mode_url \/ mode f = mode_parens)
       /\ (mode f = mode_url <-> names_url (substring s 0 (i st))).
Proof.
  intros s st st1.
  assert (Hb : body s st = Normal st1) by (vm_compute; reflexivity).
  split; [exact Hb|].
  apply (paren_enters_url_mode s st st1 bottom []).
  - reflexivity.
  - discriminate.
  - discriminate.
  - reflexivity.
  - exact Hb.
Defined.
